(** * Build staging directory of the Garden service (garden-service/src/build-dir.ts)

    A shallow embedding of the [BuildDir] class: the paths it computes with
    Node's [path] module, the requests it sends to the host ([ensureDir] and
    [emptyDir] of fs-extra, [execa] of rsync), and the way its asynchronous
    methods interleave under [bluebird]'s [map].

    The host is not modelled beyond the requests it receives: an execution is
    a schedule that says what goes on next, a request in flight that the host
    fulfils or rejects, the iteration of a map, or a rejection on its way to
    the promise of the operation.  What rsync does to the file tree is
    rsync's; the properties are about what it is asked to do, in which order,
    and how failures reach the promise of an operation.  Only for [clear] is
    the file tree made explicit, with fs-extra's [emptyDir] on it. *)

From Stdlib Require Import String Ascii List Bool Arith Lia.
Import ListNotations.
Open Scope list_scope.
Open Scope string_scope.

Set Implicit Arguments.

(** ** JavaScript string helpers *)

(** [s.endsWith(suffix)] *)
Definition endsWith (s suffix : string) : bool :=
  let n := String.length s in
  let m := String.length suffix in
  if Nat.leb m n then String.eqb (substring (n - m) m s) suffix else false.

(** [s.slice(0, -1)] *)
Definition slice_0_neg1 (s : string) : string :=
  substring 0 (String.length s - 1) s.

(** [s.charCodeAt(0) === CHAR_FORWARD_SLASH] *)
Definition startsWithSlash (s : string) : bool :=
  match s with
  | String c _ => Ascii.eqb c "/"
  | EmptyString => false
  end.

(** ** Node's [path] module

    [build-dir.ts] imports [isAbsolute], [join], [parse], [resolve], [sep] and
    [relative] from "path".  Node binds that module to [path.posix] or to
    [path.win32] according to the host, so the class is written against this
    interface; [Posix] below is the POSIX implementation. *)

Class PathModule : Type := {
  sep : string;
  isAbsolute : string -> bool;
  join : list string -> string;
  resolve : list string -> string;
  parse_dir : string -> string;          (* [parse(p).dir] *)
  relative : string -> string -> string
}.

Module Posix.

(** The segments between the "/" of a path; never the empty list. *)
Fixpoint split_slash (s : string) : list string :=
  match s with
  | EmptyString => [EmptyString]
  | String c s' =>
      if Ascii.eqb c "/" then EmptyString :: split_slash s'
      else match split_slash s' with
           | seg :: segs => String c seg :: segs
           | [] => [String c EmptyString]
           end
  end.

Definition join_slash (segs : list string) : string := String.concat "/" segs.

(** One segment of [normalizeString]; [res] is the result so far, last
    segment first. *)
Definition norm_step (allowAboveRoot : bool) (res : list string) (seg : string)
  : list string :=
  if String.eqb seg "" then res
  else if String.eqb seg "." then res
  else if String.eqb seg ".." then
    match res with
    | last :: res' =>
        if String.eqb last ".."
        then (if allowAboveRoot then ".." :: res else res)
        else res'
    | [] => if allowAboveRoot then [".."] else []
    end
  else seg :: res.

(** [normalizeString(path, allowAboveRoot, "/", isPosixPathSeparator)], on
    the segments of [path]. *)
Definition normalizeString (allowAboveRoot : bool) (segs : list string)
  : list string :=
  rev (fold_left (norm_step allowAboveRoot) segs []).

Definition posix_isAbsolute (p : string) : bool := startsWithSlash p.

Definition posix_normalize (p : string) : string :=
  if String.eqb p "" then "."
  else
    let isAbs := startsWithSlash p in
    let trailingSeparator := endsWith p "/" in
    let res := join_slash (normalizeString (negb isAbs) (split_slash p)) in
    if String.eqb res "" then
      (if isAbs then "/" else if trailingSeparator then "./" else ".")
    else
      let res := if trailingSeparator then res ++ "/" else res in
      if isAbs then "/" ++ res else res.

Definition posix_join (args : list string) : string :=
  match filter (fun a => negb (String.eqb a "")) args with
  | [] => "."
  | parts => posix_normalize (join_slash parts)
  end.

(** The loop of [resolve], from the last argument to the first: the
    concatenated path and whether an absolute argument was met. *)
Fixpoint resolve_loop (rev_args : list string) (resolvedPath : string)
  : string * bool :=
  match rev_args with
  | [] => (resolvedPath, false)
  | p :: rest =>
      if String.eqb p "" then resolve_loop rest resolvedPath
      else
        let resolvedPath := p ++ "/" ++ resolvedPath in
        if startsWithSlash p then (resolvedPath, true)
        else resolve_loop rest resolvedPath
  end.

Section WithCwd.

(** [process.cwd()] is "/" followed by these segments, so it is always
    absolute. *)
Variable cwd_segs : list string.

Definition cwd : string := "/" ++ join_slash cwd_segs.

(** The segments of [resolve(...args)] *)
Definition resolve_segs (args : list string) : list string :=
  let '(resolvedPath, resolvedAbsolute) := resolve_loop (rev args) "" in
  let resolvedPath :=
    if resolvedAbsolute then resolvedPath else cwd ++ "/" ++ resolvedPath in
  normalizeString false (split_slash resolvedPath).

Definition posix_resolve (args : list string) : string :=
  "/" ++ join_slash (resolve_segs args).

(** [parse(p).dir]: what precedes the separator in front of the last
    segment, trailing separators ignored. *)
Definition posix_parse_dir (p : string) : string :=
  let isAbs := startsWithSlash p in
  let body := if isAbs then substring 1 (String.length p - 1) p else p in
  let slash c := Ascii.eqb c "/" in
  let fix dropWhile (f : ascii -> bool) (l : list ascii) : list ascii :=
    match l with
    | c :: l' => if f c then dropWhile f l' else l
    | [] => []
    end in
  let r := rev (list_ascii_of_string body) in
  let r := dropWhile slash r in
  let r := dropWhile (fun c => negb (slash c)) r in
  match r with
  | _ :: before =>
      (if isAbs then "/" else "") ++ string_of_list_ascii (rev before)
  | [] => if isAbs then "/" else ""
  end.

Fixpoint drop_common (xs ys : list string) : list string * list string :=
  match xs, ys with
  | x :: xs', y :: ys' =>
      if String.eqb x y then drop_common xs' ys' else (xs, ys)
  | _, _ => (xs, ys)
  end.

(** [relative(from, to)], on the segments of the two resolved paths. *)
Definition posix_relative (from to : string) : string :=
  if String.eqb from to then ""
  else
    let '(up, down) := drop_common (resolve_segs [from]) (resolve_segs [to]) in
    join_slash (map (fun _ => "..") up ++ down)%list.

Definition posix : PathModule := {|
  sep := "/";
  isAbsolute := posix_isAbsolute;
  join := posix_join;
  resolve := posix_resolve;
  parse_dir := posix_parse_dir;
  relative := posix_relative
|}.

End WithCwd.

End Posix.

(** ** Configuration types (the fields [build-dir.ts] reads) *)

(** [FileCopySpec] of types/module *)
Record FileCopySpec : Type := {
  source : string;
  target : string
}.

(** An entry of [module.build.dependencies]; [copy] may be absent. *)
Record BuildDependencyConfig : Type := {
  dep_name : string;
  dep_plugin : option string;
  copy : option (list FileCopySpec)
}.

(** [ModuleConfig] / [Module]: [name], [path] and [build.dependencies]. *)
Record ModuleConfig : Type := {
  name : string;
  path : string;
  dependencies : list BuildDependencyConfig
}.

(** ** Requests to the host, errors and asynchronous code *)

(** The promise-returning calls of fs-extra and execa. *)
Inductive IO : Type :=
| ensureDir (dir : string)
| emptyDir (dir : string)
| execa (file : string) (args : list string).

Inductive Error : Type :=
| ConfigurationError (message : string) (copySpec : FileCopySpec)
| IOError (request : IO).      (* the reason a request was rejected with *)

Unset Elimination Schemes.

(** The body of an async function, in continuation style.  [Await io k] is
    [await io; k]: a rejection of [io] rejects the function.  [BluebirdMap]
    is [await bluebirdMap(items, mapper)] in tail position, given by the
    mapper's body at each item; [asyncMapper] tells an [async] arrow from
    a plain one, whose [Throw] is a synchronous exception. *)
Inductive Proc : Type :=
| Ret
| Throw (e : Error)
| Await (io : IO) (k : Proc)
| Debug (msg : string) (k : Proc)
| BluebirdMap (asyncMapper : bool) (calls : list Proc).
Set Elimination Schemes.

(** Induction on code, with the hypothesis for every call of a map. *)
Section ProcInduction.

Variable P : Proc -> Prop.
Hypothesis HRet : P Ret.
Hypothesis HThrow : forall e, P (Throw e).
Hypothesis HAwait : forall io k, P k -> P (Await io k).
Hypothesis HDebug : forall msg k, P k -> P (Debug msg k).
Hypothesis HMap : forall a calls, Forall P calls -> P (BluebirdMap a calls).

Fixpoint Proc_induction (p : Proc) : P p :=
  match p with
  | Ret => HRet
  | Throw e => HThrow e
  | Await io k => HAwait io (Proc_induction k)
  | Debug msg k => HDebug msg (Proc_induction k)
  | BluebirdMap a calls =>
      HMap a
        ((fix all (l : list Proc) : Forall P l :=
            match l with
            | [] => Forall_nil P
            | q :: l' => Forall_cons q (Proc_induction q) (all l')
            end) calls)
  end.

End ProcInduction.

(** What an observer of the host sees, in order. *)
Inductive Event : Type :=
| Call (io : IO)            (* the request was issued *)
| Fulfilled (io : IO)
| Rejected (io : IO)
| Logged (msg : string)     (* [log.debug(msg)] *)
| Threw (e : Error).        (* a [throw] statement ran *)

(** What is in flight in the event loop: a request with the code that awaits
    it; the iteration of a [bluebird] map, which [bluebird] schedules for a
    later turn; a rejection on its way, through the promises in between, to
    the promise of the operation. *)
Inductive Task : Type :=
| Awaiting (io : IO) (k : Proc)
| Iterating (asyncMapper : bool) (calls : list Proc)
| Rejecting (e : Error).

(** The event loop: the events so far, what is in flight, and the rejection
    that reached the promise of the operation first.  Nothing is cancelled
    when that promise rejects. *)
Record State : Type := {
  trace : list Event;
  pending : list Task;
  rejection : option Error
}.

Definition emit (ev : Event) (s : State) : State :=
  {| trace := (trace s ++ [ev])%list; pending := pending s; rejection := rejection s |}.

Definition suspend (task : Task) (s : State) : State :=
  {| trace := trace s; pending := (pending s ++ [task])%list; rejection := rejection s |}.

(** A promise settles once: only the first rejection to arrive is kept. *)
Definition reject (e : Error) (s : State) : State :=
  {| trace := trace s; pending := pending s;
     rejection := match rejection s with Some e0 => Some e0 | None => Some e end |}.

(** A [throw] statement: the promise of the function at hand is rejected. *)
Definition throw (e : Error) (s : State) : State :=
  suspend (Rejecting e) (emit (Threw e) s).

(** A plain mapper that throws does so inside [bluebird]'s iteration; an
    [async] mapper never does, it returns a rejected promise. *)
Definition sync_throw (asyncMapper : bool) (call : Proc) : option Error :=
  match call, asyncMapper with
  | Throw e, false => Some e
  | _, _ => None
  end.

(** Run code until it awaits a request. *)
Fixpoint start (p : Proc) (s : State) : State :=
  match p with
  | Ret => s
  | Throw e => throw e s
  | Await io k => suspend (Awaiting io k) (emit (Call io) s)
  | Debug msg k => start k (emit (Logged msg) s)
  | BluebirdMap asyncMapper calls => suspend (Iterating asyncMapper calls) s
  end.

(** The iteration of [bluebird]'s [map]: the mapper is called on the items in
    order, all in one turn; when it throws, the iteration stops and the map
    rejects. *)
Fixpoint iterate (asyncMapper : bool) (calls : list Proc) (s : State) : State :=
  match calls with
  | [] => s
  | call :: rest =>
      match sync_throw asyncMapper call with
      | Some e => throw e s
      | None => iterate asyncMapper rest (start call s)
      end
  end.

(** One turn of the loop, on the task at position [idx] of [pending]: the
    host answers a request, fulfilling it ([ok = true]) or rejecting it; an
    iteration runs; a rejection arrives. *)
Record Choice : Type := { idx : nat; ok : bool }.

Fixpoint remove_nth {A : Type} (n : nat) (l : list A) : list A :=
  match n, l with
  | _, [] => []
  | O, _ :: l' => l'
  | S n', x :: l' => x :: remove_nth n' l'
  end.

Definition step (s : State) (c : Choice) : State :=
  match nth_error (pending s) (idx c) with
  | None => s
  | Some task =>
      let s' := {| trace := trace s;
                   pending := remove_nth (idx c) (pending s);
                   rejection := rejection s |} in
      match task with
      | Awaiting io k =>
          if ok c then start k (emit (Fulfilled io) s')
          else suspend (Rejecting (IOError io)) (emit (Rejected io) s')
      | Iterating asyncMapper calls => iterate asyncMapper calls s'
      | Rejecting e => reject e s'
      end
  end.

Definition initial : State := {| trace := []; pending := []; rejection := None |}.

(** The host fulfils, or rejects, the request at position [n]; the iteration
    or the rejection at position [n] takes its turn. *)
Definition fulfil (n : nat) : Choice := {| idx := n; ok := true |}.
Definition fail (n : nat) : Choice := {| idx := n; ok := false |}.
Definition turn (n : nat) : Choice := {| idx := n; ok := true |}.

(** [n] turns in which the oldest task in flight goes on and the host, if
    asked, fulfils. *)
Definition fulfil_all (n : nat) : list Choice := repeat (fulfil 0) n.

(** The operation [p] under the schedule [sched] of the host. *)
Definition run (sched : list Choice) (p : Proc) : State :=
  fold_left step sched (start p initial).

Inductive Outcome : Type :=
| StillPending
| Resolved
| RejectedWith (e : Error).

(** The promise of the operation: rejected by the first rejection that
    arrives, fulfilled when nothing is in flight any more. *)
Definition outcome (s : State) : Outcome :=
  match rejection s with
  | Some e => RejectedWith e
  | None => match pending s with [] => Resolved | _ :: _ => StillPending end
  end.

(** ** The [BuildDir] class *)

Record BuildDir : Type := {
  projectRoot : string;
  buildDirPath : string;
  buildMetadataDirPath : string
}.

(** [zip] of lodash: the shorter array is padded with [undefined]. *)
Fixpoint zip {A B : Type} (xs : list A) (ys : list B) : list (option A * option B) :=
  match xs with
  | [] => map (fun y => (None, Some y)) ys
  | x :: xs' =>
      match ys with
      | [] => (Some x, None) :: zip xs' []
      | y :: ys' => (Some x, Some y) :: zip xs' ys'
      end
  end.

Definition stripWildcard (path : string) : string :=
  if endsWith path "/*" then slice_0_neg1 path else path.

Section BuildDirMethods.

Context {path_module : PathModule}.

(** [platform()] of "os". *)
Variable platform : string.

(** [toCygwinPath] (util/fs) and [getModuleKey] (types/module) are defined
    in other modules of the service; the class is parametric in them. *)
Variable toCygwinPath : string -> string.
Variable getModuleKey : string -> option string -> string.

(** [BuildDir.factory]; [k] receives the new instance. *)
Definition factory (projectRoot gardenDirPath : string) (k : BuildDir -> Proc) : Proc :=
  let buildDirPath := join [gardenDirPath; "build"] in
  let buildMetadataDirPath := join [gardenDirPath; "build-metadata"] in
  Await (ensureDir buildDirPath) (
  Await (ensureDir buildMetadataDirPath) (
  k {| projectRoot := projectRoot;
       buildDirPath := buildDirPath;
       buildMetadataDirPath := buildMetadataDirPath |})).

Variable this : BuildDir.

(** The path [buildPath] returns. *)
Definition buildPathOf (moduleName : string) : string :=
  resolve [buildDirPath this; moduleName].

Definition buildPath (moduleName : string) (k : string -> Proc) : Proc :=
  let path := buildPathOf moduleName in
  Await (ensureDir path) (k path).

Definition buildMetadataPath (moduleName : string) (k : string -> Proc) : Proc :=
  let path := resolve [buildMetadataDirPath this; moduleName] in
  Await (ensureDir path) (k path).

Definition clear : Proc :=
  Await (emptyDir (buildDirPath this)) Ret.

(** The options of rsync, [syncOpts]. *)
Definition syncOpts (withDelete : bool) : list string :=
  let exclude := "--exclude=" ++ buildDirPath this in
  (["-rptgo"; exclude] ++ (if withDelete then ["--delete"] else []))%list.

(** The two path arguments of rsync. *)
Definition syncPaths (sourcePath destinationPath : string) : string * string :=
  let sourcePath :=
    if String.eqb platform "win32" then toCygwinPath sourcePath else sourcePath in
  let destinationPath :=
    if String.eqb platform "win32" then toCygwinPath destinationPath
    else destinationPath in
  (stripWildcard sourcePath, stripWildcard destinationPath).

Definition rsyncArgs (sourcePath destinationPath : string) (withDelete : bool)
  : list string :=
  let '(sourcePath, destinationPath) := syncPaths sourcePath destinationPath in
  (syncOpts withDelete ++ [sourcePath; destinationPath])%list.

Definition logMsg (sourcePath destinationPath : string) (withDelete : bool) : string :=
  let '(sourcePath, destinationPath) := syncPaths sourcePath destinationPath in
  "Syncing from " ++ relative (projectRoot this) sourcePath
    ++ " to " ++ relative (projectRoot this) destinationPath
    ++ (if withDelete then " (with delete)" else "").

(** [BuildDir.sync] *)
Definition sync (sourcePath destinationPath : string) (withDelete : bool) : Proc :=
  let destinationDir := parse_dir destinationPath in
  Await (ensureDir destinationDir) (
  Debug (logMsg sourcePath destinationPath withDelete) (
  Await (execa "rsync" (rsyncArgs sourcePath destinationPath withDelete)) Ret)).

(** [BuildDir.syncFromSrc] *)
Definition syncFromSrc (module : ModuleConfig) : Proc :=
  let sourcePath := resolve [projectRoot this; path module] ++ sep in
  buildPath (name module) (fun destinationPath =>
  sync sourcePath destinationPath true).

(** The mapper of the inner [bluebirdMap], a plain arrow function. *)
Definition copyMapper (sourceBuildPath buildPath : string) (copy : FileCopySpec)
  : Proc :=
  if isAbsolute (source copy) then
    Throw (ConfigurationError
             "Source path in build dependency copy spec must be a relative path" copy)
  else if isAbsolute (target copy) then
    Throw (ConfigurationError
             "Target path in build dependency copy spec must be a relative path" copy)
  else
    let sourcePath := join [sourceBuildPath; source copy] in
    let destinationPath := join [buildPath; target copy] in
    sync sourcePath destinationPath false.

(** The mapper of the outer [bluebirdMap], an async arrow function. *)
Definition dependencyMapper (buildPath : string)
    (entry : option BuildDependencyConfig * option BuildDependencyConfig) : Proc :=
  match entry with
  | (Some sourceModule, Some depConfig) =>
      match copy depConfig with
      | None => Ret
      | Some copySpecs =>
          BuildDirMethods.buildPath
            (getModuleKey (dep_name sourceModule) (dep_plugin sourceModule))
            (fun sourceBuildPath =>
               BluebirdMap false (map (copyMapper sourceBuildPath buildPath) copySpecs))
      end
  | _ => Ret
  end.

(** [BuildDir.syncDependencyProducts] *)
Definition syncDependencyProducts (module : ModuleConfig) : Proc :=
  buildPath (name module) (fun buildPath =>
  let buildDependencies := dependencies module in
  let dependencyConfigs := dependencies module in
  BluebirdMap true
    (map (dependencyMapper buildPath) (zip buildDependencies dependencyConfigs))).

End BuildDirMethods.

(** ** Reading executions *)

(** The requests a trace shows fulfilled. *)
Definition fulfilled (t : list Event) : list IO :=
  flat_map (fun ev => match ev with Fulfilled io => [io] | _ => [] end) t.

(** The failures of a trace, oldest first: exceptions thrown and requests
    rejected. *)
Definition failures (t : list Event) : list Error :=
  flat_map (fun ev => match ev with
                      | Threw e => [e]
                      | Rejected io => [IOError io]
                      | _ => []
                      end) t.

(** Events the code produces itself, as opposed to answers of the host. *)
Definition emitted (ev : Event) : Prop :=
  match ev with
  | Fulfilled _ | Rejected _ => False
  | _ => True
  end.

Definition is_execa (io : IO) : bool :=
  match io with execa _ _ => true | _ => false end.

(** How many times a trace shows a program executed. *)
Definition execa_calls (t : list Event) : nat :=
  length (filter (fun ev => match ev with Call io => is_execa io | _ => false end) t).

(** ** Static readings of code *)

(** Every event [p] can produce satisfies [Q], given the requests known to be
    fulfilled when it is produced: those awaited on the way to it.  Calls of
    a map after a synchronous throw never run and are not inspected. *)
Fixpoint guarded (Q : list IO -> Event -> Prop) (done : list IO) (p : Proc) : Prop :=
  match p with
  | Ret => True
  | Throw e => Q done (Threw e)
  | Await io k => Q done (Call io) /\ guarded Q (io :: done) k
  | Debug msg k => Q done (Logged msg) /\ guarded Q done k
  | BluebirdMap asyncMapper calls =>
      (fix all (l : list Proc) : Prop :=
         match l with
         | [] => True
         | q :: l' =>
             match sync_throw asyncMapper q with
             | Some e => Q done (Threw e)
             | None => guarded Q done q /\ all l'
             end
         end) calls
  end.

Fixpoint guarded_all (Q : list IO -> Event -> Prop) (done : list IO)
    (asyncMapper : bool) (calls : list Proc) : Prop :=
  match calls with
  | [] => True
  | q :: l' =>
      match sync_throw asyncMapper q with
      | Some e => Q done (Threw e)
      | None => guarded Q done q /\ guarded_all Q done asyncMapper l'
      end
  end.

(** Code that throws on some branch when every request it awaits is
    fulfilled. *)
Fixpoint doomed (p : Proc) : Prop :=
  match p with
  | Ret => False
  | Throw _ => True
  | Await _ k => doomed k
  | Debug _ k => doomed k
  | BluebirdMap _ calls =>
      (fix any (l : list Proc) : Prop :=
         match l with
         | [] => False
         | q :: l' => doomed q \/ any l'
         end) calls
  end.

(** Code without [bluebirdMap]: one request in flight at a time. *)
Fixpoint linear (p : Proc) : Prop :=
  match p with
  | Ret | Throw _ => True
  | Await _ k => linear k
  | Debug _ k => linear k
  | BluebirdMap _ _ => False
  end.

(** The trace of linear code when every request is fulfilled. *)
Fixpoint full_trace (p : Proc) : list Event :=
  match p with
  | Ret => []
  | Throw e => [Threw e]
  | Await io k => Call io :: Fulfilled io :: full_trace k
  | Debug msg k => Logged msg :: full_trace k
  | BluebirdMap _ _ => []
  end.

(** The number of programs [p] executes when every request is fulfilled. *)
Fixpoint execa_budget (p : Proc) : nat :=
  match p with
  | Ret | Throw _ => 0
  | Await io k => (if is_execa io then 1 else 0) + execa_budget k
  | Debug _ k => execa_budget k
  | BluebirdMap asyncMapper calls =>
      (fix sum (l : list Proc) : nat :=
         match l with
         | [] => 0
         | q :: l' =>
             match sync_throw asyncMapper q with
             | Some _ => 0
             | None => execa_budget q + sum l'
             end
         end) calls
  end.

Fixpoint execa_budget_all (asyncMapper : bool) (calls : list Proc) : nat :=
  match calls with
  | [] => 0
  | q :: l' =>
      match sync_throw asyncMapper q with
      | Some _ => 0
      | None => execa_budget q + execa_budget_all asyncMapper l'
      end
  end.

Definition task_budget (task : Task) : nat :=
  match task with
  | Awaiting _ k => execa_budget k
  | Iterating asyncMapper calls => execa_budget_all asyncMapper calls
  | Rejecting _ => 0
  end.

(** The programs still to be executed by the code in flight. *)
Definition pending_budget (s : State) : nat :=
  list_sum (map task_budget (pending s)).

(** A bound on the turns the code [p] takes: two for a request, its answer
    and the rejection a failure leaves; one for an iteration; one for a
    [throw]. *)
Fixpoint turns (p : Proc) : nat :=
  match p with
  | Ret => 0
  | Throw _ => 1
  | Await _ k => 2 + turns k
  | Debug _ k => turns k
  | BluebirdMap _ calls =>
      1 + (fix sum (l : list Proc) : nat :=
             match l with
             | [] => 0
             | q :: l' => turns q + sum l'
             end) calls
  end.

Definition task_turns (task : Task) : nat :=
  match task with
  | Awaiting io k => turns (Await io k)
  | Iterating asyncMapper calls => turns (BluebirdMap asyncMapper calls)
  | Rejecting e => turns (Throw e)
  end.

(** The turns the code in flight may still take. *)
Definition pending_turns (s : State) : nat :=
  list_sum (map task_turns (pending s)).

(** ** The calls of [sync] each operation makes *)

(** [sourcePath], [destinationPath], [withDelete] *)
Definition SyncRequest : Type := string * string * bool.

Section Requests.

Context {path_module : PathModule}.
Variable platform : string.
Variable toCygwinPath : string -> string.
Variable getModuleKey : string -> option string -> string.
Variable this : BuildDir.

Definition hasAbsolutePath (c : FileCopySpec) : bool :=
  isAbsolute (source c) || isAbsolute (target c).

(** The copy specs the inner map reaches before it throws. *)
Fixpoint beforeAbsolute (specs : list FileCopySpec) : list FileCopySpec :=
  match specs with
  | [] => []
  | c :: rest => if hasAbsolutePath c then [] else c :: beforeAbsolute rest
  end.

Definition syncFromSrc_requests (module : ModuleConfig) : list SyncRequest :=
  [(resolve [projectRoot this; path module] ++ sep,
    buildPathOf this (name module), true)].

Definition copy_request (sourceBuildPath buildPath : string) (c : FileCopySpec)
  : SyncRequest :=
  (join [sourceBuildPath; source c], join [buildPath; target c], false).

Definition dependency_requests (module : ModuleConfig) (d : BuildDependencyConfig)
  : list SyncRequest :=
  match copy d with
  | None => []
  | Some specs =>
      map (copy_request (buildPathOf this (getModuleKey (dep_name d) (dep_plugin d)))
                        (buildPathOf this (name module)))
          (beforeAbsolute specs)
  end.

Definition syncDependencyProducts_requests (module : ModuleConfig)
  : list SyncRequest :=
  flat_map (dependency_requests module) (dependencies module).

(** Every program executed is rsync, for one of the requests [reqs], after
    [ensureDir] on the parent of its destination was fulfilled. *)
Definition rsync_of (reqs : list SyncRequest) (done : list IO) (ev : Event) : Prop :=
  forall file args,
    ev = Call (execa file args) ->
    file = "rsync" /\
    exists src dst wd,
      In (src, dst, wd) reqs /\
      args = rsyncArgs platform toCygwinPath this src dst wd /\
      In (ensureDir (parse_dir dst)) done.

(** Every exception thrown is the [ConfigurationError] of a copy spec with
    an absolute path. *)
Definition throws_ConfigurationError (done : list IO) (ev : Event) : Prop :=
  forall e,
    ev = Threw e ->
    exists message c, e = ConfigurationError message c /\ hasAbsolutePath c = true.

(** An exception is only thrown once [ensureDir] was fulfilled on the build
    path of the module and on that of one of its dependencies. *)
Definition throws_after_ensureDir (module : ModuleConfig) (done : list IO) (ev : Event)
  : Prop :=
  forall e,
    ev = Threw e ->
    In (ensureDir (buildPathOf this (name module))) done /\
    exists d,
      In d (dependencies module) /\
      In (ensureDir (buildPathOf this (getModuleKey (dep_name d) (dep_plugin d)))) done.

(** Both, for the events of a staging operation. *)
Definition staging_events (reqs : list SyncRequest) (done : list IO) (ev : Event)
  : Prop :=
  rsync_of reqs done ev /\ throws_ConfigurationError done ev.

(** A module one of whose dependencies has a copy spec with an absolute
    [source] or [target]. *)
Definition hasAbsoluteCopySpec (module : ModuleConfig) : Prop :=
  exists d specs c,
    In d (dependencies module) /\ copy d = Some specs /\
    In c specs /\ hasAbsolutePath c = true.

(** The module without the dependencies that carry no copy list. *)
Definition withoutCopyless (module : ModuleConfig) : ModuleConfig :=
  {| name := name module;
     path := path module;
     dependencies :=
       filter (fun d => match copy d with Some _ => true | None => false end)
              (dependencies module) |}.

(** The two staging operations of the Build Stager, [stageSource] and
    [stageDependencies]. *)
Inductive Staging : Type :=
| StageSource (module : ModuleConfig)
| StageDependencies (module : ModuleConfig).

Definition stage (op : Staging) : Proc :=
  match op with
  | StageSource module => syncFromSrc platform toCygwinPath this module
  | StageDependencies module =>
      syncDependencyProducts platform toCygwinPath getModuleKey this module
  end.

Definition requests_of (op : Staging) : list SyncRequest :=
  match op with
  | StageSource module => syncFromSrc_requests module
  | StageDependencies module => syncDependencyProducts_requests module
  end.

(** The rsync invocation of [syncFromSrc]. *)
Definition mirror_rsync (module : ModuleConfig) : IO :=
  let paths :=
    syncPaths platform toCygwinPath
      (resolve [projectRoot this; path module] ++ sep)
      (buildPathOf this (name module)) in
  execa "rsync"
    ["-rptgo"; "--exclude=" ++ buildDirPath this; "--delete"; fst paths; snd paths].

(** A trace without any request to the host. *)
Definition no_file_operations (t : list Event) : Prop :=
  forall io, ~ In (Call io) t.

End Requests.

(** ** Invariants of executions *)

(** Every event the code produced satisfied [Q] when it was produced. *)
Definition trace_ok (Q : list IO -> Event -> Prop) (t : list Event) : Prop :=
  forall t1 ev t2,
    t = (t1 ++ ev :: t2)%list -> emitted ev -> Q (fulfilled t1) ev.

(** The code of a task will only produce events that satisfy [Q], given the
    requests [done]. *)
Definition task_guarded (Q : list IO -> Event -> Prop) (done : list IO) (task : Task)
  : Prop :=
  match task with
  | Awaiting io k => guarded Q (io :: done) k
  | Iterating asyncMapper calls => guarded_all Q done asyncMapper calls
  | Rejecting _ => True
  end.

(** The code in flight will only produce events that satisfy [Q]. *)
Definition pending_ok (Q : list IO -> Event -> Prop) (s : State) : Prop :=
  forall task,
    In task (pending s) ->
    exists done, incl done (fulfilled (trace s)) /\ task_guarded Q done task.

(** The promise rejects with a failure of the run, as does every rejection on
    its way; and a failure is not lost: the promise is rejected or a
    rejection is on its way. *)
Definition failures_surface (s : State) : Prop :=
  (forall e, rejection s = Some e -> In e (failures (trace s))) /\
  (forall e, In (Rejecting e) (pending s) -> In e (failures (trace s))) /\
  (failures (trace s) <> [] ->
   rejection s <> None \/ exists e, In (Rejecting e) (pending s)).

Definition task_doomed (task : Task) : Prop :=
  match task with
  | Awaiting _ k => doomed k
  | Iterating asyncMapper calls => doomed (BluebirdMap asyncMapper calls)
  | Rejecting _ => True
  end.

(** The promise is rejected, or a task in flight is bound to reject it. *)
Definition will_reject (s : State) : Prop :=
  rejection s <> None \/ exists task, In task (pending s) /\ task_doomed task.

(** Linear code with trace [full] when nothing fails: the state is at a point
    of [full], and at most one thing has failed. *)
Definition on_script (full : list Event) (s : State) : Prop :=
  (pending s = [] /\
   ((rejection s = None /\ failures (trace s) = [] /\ trace s = full) \/
    (exists e, rejection s = Some e /\ failures (trace s) = [e])))
  \/
  (exists io k,
     pending s = [Awaiting io k] /\ linear k /\ rejection s = None /\
     failures (trace s) = [] /\
     (trace s ++ Fulfilled io :: full_trace k)%list = full)
  \/
  (exists e,
     pending s = [Rejecting e] /\ rejection s = None /\ failures (trace s) = [e]).

(** ** Path segments and the file tree of the host *)

Fixpoint has_slash (s : string) : bool :=
  match s with
  | EmptyString => false
  | String c s' => Ascii.eqb c "/" || has_slash s'
  end.

(** A name that is one plain path segment: not empty, not "." or "..", and
    without a separator. *)
Definition is_segment (s : string) : bool :=
  negb (String.eqb s "") && negb (String.eqb s ".") && negb (String.eqb s "..")
  && negb (has_slash s).

(** [dir/segment], for a resolved path [dir]. *)
Definition child (dir segment : string) : string :=
  (if String.eqb dir "/" then "" else dir) ++ "/" ++ segment.

Inductive Entry : Type :=
| File (content : string)
| Directory.

(** The entry at each absolute path, given by its segments. *)
Definition FileTree : Type := list string -> option Entry.

Fixpoint is_prefix (dir p : list string) : bool :=
  match dir, p with
  | [], _ => true
  | x :: dir', y :: p' => String.eqb x y && is_prefix dir' p'
  | _ :: _, [] => false
  end.

(** [p] is strictly below [dir]. *)
Definition inside (dir p : list string) : bool :=
  is_prefix dir p && negb (Nat.eqb (length dir) (length p)).

Definition is_file (tree : FileTree) (p : list string) : bool :=
  match tree p with
  | Some (File _) => true
  | _ => false
  end.

(** [mkdirs(dir)] of fs-extra: every missing directory on the way to [dir] is
    made; it fails when a file is in the way. *)
Definition fs_mkdirs (dir : list string) (tree : FileTree) : option FileTree :=
  if existsb (is_file tree) (map (fun n => firstn n dir) (seq 0 (S (length dir))))
  then None
  else Some (fun p => if is_prefix p dir then Some Directory else tree p).

(** [emptyDir(dir)] of fs-extra: the items of a directory are removed, the
    directory stays; what [readdir] fails on is handed to [mkdirs]. *)
Definition fs_emptyDir (dir : list string) (tree : FileTree) : option FileTree :=
  match tree dir with
  | Some Directory => Some (fun p => if inside dir p then None else tree p)
  | _ => fs_mkdirs dir tree
  end.

(** The only requests of [factory] followed by [clear]. *)
Definition factory_clear_requests (gardenDirPath : string) (done : list IO) (ev : Event)
  : Prop :=
  forall io,
    ev = Call io ->
    io = ensureDir (Posix.posix_join [gardenDirPath; "build"]) \/
    io = ensureDir (Posix.posix_join [gardenDirPath; "build-metadata"]) \/
    io = emptyDir (Posix.posix_join [gardenDirPath; "build"]).

(** ** A sample project, to run the operations on *)

Definition sample_path : PathModule := Posix.posix ["home"; "dev"].

Definition sample_getModuleKey (name : string) (plugin : option string) : string :=
  match plugin with
  | Some p => p ++ "--" ++ name
  | None => name
  end.

Definition sample_toCygwinPath (p : string) : string := "/cygdrive/c" ++ p.

Definition sample_buildDir : BuildDir :=
  {| projectRoot := "/proj";
     buildDirPath := "/proj/.garden/build";
     buildMetadataDirPath := "/proj/.garden/build-metadata" |}.

Definition lib_dep : BuildDependencyConfig :=
  {| dep_name := "lib"; dep_plugin := None;
     copy := Some [ {| source := "dist/*"; target := "vendor/lib" |} ] |}.

Definition base_dep : BuildDependencyConfig :=
  {| dep_name := "base"; dep_plugin := None; copy := None |}.

Definition assets_dep : BuildDependencyConfig :=
  {| dep_name := "assets"; dep_plugin := Some "npm";
     copy := Some [ {| source := "out"; target := "public" |} ] |}.

(** A module with two dependencies that copy and one that does not. *)
Definition web : ModuleConfig :=
  {| name := "web";
     path := "services/web";
     dependencies := [lib_dep; base_dep; assets_dep] |}.

Definition web_without_base : ModuleConfig :=
  {| name := "web";
     path := "services/web";
     dependencies := [lib_dep; assets_dep] |}.

(** A module whose only copy spec has an absolute target. *)
Definition web_etc : ModuleConfig :=
  {| name := "web";
     path := "services/web";
     dependencies :=
       [ {| dep_name := "lib"; dep_plugin := None;
            copy := Some [ {| source := "conf"; target := "/etc/foo" |} ] |} ] |}.

(** A module whose dependency has a relative copy spec followed by one with
    an absolute target. *)
Definition web_lib_etc : ModuleConfig :=
  {| name := "web";
     path := "services/web";
     dependencies :=
       [ {| dep_name := "lib"; dep_plugin := None;
            copy := Some [ {| source := "dist/*"; target := "vendor/lib" |};
                           {| source := "conf"; target := "/etc/foo" |} ] |} ] |}.


Definition sample_stage (op : Staging) : Proc :=
  @stage sample_path "linux" sample_toCygwinPath sample_getModuleKey sample_buildDir op.

(** [syncDependencyProducts] on [web]: the host fulfils every [ensureDir]
    and rejects both rsync invocations, the one of [lib] first, and the two
    rejections arrive in that order. *)
Definition both_rsync_fail : list Choice :=
  [fulfil 0; turn 0; fulfil 0; fulfil 0; turn 0; turn 0; fulfil 0; fulfil 0;
   fail 0; fail 0; turn 0; turn 0].

(** [syncDependencyProducts] on [web_etc]: both [ensureDir] are fulfilled,
    the copy spec is checked, the rejection arrives. *)
Definition check_copy_spec : list Choice :=
  [fulfil 0; turn 0; fulfil 0; turn 0; turn 0].

(** [syncDependencyProducts] on [web_lib_etc]: as before, and then the sync
    of the first copy spec goes on. *)
Definition check_then_sync : list Choice :=
  [fulfil 0; turn 0; fulfil 0; turn 0; turn 1; fulfil 0; fulfil 0].

(** [syncDependencyProducts] on [web], up to the invocation of rsync for
    [lib]. *)
Definition until_rsync_lib : list Choice :=
  [fulfil 0; turn 0; fulfil 0; turn 1; fulfil 1].

Definition rsync_lib : list string :=
  ["-rptgo"; "--exclude=/proj/.garden/build";
   "/proj/.garden/build/lib/dist/"; "/proj/.garden/build/web/vendor/lib"].

Definition rsync_assets : list string :=
  ["-rptgo"; "--exclude=/proj/.garden/build";
   "/proj/.garden/build/npm--assets/out"; "/proj/.garden/build/web/public"].

Definition rsync_web : list string :=
  ["-rptgo"; "--exclude=/proj/.garden/build"; "--delete";
   "/proj/services/web/"; "/proj/.garden/build/web"].


(** The trace of [syncFromSrc] on [web] up to the invocation of rsync. *)
Definition before_rsync_web : list Event :=
  [Call (ensureDir "/proj/.garden/build/web");
   Fulfilled (ensureDir "/proj/.garden/build/web");
   Call (ensureDir "/proj/.garden/build");
   Fulfilled (ensureDir "/proj/.garden/build");
   Logged "Syncing from services/web to .garden/build/web (with delete)"].

(** A file tree with a staged file of [web] and its recorded version. *)
Definition sample_tree : FileTree :=
  fun p =>
    if list_eq_dec string_dec p ["proj"; ".garden"; "build"; "web"; "main.js"]
    then Some (File "console.log(1)")
    else if list_eq_dec string_dec p ["proj"; ".garden"; "build-metadata"; "web"; "version"]
    then Some (File "v-1a2b3c")
    else if is_prefix p ["proj"; ".garden"; "build"; "web"]
    then Some Directory
    else if is_prefix p ["proj"; ".garden"; "build-metadata"; "web"]
    then Some Directory
    else None.


(** ** Further readings of code and of executions *)

(** The requests [p] makes when none of them fails.  Calls of a map after a
    synchronous throw never run. *)
Fixpoint awaited (p : Proc) : list IO :=
  match p with
  | Ret | Throw _ => []
  | Await io k => io :: awaited k
  | Debug _ k => awaited k
  | BluebirdMap asyncMapper calls =>
      (fix all (l : list Proc) : list IO :=
         match l with
         | [] => []
         | q :: l' =>
             match sync_throw asyncMapper q with
             | Some _ => []
             | None => (awaited q ++ all l')%list
             end
         end) calls
  end.

Fixpoint awaited_all (asyncMapper : bool) (calls : list Proc) : list IO :=
  match calls with
  | [] => []
  | q :: l' =>
      match sync_throw asyncMapper q with
      | Some _ => []
      | None => (awaited q ++ awaited_all asyncMapper l')%list
      end
  end.

(** The requests the code of a task is still to make. *)
Definition task_awaited (task : Task) : list IO :=
  match task with
  | Awaiting _ k => awaited k
  | Iterating asyncMapper calls => awaited_all asyncMapper calls
  | Rejecting _ => []
  end.

(** The request [io] has been made, or code in flight is to make it. *)
Definition underway (io : IO) (s : State) : Prop :=
  In (Call io) (trace s) \/
  exists task, In task (pending s) /\ In io (task_awaited task).

(** Every request made has been answered or is in flight. *)
Definition answered (s : State) : Prop :=
  forall io,
    In (Call io) (trace s) ->
    In (Fulfilled io) (trace s) \/ In (Rejected io) (trace s) \/
    exists k, In (Awaiting io k) (pending s).

(** A schedule in which the host rejects nothing. *)
Definition all_ok (sched : list Choice) : Prop :=
  Forall (fun c => ok c = true) sched.

(** Linear code with trace [full] when nothing fails: the trace of the state
    is a part of [full] from its start, with the answer to the last request
    turned into a rejection when that request failed. *)
Definition follows_script (full : list Event) (s : State) : Prop :=
  (exists io k,
     pending s = [Awaiting io k] /\ linear k /\ rejection s = None /\
     (trace s ++ Fulfilled io :: full_trace k)%list = full)
  \/
  (pending s = [] /\ rejection s = None /\ trace s = full)
  \/
  (exists t io rest,
     trace s = (t ++ [Rejected io])%list /\
     (t ++ Fulfilled io :: rest)%list = full /\
     ((pending s = [Rejecting (IOError io)] /\ rejection s = None) \/
      (pending s = [] /\ rejection s = Some (IOError io))))
  \/
  (exists e,
     trace s = full /\
     ((pending s = [Rejecting e] /\ rejection s = None) \/
      (pending s = [] /\ rejection s = Some e))).

(** Every program is executed right after the message of [announce] for its
    arguments was logged. *)
Fixpoint announced (announce : list string -> string -> Prop) (p : Proc) : Prop :=
  match p with
  | Ret | Throw _ => True
  | Await io k => is_execa io = false /\ announced announce k
  | Debug msg k =>
      match k with
      | Await (execa _ args) k' => announce args msg /\ announced announce k'
      | _ => announced announce k
      end
  | BluebirdMap asyncMapper calls =>
      (fix all (l : list Proc) : Prop :=
         match l with
         | [] => True
         | q :: l' =>
             match sync_throw asyncMapper q with
             | Some _ => True
             | None => announced announce q /\ all l'
             end
         end) calls
  end.

Fixpoint announced_all (announce : list string -> string -> Prop)
    (asyncMapper : bool) (calls : list Proc) : Prop :=
  match calls with
  | [] => True
  | q :: l' =>
      match sync_throw asyncMapper q with
      | Some _ => True
      | None => announced announce q /\ announced_all announce asyncMapper l'
      end
  end.

Definition task_announced (announce : list string -> string -> Prop) (task : Task)
  : Prop :=
  match task with
  | Awaiting _ k => announced announce k
  | Iterating asyncMapper calls => announced_all announce asyncMapper calls
  | Rejecting _ => True
  end.

(** In a trace, every execution of a program directly follows the message
    that announces it. *)
Definition trace_announced (announce : list string -> string -> Prop)
    (t : list Event) : Prop :=
  forall t1 file args t2,
    t = (t1 ++ Call (execa file args) :: t2)%list ->
    exists t0 msg, t1 = (t0 ++ [Logged msg])%list /\ announce args msg.

Definition announced_state (announce : list string -> string -> Prop) (s : State)
  : Prop :=
  trace_announced announce (trace s) /\
  forall task, In task (pending s) -> task_announced announce task.

(** How many times a trace shows a request that [f] selects made. *)
Definition calls_where (f : IO -> bool) (t : list Event) : nat :=
  length (filter (fun ev => match ev with Call io => f io | _ => false end) t).

(** How many requests that [f] selects the code in flight is still to make
    when nothing fails. *)
Definition pending_where (f : IO -> bool) (s : State) : nat :=
  list_sum (map (fun task => length (filter f (task_awaited task))) (pending s)).

(** ** Further readings of the staging operations *)

Section MoreRequests.

Context {path_module : PathModule}.
Variable platform : string.
Variable toCygwinPath : string -> string.
Variable getModuleKey : string -> option string -> string.
Variable this : BuildDir.

(** The module an operation stages. *)
Definition staged (op : Staging) : ModuleConfig :=
  match op with
  | StageSource module => module
  | StageDependencies module => module
  end.

(** Every copy spec of every dependency of the module has a relative
    [source] and a relative [target]. *)
Definition allRelative (module : ModuleConfig) : Prop :=
  forall d specs c,
    In d (dependencies module) -> copy d = Some specs -> In c specs ->
    hasAbsolutePath c = false.

(** No dependency of the module carries a copy list. *)
Definition copiesNothing (module : ModuleConfig) : Prop :=
  forall d, In d (dependencies module) -> copy d = None.

(** The rsync invocation of [syncDependencyProducts] for the copy spec [c] of
    the dependency [d]. *)
Definition copy_rsync (module : ModuleConfig) (d : BuildDependencyConfig)
    (c : FileCopySpec) : IO :=
  execa "rsync"
    (rsyncArgs platform toCygwinPath this
       (join [buildPathOf this (getModuleKey (dep_name d) (dep_plugin d)); source c])
       (join [buildPathOf this (name module); target c])
       false).

Definition never_throws (done : list IO) (ev : Event) : Prop :=
  forall e, ev <> Threw e.

(** A program is only executed, for a copy spec of a dependency, once
    [ensureDir] was fulfilled on the build path of the module and on that of
    the dependency. *)
Definition rsync_after_build_paths (module : ModuleConfig) (done : list IO)
    (ev : Event) : Prop :=
  forall file args,
    ev = Call (execa file args) ->
    In (ensureDir (buildPathOf this (name module))) done /\
    exists d specs c,
      In d (dependencies module) /\ copy d = Some specs /\ In c specs /\
      execa file args = copy_rsync module d c /\
      In (ensureDir (buildPathOf this (getModuleKey (dep_name d) (dep_plugin d)))) done.

(** The only request is [ensureDir] on [dir]. *)
Definition only_ensureDir (dir : string) (done : list IO) (ev : Event) : Prop :=
  forall io, ev = Call io -> io = ensureDir dir.

(** The message [sync] logs before it executes rsync with [args], for one of
    the calls [reqs] of [sync]. *)
Definition sync_announce (reqs : list SyncRequest) (args : list string) (msg : string)
  : Prop :=
  exists src dst wd,
    In (src, dst, wd) reqs /\
    args = rsyncArgs platform toCygwinPath this src dst wd /\
    msg = logMsg platform toCygwinPath this src dst wd.

(** The message of the [ConfigurationError] thrown for the copy spec [c]: the
    source is checked first. *)
Definition absolutePathMessage (c : FileCopySpec) : string :=
  if isAbsolute (source c)
  then "Source path in build dependency copy spec must be a relative path"
  else "Target path in build dependency copy spec must be a relative path".

(** An exception is the [ConfigurationError] for the first copy spec with an
    absolute path in the copy list of a dependency. *)
Definition throws_first_absolute (module : ModuleConfig) (done : list IO) (ev : Event)
  : Prop :=
  forall e,
    ev = Threw e ->
    exists d before c after,
      In d (dependencies module) /\
      copy d = Some (before ++ c :: after)%list /\
      (forall c', In c' before -> hasAbsolutePath c' = false) /\
      hasAbsolutePath c = true /\
      e = ConfigurationError (absolutePathMessage c) c.

(** What a staging operation asks of the host: rsync; [ensureDir] on the
    build path of the module, on that of a dependency with a copy list, or on
    the parent of the destination of a call of [sync]. *)
Definition staging_request (op : Staging) (io : IO) : Prop :=
  match io with
  | emptyDir _ => False
  | execa file _ => file = "rsync"
  | ensureDir dir =>
      dir = buildPathOf this (name (staged op)) \/
      (exists module d specs,
         op = StageDependencies module /\ In d (dependencies module) /\
         copy d = Some specs /\
         dir = buildPathOf this (getModuleKey (dep_name d) (dep_plugin d))) \/
      (exists src dst wd,
         In (src, dst, wd) (requests_of getModuleKey this op) /\ dir = parse_dir dst)
  end.

Definition staging_requests (op : Staging) (done : list IO) (ev : Event) : Prop :=
  forall io, ev = Call io -> staging_request op io.

(** The copy specs of all dependencies of the module. *)
Definition copySpecs (module : ModuleConfig) : list FileCopySpec :=
  flat_map (fun d => match copy d with Some specs => specs | None => [] end)
           (dependencies module).

(** The error is the [ConfigurationError] for the first copy spec with an
    absolute path in the copy list of a dependency of the module. *)
Definition first_absolute_error (module : ModuleConfig) (e : Error) : Prop :=
  exists d before c after,
    In d (dependencies module) /\
    copy d = Some (before ++ c :: after)%list /\
    (forall c', In c' before -> hasAbsolutePath c' = false) /\
    hasAbsolutePath c = true /\
    e = ConfigurationError (absolutePathMessage c) c.

(** The request is the rsync invocation for a copy spec of a dependency of
    the module that is relative, as are all copy specs before it in the copy
    list: a copy spec in front of the first absolute one. *)
Definition sync_in_front (module : ModuleConfig) (io : IO) : Prop :=
  exists d before c after,
    In d (dependencies module) /\
    copy d = Some (before ++ c :: after)%list /\
    (forall c', In c' (before ++ [c])%list -> hasAbsolutePath c' = false) /\
    io = copy_rsync module d c.

(** The rsync invocations for the copy specs in front of the first absolute
    one of their dependency, one for each such copy spec. *)
Definition syncs_in_front (module : ModuleConfig) : list IO :=
  flat_map (fun d => match copy d with
                     | None => []
                     | Some specs => map (copy_rsync module d) (beforeAbsolute specs)
                     end)
           (dependencies module).

End MoreRequests.

(** ** More of the sample project *)

(** [web] with an empty copy list for [base]. *)
Definition web_relative : ModuleConfig :=
  {| name := "web";
     path := "services/web";
     dependencies :=
       [ lib_dep;
         {| dep_name := "base"; dep_plugin := None; copy := Some [] |};
         assets_dep ] |}.

(** A module without build dependencies. *)
Definition standalone : ModuleConfig :=
  {| name := "api"; path := "services/api"; dependencies := [] |}.

(** [factory] on its own. *)
Definition sample_factory : Proc :=
  factory (path_module := sample_path) "/proj" "/proj/.garden" (fun _ => Ret).

(** The state [s] of code that ran after the events [t]. *)
Definition after (t : list Event) (s : State) : State :=
  {| trace := (t ++ trace s)%list; pending := pending s; rejection := rejection s |}.

(** The instance [factory] constructs. *)
Definition made_by_factory {path_module : PathModule} (projectRoot gardenDirPath : string)
  : BuildDir :=
  {| projectRoot := projectRoot;
     buildDirPath := join [gardenDirPath; "build"];
     buildMetadataDirPath := join [gardenDirPath; "build-metadata"] |}.

(** What [syncDependencyProducts] on [web] has done when it executes rsync
    for [lib], under [until_rsync_lib]. *)
Definition before_rsync_lib : list Event :=
  [Call (ensureDir "/proj/.garden/build/web");
   Fulfilled (ensureDir "/proj/.garden/build/web");
   Call (ensureDir "/proj/.garden/build/lib");
   Call (ensureDir "/proj/.garden/build/npm--assets");
   Fulfilled (ensureDir "/proj/.garden/build/lib");
   Call (ensureDir "/proj/.garden/build/web/vendor");
   Fulfilled (ensureDir "/proj/.garden/build/web/vendor");
   Logged "Syncing from .garden/build/lib/dist to .garden/build/web/vendor/lib"].

(** A module in the directory of the project, as in the comment on the
    exclude rule of [sync]. *)
Definition root_module : ModuleConfig :=
  {| name := "app"; path := "/proj"; dependencies := [] |}.

Definition rsync_root : list string :=
  ["-rptgo"; "--exclude=/proj/.garden/build"; "--delete";
   "/proj/"; "/proj/.garden/build/app"].

(** A file in the build path of [web] that the source of [web] does not
    have. *)
Definition stale_file : string :=
  "/proj/.garden/build/web/proj/.garden/build/stale.txt".
(** * Properties *)

(** ** The event loop *)

Lemma guarded_map Q done a calls :
  guarded Q done (BluebirdMap a calls) = guarded_all Q done a calls.
Proof.
  induction calls as [|q rest IH]; simpl; [reflexivity|].
  destruct (sync_throw a q); [reflexivity|]. simpl in IH. now rewrite IH.
Qed.

Lemma execa_budget_map a calls :
  execa_budget (BluebirdMap a calls) = execa_budget_all a calls.
Proof.
  induction calls as [|q rest IH]; simpl; [reflexivity|].
  destruct (sync_throw a q); [reflexivity|]. simpl in IH. now rewrite IH.
Qed.

Lemma run_snoc sched c p : run (sched ++ [c]) p = step (run sched p) c.
Proof. unfold run. now rewrite fold_left_app. Qed.

(** A property of the first turn that every later turn keeps holds of every
    execution. *)
Lemma run_invariant (I : State -> Prop) p :
  I (start p initial) ->
  (forall s c, I s -> I (step s c)) ->
  forall sched, I (run sched p).
Proof.
  intros H0 Hstep sched. induction sched as [|c sched IH] using rev_ind.
  - exact H0.
  - rewrite run_snoc. now apply Hstep.
Qed.

Lemma fulfilled_app t t' : fulfilled (t ++ t') = (fulfilled t ++ fulfilled t')%list.
Proof. unfold fulfilled. apply flat_map_app. Qed.

Lemma failures_app t t' : failures (t ++ t') = (failures t ++ failures t')%list.
Proof. unfold failures. apply flat_map_app. Qed.

Lemma execa_calls_app t t' : execa_calls (t ++ t') = execa_calls t + execa_calls t'.
Proof. unfold execa_calls. now rewrite filter_app, length_app. Qed.

Lemma execa_calls_snoc t ev :
  execa_calls (t ++ [ev]) =
  execa_calls t +
  match ev with Call io => if is_execa io then 1 else 0 | _ => 0 end.
Proof.
  rewrite execa_calls_app. f_equal. unfold execa_calls. simpl.
  destruct ev; try reflexivity. destruct (is_execa io); reflexivity.
Qed.

Lemma fulfilled_emitted evs : Forall emitted evs -> fulfilled evs = [].
Proof.
  induction 1 as [|ev evs Hev _ IH]; [reflexivity|].
  destruct ev; simpl in *; try contradiction; exact IH.
Qed.

Lemma In_fulfilled io t : In io (fulfilled t) <-> In (Fulfilled io) t.
Proof.
  unfold fulfilled. rewrite in_flat_map. split.
  - intros [ev [Hin Hio]]. destruct ev; simpl in Hio; try contradiction.
    destruct Hio as [<-|[]]. exact Hin.
  - intros Hin. exists (Fulfilled io). split; [exact Hin|now left].
Qed.

(** Starting code only appends: events of its own to the trace, tasks to
    those in flight; the promise of the operation is not touched. *)
Lemma start_shape p : forall s,
  exists evs tasks,
    trace (start p s) = (trace s ++ evs)%list /\
    pending (start p s) = (pending s ++ tasks)%list /\
    Forall emitted evs /\
    rejection (start p s) = rejection s.
Proof.
  induction p as [|e|io k _|msg k IH|a calls _] using Proc_induction; intros s.
  - exists [], []. simpl. rewrite !app_nil_r. auto.
  - exists [Threw e], [Rejecting e]. simpl. repeat split; auto. repeat constructor.
  - exists [Call io], [Awaiting io k]. simpl. repeat split; auto. repeat constructor.
  - simpl. destruct (IH (emit (Logged msg) s)) as (evs & tasks & Ht & Hp & Hev & Hr).
    exists (Logged msg :: evs), tasks. rewrite Ht, Hp, Hr. simpl.
    rewrite <- app_assoc. simpl. repeat split; auto. constructor; simpl; auto.
  - exists [], [Iterating a calls]. simpl. rewrite app_nil_r. auto.
Qed.

Lemma iterate_shape a calls : forall s,
  exists evs tasks,
    trace (iterate a calls s) = (trace s ++ evs)%list /\
    pending (iterate a calls s) = (pending s ++ tasks)%list /\
    Forall emitted evs /\
    rejection (iterate a calls s) = rejection s.
Proof.
  induction calls as [|q rest IH]; intros s; simpl.
  - exists [], []. rewrite !app_nil_r. auto.
  - destruct (sync_throw a q) as [e|].
    + exists [Threw e], [Rejecting e]. simpl. repeat split; auto. repeat constructor.
    + destruct (start_shape q s) as (evs1 & ts1 & Ht1 & Hp1 & Hev1 & Hr1).
      destruct (IH (start q s)) as (evs2 & ts2 & Ht2 & Hp2 & Hev2 & Hr2).
      exists (evs1 ++ evs2)%list, (ts1 ++ ts2)%list.
      rewrite Ht2, Hp2, Hr2, Ht1, Hp1, Hr1, <- !app_assoc. repeat split; auto.
      apply Forall_app. auto.
Qed.

Lemma start_fulfilled p s : fulfilled (trace (start p s)) = fulfilled (trace s).
Proof.
  destruct (start_shape p s) as (evs & ps & Ht & _ & Hev & _).
  rewrite Ht, fulfilled_app, (fulfilled_emitted Hev). apply app_nil_r.
Qed.

Lemma start_pending_incl p s x : In x (pending s) -> In x (pending (start p s)).
Proof.
  destruct (start_shape p s) as (evs & ps & _ & Hp & _). rewrite Hp.
  intros H. apply in_or_app. now left.
Qed.

Lemma iterate_pending_incl a calls s x :
  In x (pending s) -> In x (pending (iterate a calls s)).
Proof.
  destruct (iterate_shape a calls s) as (evs & ps & _ & Hp & _). rewrite Hp.
  intros H. apply in_or_app. now left.
Qed.

Lemma In_remove_nth {A : Type} (x : A) n l : In x (remove_nth n l) -> In x l.
Proof.
  revert n; induction l as [|y l IH]; intros n; destruct n; simpl; auto.
  intros [H|H]; eauto.
Qed.

Lemma remove_nth_other {A : Type} (x y : A) n l :
  nth_error l n = Some y -> In x l -> x = y \/ In x (remove_nth n l).
Proof.
  revert n; induction l as [|z l IH]; intros n Hn Hin; [destruct Hin|].
  destruct n; simpl in *.
  - inversion Hn; subst. destruct Hin; auto.
  - destruct Hin as [->|Hin]; [right; now left|].
    destruct (IH _ Hn Hin); auto.
Qed.

(** What precedes an event of a trace extended by one. *)
Lemma snoc_split {A : Type} (t : list A) x t1 y t2 :
  (t ++ [x] = t1 ++ y :: t2)%list ->
  (t2 = [] /\ t = t1 /\ x = y) \/
  (exists t2', t2 = (t2' ++ [x])%list /\ t = (t1 ++ y :: t2')%list).
Proof.
  intros H. destruct t2 as [|z t2] using rev_ind.
  - left. apply app_inj_tail in H. tauto.
  - right. clear IHt2. exists t2.
    change (t1 ++ y :: t2 ++ [z])%list with (t1 ++ (y :: t2) ++ [z])%list in H.
    rewrite app_assoc in H. apply app_inj_tail in H. destruct H as [-> ->].
    split; reflexivity.
Qed.

(** The trace only grows. *)
Lemma step_trace s c : exists evs, trace (step s c) = (trace s ++ evs)%list.
Proof.
  unfold step. destruct (nth_error (pending s) (idx c)) as [[io k|a calls|e]|].
  - destruct (ok c).
    + match goal with |- context [start k ?s0] =>
        destruct (start_shape k s0) as (evs & ps & Ht & _) end.
      rewrite Ht. simpl. rewrite <- app_assoc. eauto.
    + simpl. eauto.
  - match goal with |- context [iterate a calls ?s0] =>
      destruct (iterate_shape a calls s0) as (evs & ps & Ht & _) end.
    rewrite Ht. simpl. eauto.
  - exists []. simpl. now rewrite app_nil_r.
  - exists []. now rewrite app_nil_r.
Qed.

Lemma run_trace p sched :
  exists evs, trace (run sched p) = (trace (start p initial) ++ evs)%list.
Proof.
  apply run_invariant
    with (I := fun s => exists evs, trace s = (trace (start p initial) ++ evs)%list).
  - exists []. now rewrite app_nil_r.
  - intros s c [evs Hs]. destruct (step_trace s c) as [evs' Hc].
    rewrite Hc, Hs, <- app_assoc. eauto.
Qed.

Lemma execa_budget_Await io k :
  execa_budget (Await io k) = (if is_execa io then 1 else 0) + execa_budget k.
Proof. reflexivity. Qed.

Lemma doomed_Await io k : doomed k -> doomed (Await io k).
Proof. intros H. exact H. Qed.

Lemma doomed_map a calls : Exists doomed calls -> doomed (BluebirdMap a calls).
Proof.
  induction 1 as [q rest Hq|q rest _ IH]; simpl.
  - now left.
  - right. exact IH.
Qed.

Lemma iterate_skips_Ret a before after s :
  iterate a (before ++ Ret :: after) s = iterate a (before ++ after) s.
Proof.
  revert s. induction before as [|q rest IH]; intros s; simpl.
  - now destruct a.
  - destruct (sync_throw a q); [reflexivity|]. apply IH.
Qed.

(** Two operations that await the same request and then map mappers that
    iterate alike run alike. *)
Lemma run_same_iteration io a calls1 calls2 sched :
  (forall st, iterate a calls1 st = iterate a calls2 st) ->
  trace (run sched (Await io (BluebirdMap a calls1)))
  = trace (run sched (Await io (BluebirdMap a calls2))) /\
  outcome (run sched (Await io (BluebirdMap a calls1)))
  = outcome (run sched (Await io (BluebirdMap a calls2))).
Proof.
  intros Hk. unfold run. simpl start.
  set (s1 := suspend (Awaiting io (BluebirdMap a calls1)) (emit (Call io) initial)).
  set (s2 := suspend (Awaiting io (BluebirdMap a calls2)) (emit (Call io) initial)).
  set (t := {| trace := [Call io; Fulfilled io]; pending := []; rejection := None |}).
  assert (H : forall x1 x2,
             x1 = x2 \/ (x1 = s1 /\ x2 = s2) \/
             (x1 = suspend (Iterating a calls1) t /\ x2 = suspend (Iterating a calls2) t) ->
             trace (fold_left step sched x1) = trace (fold_left step sched x2) /\
             outcome (fold_left step sched x1) = outcome (fold_left step sched x2)).
  { induction sched as [|c rest IH]; intros x1 x2 Hx.
    - destruct Hx as [->|[[-> ->]|[-> ->]]]; split; reflexivity.
    - simpl fold_left. apply IH.
      destruct Hx as [->|[[-> ->]|[-> ->]]]; [now left| |].
      + unfold step. destruct (idx c) as [|n]; simpl.
        * destruct (ok c); [right; right; split; reflexivity|now left].
        * destruct n; simpl; right; left; split; reflexivity.
      + unfold step. destruct (idx c) as [|n]; simpl.
        * left. apply Hk.
        * destruct n; simpl; right; right; split; reflexivity. }
  apply H. right. left. split; reflexivity.
Qed.

(** ** Events are produced as the code says *)

Section GuardedExecution.

Variable Q : list IO -> Event -> Prop.
Hypothesis Q_mono : forall d d' ev, incl d d' -> Q d ev -> Q d' ev.

Lemma trace_ok_snoc t ev :
  trace_ok Q t -> (emitted ev -> Q (fulfilled t) ev) -> trace_ok Q (t ++ [ev]).
Proof.
  intros Ht Hev t1 ev' t2 Heq Hem.
  apply snoc_split in Heq. destruct Heq as [(_ & -> & ->)|(t2' & _ & ->)].
  - auto.
  - eapply Ht; eauto.
Qed.

Lemma pending_ok_emit ev s : pending_ok Q s -> pending_ok Q (emit ev s).
Proof.
  intros H task Hin. destruct (H task Hin) as (done & Hincl & Hg).
  exists done. split; [|exact Hg]. simpl. rewrite fulfilled_app.
  apply incl_appl. exact Hincl.
Qed.

Lemma pending_ok_suspend task done s :
  incl done (fulfilled (trace s)) -> task_guarded Q done task ->
  pending_ok Q s -> pending_ok Q (suspend task s).
Proof.
  intros Hincl Hg Hp task' Hin. simpl in Hin. apply in_app_or in Hin.
  destruct Hin as [Hin|[<-|[]]]; [now apply Hp|].
  exists done. split; assumption.
Qed.

Lemma throw_guarded e done s :
  Q done (Threw e) -> incl done (fulfilled (trace s)) ->
  trace_ok Q (trace s) -> pending_ok Q s ->
  trace_ok Q (trace (throw e s)) /\ pending_ok Q (throw e s).
Proof.
  intros HQ Hincl Ht Hp. unfold throw. split.
  - simpl. apply trace_ok_snoc; eauto.
  - apply pending_ok_suspend with (done := []); [intros x []|exact I|].
    now apply pending_ok_emit.
Qed.

Lemma start_guarded p : forall s done,
  guarded Q done p -> incl done (fulfilled (trace s)) ->
  trace_ok Q (trace s) -> pending_ok Q s ->
  trace_ok Q (trace (start p s)) /\ pending_ok Q (start p s).
Proof.
  induction p as [|e|io k _|msg k IH|a calls _] using Proc_induction;
    intros s done Hg Hincl Ht Hp.
  - auto.
  - now apply throw_guarded with (done := done).
  - simpl in *. destruct Hg as [HQ Hg]. split.
    + apply trace_ok_snoc; eauto.
    + apply pending_ok_suspend with (done := done).
      * simpl. rewrite fulfilled_app. apply incl_appl. exact Hincl.
      * exact Hg.
      * now apply pending_ok_emit.
  - simpl in *. destruct Hg as [HQ Hg]. apply IH with (done := done); auto.
    + simpl. rewrite fulfilled_app. apply incl_appl. exact Hincl.
    + simpl. apply trace_ok_snoc; eauto.
    + apply pending_ok_emit. exact Hp.
  - rewrite guarded_map in Hg. split; [exact Ht|].
    now apply pending_ok_suspend with (done := done).
Qed.

Lemma iterate_guarded a calls : forall s done,
  guarded_all Q done a calls -> incl done (fulfilled (trace s)) ->
  trace_ok Q (trace s) -> pending_ok Q s ->
  trace_ok Q (trace (iterate a calls s)) /\ pending_ok Q (iterate a calls s).
Proof.
  induction calls as [|q rest IH]; intros s done Hg Hincl Ht Hp; simpl in *.
  - auto.
  - destruct (sync_throw a q) as [e|].
    + now apply throw_guarded with (done := done).
    + destruct Hg as [Hgq Hgrest].
      destruct (@start_guarded q s done Hgq Hincl Ht Hp) as [Ht' Hp'].
      apply IH with (done := done); auto. now rewrite start_fulfilled.
Qed.

Lemma step_guarded s c :
  trace_ok Q (trace s) /\ pending_ok Q s ->
  trace_ok Q (trace (step s c)) /\ pending_ok Q (step s c).
Proof.
  intros [Ht Hp]. unfold step.
  destruct (nth_error (pending s) (idx c)) as [task|] eqn:Hnth; [|auto].
  assert (Hin : In task (pending s)) by (eapply nth_error_In; eauto).
  destruct (Hp task Hin) as (done & Hincl & Hg).
  set (s' := {| trace := trace s; pending := remove_nth (idx c) (pending s);
                rejection := rejection s |}).
  assert (Hp' : pending_ok Q s').
  { intros task' Hin'. simpl in Hin'. apply In_remove_nth in Hin'.
    exact (Hp task' Hin'). }
  destruct task as [io k|a calls|e]; simpl in Hg.
  - destruct (ok c).
    + apply start_guarded with (done := io :: done).
      * exact Hg.
      * simpl. rewrite fulfilled_app. simpl. intros x [<-|Hx].
        -- apply in_or_app. right. now left.
        -- apply in_or_app. left. auto.
      * simpl. apply trace_ok_snoc; [exact Ht|]. simpl. contradiction.
      * now apply pending_ok_emit.
    + split.
      * simpl. apply trace_ok_snoc; [exact Ht|]. simpl. contradiction.
      * apply pending_ok_suspend with (done := []); [intros x []|exact I|].
        now apply pending_ok_emit.
  - now apply iterate_guarded with (done := done).
  - split; [exact Ht|]. exact Hp'.
Qed.

(** In every execution of guarded code, every event the code produces
    satisfies [Q] of the requests fulfilled before it. *)
Lemma guarded_run p sched :
  guarded Q [] p ->
  forall t1 ev t2,
    trace (run sched p) = (t1 ++ ev :: t2)%list -> emitted ev ->
    Q (fulfilled t1) ev.
Proof.
  intros Hg.
  assert (H : trace_ok Q (trace (run sched p)) /\ pending_ok Q (run sched p)).
  { apply run_invariant with (I := fun s => trace_ok Q (trace s) /\ pending_ok Q s).
    - apply start_guarded with (done := []).
      + exact Hg.
      + intros x [].
      + intros t1 ev t2 Heq. destruct t1; discriminate.
      + intros task [].
    - intros s c. apply step_guarded. }
  destruct H as [Ht _]. exact Ht.
Qed.

End GuardedExecution.

(** ** Failures surface *)

Lemma failures_surface_emit ev s :
  failures [ev] = [] -> failures_surface s -> failures_surface (emit ev s).
Proof.
  intros Hev (H1 & H2 & H3). unfold failures_surface. simpl.
  rewrite failures_app, Hev, app_nil_r. auto.
Qed.

Lemma failures_surface_suspend task s :
  (forall e, task = Rejecting e -> In e (failures (trace s))) ->
  failures_surface s -> failures_surface (suspend task s).
Proof.
  intros Htask (H1 & H2 & H3). unfold failures_surface. simpl. repeat split.
  - exact H1.
  - intros e Hin. apply in_app_or in Hin. destruct Hin as [Hin|[Heq|[]]]; auto.
  - intros Hne. destruct (H3 Hne) as [H|[e He]]; [now left|].
    right. exists e. apply in_or_app. now left.
Qed.

(** A failure [e] shown by the event [ev], with its rejection set off. *)
Lemma failures_surface_fail ev e s :
  failures [ev] = [e] ->
  failures_surface s -> failures_surface (suspend (Rejecting e) (emit ev s)).
Proof.
  intros Hev (H1 & H2 & H3). unfold failures_surface. simpl.
  rewrite failures_app, Hev. repeat split.
  - intros e' He'. apply in_or_app. left. auto.
  - intros e' Hin. apply in_app_or in Hin. apply in_or_app.
    destruct Hin as [Hin|[Heq|[]]]; [left; auto|].
    inversion Heq; subst. right. now left.
  - intros _. right. exists e. apply in_or_app. right. now left.
Qed.

Lemma start_failures_surface p : forall s,
  failures_surface s -> failures_surface (start p s).
Proof.
  induction p as [|e|io k _|msg k IH|a calls _] using Proc_induction; intros s Hs.
  - exact Hs.
  - now apply (failures_surface_fail (Threw e)).
  - simpl. apply failures_surface_suspend; [discriminate|].
    now apply failures_surface_emit.
  - simpl. apply IH. now apply failures_surface_emit.
  - simpl. apply failures_surface_suspend; [discriminate|exact Hs].
Qed.

Lemma iterate_failures_surface a calls : forall s,
  failures_surface s -> failures_surface (iterate a calls s).
Proof.
  induction calls as [|q rest IH]; intros s Hs; simpl; [exact Hs|].
  destruct (sync_throw a q) as [e|].
  - now apply (failures_surface_fail (Threw e)).
  - apply IH. now apply start_failures_surface.
Qed.

Lemma failures_surface_remove s n task :
  nth_error (pending s) n = Some task ->
  (forall e, task <> Rejecting e) ->
  failures_surface s ->
  failures_surface {| trace := trace s; pending := remove_nth n (pending s);
                      rejection := rejection s |}.
Proof.
  intros Hnth Htask (H1 & H2 & H3). unfold failures_surface. simpl. repeat split.
  - exact H1.
  - intros e Hin. apply H2. now apply In_remove_nth in Hin.
  - intros Hne. destruct (H3 Hne) as [H|[e He]]; [now left|].
    right. exists e.
    destruct (remove_nth_other _ _ _ Hnth He) as [Heq|Hin]; [|exact Hin].
    now destruct (Htask e).
Qed.

Lemma step_failures_surface s c : failures_surface s -> failures_surface (step s c).
Proof.
  intros Hs. unfold step.
  destruct (nth_error (pending s) (idx c)) as [[io k|a calls|e]|] eqn:Hnth;
    [| | |exact Hs].
  - apply (@failures_surface_remove s (idx c) _ Hnth) in Hs; [|discriminate].
    destruct (ok c).
    + apply start_failures_surface. now apply failures_surface_emit.
    + now apply (failures_surface_fail (Rejected io)).
  - apply (@failures_surface_remove s (idx c) _ Hnth) in Hs; [|discriminate].
    now apply iterate_failures_surface.
  - destruct Hs as (H1 & H2 & H3). unfold failures_surface. simpl. repeat split.
    + intros e' He'. destruct (rejection s) as [e0|]; inversion He'; subst.
      * now apply H1.
      * apply H2. eapply nth_error_In; eauto.
    + intros e' Hin. apply H2. now apply In_remove_nth in Hin.
    + intros _. left. destruct (rejection s); discriminate.
Qed.

(** In every execution the promise rejects with a failure of the run, and
    when something has failed the promise is rejected or about to be. *)
Lemma failures_surface_run p sched : failures_surface (run sched p).
Proof.
  apply run_invariant with (I := failures_surface).
  - apply start_failures_surface. repeat split; try discriminate.
    + intros e [].
    + intros H. now destruct H.
  - apply step_failures_surface.
Qed.

Lemma In_failures_Rejected io t : In (Rejected io) t -> In (IOError io) (failures t).
Proof.
  intros H. unfold failures. apply in_flat_map. exists (Rejected io).
  split; [exact H|now left].
Qed.

Lemma In_failures e t :
  In e (failures t) -> In (Threw e) t \/ exists io, e = IOError io /\ In (Rejected io) t.
Proof.
  unfold failures. rewrite in_flat_map. intros [ev [Hin He]].
  destruct ev; simpl in He; try contradiction.
  - destruct He as [<-|[]]. right. eauto.
  - destruct He as [<-|[]]. now left.
Qed.

(** Once nothing is in flight, the promise is fulfilled exactly when nothing
    has failed. *)
Lemma settled_outcome p sched :
  pending (run sched p) = [] ->
  (failures (trace (run sched p)) = [] /\ outcome (run sched p) = Resolved) \/
  (exists e, In e (failures (trace (run sched p))) /\
             outcome (run sched p) = RejectedWith e).
Proof.
  intros Hp. destruct (failures_surface_run p sched) as (H1 & _ & H3).
  unfold outcome. rewrite Hp in *.
  destruct (rejection (run sched p)) as [e|] eqn:Hr.
  - right. exists e. auto.
  - left. split; [|reflexivity].
    destruct (failures (trace (run sched p))) as [|x l]; [reflexivity|].
    destruct H3 as [H|[e' []]]; [discriminate|congruence].
Qed.

(** ** Code bound to throw never fulfils *)

Lemma will_reject_more s s' :
  rejection s' = rejection s ->
  (forall task, In task (pending s) -> In task (pending s')) ->
  will_reject s -> will_reject s'.
Proof.
  intros Hr Hp [H|(task & Hin & Hd)].
  - left. now rewrite Hr.
  - right. exists task. auto.
Qed.

Lemma start_keeps_will_reject p s : will_reject s -> will_reject (start p s).
Proof.
  apply will_reject_more.
  - destruct (start_shape p s) as (_ & _ & _ & _ & _ & Hr). exact Hr.
  - intros task. apply start_pending_incl.
Qed.

Lemma iterate_keeps_will_reject a calls s :
  will_reject s -> will_reject (iterate a calls s).
Proof.
  apply will_reject_more.
  - destruct (iterate_shape a calls s) as (_ & _ & _ & _ & _ & Hr). exact Hr.
  - intros task. apply iterate_pending_incl.
Qed.

Lemma will_reject_suspend task s : task_doomed task -> will_reject (suspend task s).
Proof.
  intros Hd. right. exists task. split; [|exact Hd].
  simpl. apply in_or_app. right. now left.
Qed.

Lemma start_doomed p : forall s, doomed p -> will_reject (start p s).
Proof.
  induction p as [|e|io k _|msg k IH|a calls _] using Proc_induction; intros s Hd.
  - destruct Hd.
  - now apply will_reject_suspend.
  - now apply will_reject_suspend.
  - simpl. now apply IH.
  - now apply will_reject_suspend.
Qed.

Lemma iterate_doomed a calls : forall s,
  doomed (BluebirdMap a calls) -> will_reject (iterate a calls s).
Proof.
  induction calls as [|q rest IH]; intros s Hd; simpl in *; [destruct Hd|].
  destruct (sync_throw a q) as [e|]; [now apply will_reject_suspend|].
  destruct Hd as [Hd|Hd].
  - apply iterate_keeps_will_reject. now apply start_doomed.
  - now apply IH.
Qed.

Lemma step_will_reject s c : will_reject s -> will_reject (step s c).
Proof.
  intros Hs. unfold step.
  destruct (nth_error (pending s) (idx c)) as [task|] eqn:Hnth; [|exact Hs].
  set (s' := {| trace := trace s; pending := remove_nth (idx c) (pending s);
                rejection := rejection s |}).
  assert (Hcase : task_doomed task \/ will_reject s').
  { destruct Hs as [H|(task' & Hin & Hd)]; [right; now left|].
    destruct (remove_nth_other _ _ _ Hnth Hin) as [->|Hin']; [now left|].
    right. right. exists task'. auto. }
  destruct task as [io k|a calls|e].
  - destruct (ok c).
    + destruct Hcase as [Hd|Hw].
      * now apply start_doomed.
      * apply start_keeps_will_reject.
        revert Hw. apply will_reject_more; [reflexivity|]. simpl. auto.
    + now apply will_reject_suspend.
  - destruct Hcase as [Hd|Hw].
    + now apply iterate_doomed.
    + now apply iterate_keeps_will_reject.
  - left. simpl. destruct (rejection s); discriminate.
Qed.

(** Code bound to throw is, in every execution, rejected or still running. *)
Lemma doomed_run p sched : doomed p -> outcome (run sched p) <> Resolved.
Proof.
  intros Hd.
  assert (H : will_reject (run sched p)).
  { apply run_invariant with (I := will_reject).
    - now apply start_doomed.
    - apply step_will_reject. }
  unfold outcome. destruct H as [H|(task & Hin & _)].
  - destruct (rejection (run sched p)); congruence.
  - destruct (rejection (run sched p)); [discriminate|].
    destruct (pending (run sched p)); [destruct Hin|discriminate].
Qed.

(** ** No more programs are executed than the code provides for *)

Lemma pending_budget_remove s n task :
  nth_error (pending s) n = Some task ->
  pending_budget s =
  task_budget task +
  pending_budget {| trace := trace s; pending := remove_nth n (pending s);
                    rejection := rejection s |}.
Proof.
  unfold pending_budget. simpl. generalize (pending s). clear s.
  intros l. revert n. induction l as [|x l IH]; intros n Hn.
  - destruct n; discriminate.
  - destruct n; simpl in *.
    + inversion Hn; subst. reflexivity.
    + rewrite (IH _ Hn). lia.
Qed.

Lemma pending_budget_suspend task s :
  pending_budget (suspend task s) = pending_budget s + task_budget task.
Proof. unfold pending_budget. simpl. rewrite map_app, list_sum_app. simpl. lia. Qed.

Lemma start_budget p : forall s,
  execa_calls (trace (start p s)) + pending_budget (start p s) =
  execa_calls (trace s) + pending_budget s + execa_budget p.
Proof.
  induction p as [|e|io k _|msg k IH|a calls _] using Proc_induction; intros s.
  - simpl. lia.
  - unfold start, throw. rewrite pending_budget_suspend. simpl.
    rewrite execa_calls_snoc. unfold pending_budget. simpl. lia.
  - unfold start. rewrite pending_budget_suspend, execa_budget_Await. simpl.
    rewrite execa_calls_snoc. unfold pending_budget. simpl. lia.
  - simpl. rewrite IH. simpl. rewrite execa_calls_snoc.
    unfold pending_budget. simpl. lia.
  - unfold start. rewrite pending_budget_suspend, execa_budget_map. simpl. lia.
Qed.

Lemma iterate_budget a calls : forall s,
  execa_calls (trace (iterate a calls s)) + pending_budget (iterate a calls s) =
  execa_calls (trace s) + pending_budget s + execa_budget_all a calls.
Proof.
  induction calls as [|q rest IH]; intros s; simpl; [lia|].
  destruct (sync_throw a q) as [e|].
  - unfold throw. rewrite pending_budget_suspend. simpl.
    rewrite execa_calls_snoc. unfold pending_budget. simpl. lia.
  - rewrite IH, start_budget. lia.
Qed.

(** In every execution, the programs executed so far and those the code in
    flight may still execute stay within the budget of the code. *)
Lemma budget_run p sched :
  execa_calls (trace (run sched p)) + pending_budget (run sched p) <= execa_budget p.
Proof.
  apply run_invariant
    with (I := fun s => execa_calls (trace s) + pending_budget s <= execa_budget p).
  - rewrite start_budget. unfold pending_budget, execa_calls. simpl. lia.
  - intros s c Hs. unfold step.
    destruct (nth_error (pending s) (idx c)) as [[io k|a calls|e]|] eqn:Hnth;
      [| | |exact Hs];
      rewrite (pending_budget_remove _ _ Hnth) in Hs; simpl task_budget in Hs.
    + destruct (ok c).
      * rewrite start_budget. simpl. rewrite execa_calls_snoc.
        unfold pending_budget in *. simpl in *. lia.
      * rewrite pending_budget_suspend. simpl. rewrite execa_calls_snoc.
        unfold pending_budget in *. simpl in *. lia.
    + rewrite iterate_budget. unfold pending_budget in *. simpl in *. lia.
    + unfold pending_budget in *. simpl in *. lia.
Qed.

(** ** Linear code follows its script *)

Lemma start_linear full p : forall s,
  linear p -> pending s = [] -> rejection s = None -> failures (trace s) = [] ->
  (trace s ++ full_trace p)%list = full ->
  on_script full (start p s).
Proof.
  induction p as [|e|io k _|msg k IH|a calls _] using Proc_induction;
    intros s Hl Hp Hr Hf Hfull; simpl in *.
  - left. rewrite app_nil_r in Hfull. auto.
  - right. right. exists e. simpl. rewrite Hp, failures_app, Hf. auto.
  - right. left. exists io, k. simpl. rewrite Hp, failures_app, Hf. simpl.
    repeat split; auto. rewrite <- app_assoc. exact Hfull.
  - apply IH; auto.
    + simpl. rewrite failures_app, Hf. reflexivity.
    + simpl. rewrite <- app_assoc. exact Hfull.
  - contradiction.
Qed.

Lemma step_linear full s c : on_script full s -> on_script full (step s c).
Proof.
  intros Hs. unfold step.
  destruct (nth_error (pending s) (idx c)) as [task|] eqn:Hnth; [|exact Hs].
  destruct Hs as [(Hp & _)|[(io & k & Hp & Hl & Hr & Hf & Hfull)|(e & Hp & Hr & Hf)]].
  - rewrite Hp in Hnth. destruct (idx c); discriminate.
  - rewrite Hp in *. destruct (idx c) as [|n]; simpl in Hnth.
    + inversion Hnth; subst. destruct (ok c).
      * apply start_linear; simpl; auto.
        -- rewrite failures_app, Hf. reflexivity.
        -- rewrite <- app_assoc. reflexivity.
      * right. right. exists (IOError io). simpl. rewrite failures_app, Hf. auto.
    + destruct n; discriminate.
  - rewrite Hp in *. destruct (idx c) as [|n]; simpl in Hnth.
    + inversion Hnth; subst. left. simpl. rewrite Hr. split; [reflexivity|].
      right. exists e. auto.
    + destruct n; discriminate.
Qed.

(** Every execution of linear code is at a point of its script; at most one
    thing fails. *)
Lemma linear_run p sched : linear p -> on_script (full_trace p) (run sched p).
Proof.
  intros Hl. apply run_invariant with (I := on_script (full_trace p)).
  - now apply start_linear.
  - apply step_linear.
Qed.


(** ** Every operation settles *)

Lemma turns_map a calls :
  turns (BluebirdMap a calls) = 1 + list_sum (map turns calls).
Proof.
  simpl. f_equal. induction calls as [|q rest IH]; simpl; [reflexivity|].
  now rewrite IH.
Qed.

Lemma pending_turns_remove s n task :
  nth_error (pending s) n = Some task ->
  pending_turns s =
  task_turns task +
  pending_turns {| trace := trace s; pending := remove_nth n (pending s);
                   rejection := rejection s |}.
Proof.
  unfold pending_turns. simpl. generalize (pending s). clear s.
  intros l. revert n. induction l as [|x l IH]; intros n Hn.
  - destruct n; discriminate.
  - destruct n; simpl in *.
    + inversion Hn; subst. reflexivity.
    + rewrite (IH _ Hn). lia.
Qed.

Lemma pending_turns_suspend task s :
  pending_turns (suspend task s) = pending_turns s + task_turns task.
Proof. unfold pending_turns. simpl. rewrite map_app, list_sum_app. simpl. lia. Qed.

Lemma start_turns p : forall s, pending_turns (start p s) <= pending_turns s + turns p.
Proof.
  induction p as [|e|io k _|msg k IH|a calls _] using Proc_induction; intros s.
  - simpl. lia.
  - unfold start, throw. rewrite pending_turns_suspend. unfold pending_turns. simpl. lia.
  - unfold start. rewrite pending_turns_suspend. unfold pending_turns. simpl. lia.
  - simpl. rewrite IH. unfold pending_turns. simpl. lia.
  - unfold start. rewrite pending_turns_suspend. unfold task_turns. lia.
Qed.

Lemma iterate_turns a calls : forall s,
  pending_turns (iterate a calls s) + 1 <= pending_turns s + turns (BluebirdMap a calls).
Proof.
  rewrite turns_map.
  induction calls as [|q rest IH]; intros s; simpl; [lia|].
  destruct (sync_throw a q) as [e|] eqn:Hq.
  - unfold throw. rewrite pending_turns_suspend.
    destruct q; try discriminate. unfold pending_turns. simpl. lia.
  - pose proof (IH (start q s)) as H1. pose proof (start_turns q s) as H2. lia.
Qed.

(** A turn on a task in flight brings the end nearer. *)
Lemma step_turns s c task :
  nth_error (pending s) (idx c) = Some task ->
  pending_turns (step s c) < pending_turns s.
Proof.
  intros Hnth. unfold step. rewrite Hnth.
  rewrite (pending_turns_remove _ _ Hnth).
  set (s' := {| trace := trace s; pending := remove_nth (idx c) (pending s);
                rejection := rejection s |}).
  destruct task as [io k|a calls|e].
  - destruct (ok c).
    + pose proof (start_turns k (emit (Fulfilled io) s')) as H.
      unfold pending_turns in *. simpl in *. lia.
    + rewrite pending_turns_suspend. unfold pending_turns. simpl. lia.
  - pose proof (iterate_turns a calls s') as H. unfold task_turns. lia.
  - unfold pending_turns. simpl. lia.
Qed.

Lemma step_turns_le s c : pending_turns (step s c) <= pending_turns s.
Proof.
  destruct (nth_error (pending s) (idx c)) as [task|] eqn:Hnth.
  - pose proof (step_turns _ _ Hnth). lia.
  - unfold step. rewrite Hnth. lia.
Qed.

Lemma turns_run p sched : pending_turns (run sched p) <= turns p.
Proof.
  apply run_invariant with (I := fun s => pending_turns s <= turns p).
  - pose proof (start_turns p initial) as H. unfold pending_turns in *. simpl in *. lia.
  - intros s c Hs. pose proof (step_turns_le s c). lia.
Qed.

Lemma task_turns_pos task : 0 < task_turns task.
Proof. destruct task; simpl; lia. Qed.

Lemma fulfil_all_settles n : forall s,
  pending_turns s <= n -> pending (fold_left step (fulfil_all n) s) = [].
Proof.
  induction n as [|n IH]; intros s Hs.
  - simpl. destruct (pending s) as [|task rest] eqn:Hp; [reflexivity|].
    pose proof (task_turns_pos task). unfold pending_turns in Hs.
    rewrite Hp in Hs. simpl in Hs. lia.
  - simpl. apply IH.
    destruct (pending s) as [|task rest] eqn:Hp.
    + unfold step. rewrite Hp. simpl. unfold pending_turns. rewrite Hp. simpl. lia.
    + assert (Hnth : nth_error (pending s) (idx (fulfil 0)) = Some task)
        by (rewrite Hp; reflexivity).
      pose proof (step_turns _ _ Hnth). lia.
Qed.

(** Whatever has happened, when the host fulfils what is asked from then on,
    nothing is in flight after [turns p] more turns. *)
Lemma run_settles p sched : pending (run (sched ++ fulfil_all (turns p)) p) = [].
Proof.
  unfold run. rewrite fold_left_app. apply fulfil_all_settles. apply turns_run.
Qed.

Lemma run_app sched more p : run (sched ++ more) p = fold_left step more (run sched p).
Proof. unfold run. apply fold_left_app. Qed.

(** What a trace shows stays. *)
Lemma trace_grows more : forall s ev,
  In ev (trace s) -> In ev (trace (fold_left step more s)).
Proof.
  induction more as [|c more IH]; intros s ev Hin; [exact Hin|].
  simpl. apply IH. destruct (step_trace s c) as [evs Hc]. rewrite Hc.
  apply in_or_app. now left.
Qed.

Lemma emitted_not_Rejected evs io : Forall emitted evs -> ~ In (Rejected io) evs.
Proof.
  intros Hev Hin. rewrite Forall_forall in Hev. exact (Hev _ Hin).
Qed.

(** The host rejects nothing in a turn with [ok]. *)
Lemma step_ok_Rejected s c io :
  ok c = true -> In (Rejected io) (trace (step s c)) -> In (Rejected io) (trace s).
Proof.
  intros Hok. unfold step.
  destruct (nth_error (pending s) (idx c)) as [[io' k|a calls|e]|]; auto.
  - rewrite Hok.
    match goal with |- context [start k ?s0] =>
      destruct (start_shape k s0) as (evs & ps & Ht & _ & Hev & _) end.
    rewrite Ht. simpl. rewrite !in_app_iff. intros [[H|[H|[]]]|H]; auto.
    + discriminate.
    + destruct (emitted_not_Rejected _ Hev H).
  - match goal with |- context [iterate a calls ?s0] =>
      destruct (iterate_shape a calls s0) as (evs & ps & Ht & _ & Hev & _) end.
    rewrite Ht. simpl. rewrite in_app_iff. intros [H|H]; auto.
    destruct (emitted_not_Rejected _ Hev H).
Qed.

Lemma fulfil_all_Rejected n io : forall s,
  In (Rejected io) (trace (fold_left step (fulfil_all n) s)) -> In (Rejected io) (trace s).
Proof.
  induction n as [|n IH]; intros s Hin; [exact Hin|].
  simpl in Hin. apply IH in Hin. now apply step_ok_Rejected in Hin.
Qed.
(** ** POSIX paths *)

Section PosixPaths.

Import Posix.

Lemma split_slash_nonempty s : split_slash s <> [].
Proof.
  destruct s as [|c s]; simpl; [discriminate|].
  destruct (Ascii.eqb c "/"); [discriminate|].
  destruct (split_slash s); discriminate.
Qed.

Lemma split_slash_app a b :
  split_slash (a ++ String "/" b) = (split_slash a ++ split_slash b)%list.
Proof.
  induction a as [|c a IH]; simpl; [reflexivity|].
  destruct (Ascii.eqb c "/").
  - now rewrite IH.
  - rewrite IH.
    destruct (split_slash a) as [|seg segs] eqn:Ha; [|reflexivity].
    now destruct (split_slash_nonempty a).
Qed.

Lemma split_slash_plain s : has_slash s = false -> split_slash s = [s].
Proof.
  induction s as [|c s IH]; simpl; [reflexivity|].
  destruct (Ascii.eqb c "/"); simpl; [discriminate|].
  intros H. now rewrite (IH H).
Qed.

Lemma split_slash_no_slash s : Forall (fun seg => has_slash seg = false) (split_slash s).
Proof.
  induction s as [|c s IH]; simpl; [repeat constructor|].
  destruct (Ascii.eqb c "/") eqn:Hc; [constructor; auto|].
  destruct (split_slash s) as [|seg segs]; [repeat constructor; simpl; now rewrite Hc|].
  inversion IH; subst. constructor; [|assumption]. simpl. now rewrite Hc.
Qed.

Lemma split_join segs :
  segs <> [] -> Forall (fun seg => has_slash seg = false) segs ->
  split_slash (join_slash segs) = segs.
Proof.
  induction segs as [|x rest IH]; intros Hne Hall; [congruence|].
  inversion Hall; subst. destruct rest as [|y rest].
  - simpl. now apply split_slash_plain.
  - change (join_slash (x :: y :: rest)) with (x ++ "/" ++ join_slash (y :: rest)).
    cbn [append]. rewrite split_slash_app, split_slash_plain by assumption.
    rewrite IH; [reflexivity|discriminate|assumption].
Qed.

Lemma is_segment_spec s :
  is_segment s = true ->
  s <> "" /\ String.eqb s "" = false /\ String.eqb s "." = false /\
  String.eqb s ".." = false /\ has_slash s = false.
Proof.
  unfold is_segment. rewrite !andb_true_iff, !negb_true_iff.
  intros [[[H1 H2] H3] H4]. repeat split; auto.
  intros ->. discriminate.
Qed.

Lemma norm_step_segment b res seg :
  is_segment seg = true -> norm_step b res seg = seg :: res.
Proof.
  intros H. destruct (is_segment_spec _ H) as (_ & H1 & H2 & H3 & _).
  unfold norm_step. now rewrite H1, H2, H3.
Qed.

Lemma norm_step_empty b res : norm_step b res "" = res.
Proof. reflexivity. Qed.

(** In a result of [normalizeString] that may not go above the root, every
    segment is plain. *)
Lemma norm_false_segments xs : forall acc,
  Forall (fun seg => has_slash seg = false) xs ->
  Forall (fun seg => is_segment seg = true) acc ->
  Forall (fun seg => is_segment seg = true) (fold_left (norm_step false) xs acc).
Proof.
  induction xs as [|x xs IH]; intros acc Hxs Hacc; simpl; [exact Hacc|].
  inversion Hxs as [|? ? Hx Hrest]; subst. apply IH; [assumption|].
  unfold norm_step.
  destruct (String.eqb x "") eqn:H1; [exact Hacc|].
  destruct (String.eqb x ".") eqn:H2; [exact Hacc|].
  destruct (String.eqb x "..") eqn:H3.
  - destruct acc as [|last acc']; [constructor|].
    destruct (String.eqb last ".."); [exact Hacc|]. now inversion Hacc.
  - constructor; [|exact Hacc]. unfold is_segment. now rewrite H1, H2, H3, Hx.
Qed.

(** Normalizing plain segments leaves them as they are. *)
Lemma norm_false_plain xs : forall acc,
  Forall (fun seg => is_segment seg = true) xs ->
  fold_left (norm_step false) xs acc = (rev xs ++ acc)%list.
Proof.
  induction xs as [|x xs IH]; intros acc Hxs; simpl; [reflexivity|].
  inversion Hxs; subst. rewrite norm_step_segment by assumption.
  rewrite IH by assumption. now rewrite <- app_assoc.
Qed.

(** In a result of [normalizeString] every segment is not empty, not ".",
    and without separator. *)
Lemma norm_true_segments xs : forall acc,
  Forall (fun seg => has_slash seg = false) xs ->
  Forall (fun seg => seg = ".." \/ is_segment seg = true) acc ->
  Forall (fun seg => seg = ".." \/ is_segment seg = true)
         (fold_left (norm_step true) xs acc).
Proof.
  induction xs as [|x xs IH]; intros acc Hxs Hacc; simpl; [exact Hacc|].
  inversion Hxs as [|? ? Hx Hrest]; subst. apply IH; [assumption|].
  unfold norm_step.
  destruct (String.eqb x "") eqn:H1; [exact Hacc|].
  destruct (String.eqb x ".") eqn:H2; [exact Hacc|].
  destruct (String.eqb x "..") eqn:H3.
  - destruct acc as [|last acc']; [repeat constructor|].
    destruct (String.eqb last ".."); [constructor; auto|]. now inversion Hacc.
  - constructor; [|exact Hacc]. right. unfold is_segment. now rewrite H1, H2, H3, Hx.
Qed.

Lemma segment_cases x :
  has_slash x = false -> x = "" \/ x = "." \/ x = ".." \/ is_segment x = true.
Proof.
  intros Hx. unfold is_segment. rewrite Hx.
  destruct (String.eqb_spec x ""); [auto|].
  destruct (String.eqb_spec x "."); [auto|].
  destruct (String.eqb_spec x ".."); auto.
Qed.

Lemma norm_step_up_true last res :
  norm_step true (last :: res) ".."
  = if String.eqb last ".." then ".." :: last :: res else res.
Proof. reflexivity. Qed.

Lemma norm_step_up_false last res :
  norm_step false (last :: res) ".." = if String.eqb last ".." then last :: res else res.
Proof. reflexivity. Qed.

(** Resolving a normalized relative path is resolving the path itself. *)
Lemma norm_false_after_true xs : forall acc,
  Forall (fun seg => has_slash seg = false) xs ->
  fold_left (norm_step false) (rev (fold_left (norm_step true) xs [])) acc
  = fold_left (norm_step false) xs acc.
Proof.
  induction xs as [|x xs IH] using rev_ind; intros acc Hxs; [reflexivity|].
  apply Forall_app in Hxs. destruct Hxs as [Hxs Hx].
  rewrite !fold_left_app. simpl. rewrite <- (IH acc Hxs).
  pose proof (@norm_true_segments xs [] Hxs (Forall_nil _)) as Hst.
  set (st := fold_left (norm_step true) xs []) in *.
  inversion Hx as [|? ? Hx' _]; subst.
  destruct (segment_cases _ Hx') as [->|[->|[->|Hseg]]].
  - reflexivity.
  - reflexivity.
  - destruct st as [|last st']; [reflexivity|].
    rewrite norm_step_up_true.
    destruct (String.eqb last "..") eqn:Hlast.
    + simpl. rewrite !fold_left_app. reflexivity.
    + simpl. rewrite fold_left_app. simpl.
      inversion Hst as [|? ? Hl Hst']; subst.
      destruct Hl as [->|Hl]; [discriminate|].
      rewrite (@norm_step_segment false _ _ Hl), norm_step_up_false.
      now rewrite Hlast.
  - rewrite !norm_step_segment by assumption. simpl.
    rewrite fold_left_app. simpl. now rewrite norm_step_segment.
Qed.

(** *** Strings *)

Lemma startsWithSlash_plain s : has_slash s = false -> startsWithSlash s = false.
Proof. destruct s as [|c s]; simpl; [reflexivity|]. now destruct (Ascii.eqb c "/"). Qed.

Lemma startsWithSlash_app g s : g <> "" -> startsWithSlash (g ++ s) = startsWithSlash g.
Proof. destruct g; [congruence|reflexivity]. Qed.

Lemma append_not_empty g s : g <> "" -> String.eqb (g ++ s) "" = false.
Proof. destruct g; [congruence|reflexivity]. Qed.

Lemma endsWith_cons c s : s <> "" -> endsWith (String c s) "/" = endsWith s "/".
Proof.
  destruct s as [|c' s]; [congruence|]. intros _. unfold endsWith. simpl.
  now rewrite !Nat.sub_0_r.
Qed.

Lemma endsWith_plain s : has_slash s = false -> endsWith s "/" = false.
Proof.
  induction s as [|c s IH]; [reflexivity|]. simpl. intros H.
  apply orb_false_iff in H. destruct H as [Hc Hs].
  destruct s as [|c' s'].
  - unfold endsWith. simpl. now rewrite Hc.
  - rewrite endsWith_cons by discriminate. now apply IH.
Qed.

Lemma endsWith_app a x : x <> "" -> endsWith (a ++ x) "/" = endsWith x "/".
Proof.
  intros Hx. induction a as [|c a IH]; [reflexivity|]. simpl.
  rewrite endsWith_cons; [exact IH|]. destruct a; [exact Hx|discriminate].
Qed.

Lemma append_inv_head a b c : a ++ b = a ++ c -> b = c.
Proof. induction a as [|x a IH]; simpl; intros H; [exact H|]. inversion H. auto. Qed.

Lemma append_assoc' a b c : (a ++ b) ++ c = a ++ (b ++ c).
Proof. induction a as [|x a IH]; simpl; [reflexivity|]. now rewrite IH. Qed.

Lemma join_slash_snoc l x :
  join_slash (l ++ [x])
  = match l with [] => x | _ :: _ => join_slash l ++ "/" ++ x end.
Proof.
  induction l as [|y l IH]; [reflexivity|].
  destruct l as [|z l]; [reflexivity|].
  change (join_slash ((y :: z :: l) ++ [x]))
    with (y ++ "/" ++ join_slash ((z :: l) ++ [x])).
  rewrite IH.
  change (join_slash (y :: z :: l)) with (y ++ "/" ++ join_slash (z :: l)).
  now rewrite !append_assoc'.
Qed.

Lemma join_slash_not_empty y l : y <> "" -> join_slash (y :: l) <> "".
Proof.
  intros Hy. destruct l as [|z l]; [exact Hy|].
  change (join_slash (y :: z :: l)) with (y ++ "/" ++ join_slash (z :: l)).
  destruct y; [congruence|discriminate].
Qed.

Lemma join_slash_relative y l :
  y <> "" -> has_slash y = false -> startsWithSlash (join_slash (y :: l)) = false.
Proof.
  intros Hy Hs. destruct l as [|z l]; [now apply startsWithSlash_plain|].
  change (join_slash (y :: z :: l)) with (y ++ "/" ++ join_slash (z :: l)).
  rewrite startsWithSlash_app by assumption. now apply startsWithSlash_plain.
Qed.

(** *** [resolve] and [join] *)

Section WithCwd.

Variable cwd_segs : list string.

#[local] Abbreviation cwd_stack :=
  (fold_left (norm_step false) (split_slash (cwd cwd_segs)) []).

Lemma resolve_segs_single p :
  resolve_segs cwd_segs [p]
  = rev (fold_left (norm_step false) (split_slash p)
           (if startsWithSlash p then [] else cwd_stack)).
Proof.
  unfold resolve_segs. generalize (cwd cwd_segs) as c. intros c.
  simpl rev. simpl resolve_loop.
  destruct (String.eqb_spec p "") as [->|Hp].
  - simpl startsWithSlash. cbv iota. unfold normalizeString. cbn [append].
    rewrite split_slash_app, fold_left_app. reflexivity.
  - destruct (startsWithSlash p); unfold normalizeString; cbn [append];
      rewrite !split_slash_app, !fold_left_app; reflexivity.
Qed.

(** Resolving a plain segment against a directory appends it. *)
Lemma resolve_segs_child b n :
  is_segment n = true ->
  resolve_segs cwd_segs [b; n] = (resolve_segs cwd_segs [b] ++ [n])%list.
Proof.
  intros Hn. destruct (is_segment_spec _ Hn) as (_ & Hne & _ & _ & Hslash).
  rewrite resolve_segs_single. unfold resolve_segs.
  generalize (cwd cwd_segs) as c. intros c.
  simpl rev. simpl resolve_loop.
  rewrite Hne, (startsWithSlash_plain _ Hslash).
  destruct (String.eqb_spec b "") as [->|Hb].
  - simpl startsWithSlash. cbv iota. unfold normalizeString. cbn [append].
    rewrite !split_slash_app, !fold_left_app, (split_slash_plain _ Hslash).
    cbn [fold_left split_slash].
    rewrite (@norm_step_segment false _ n Hn). now rewrite !norm_step_empty.
  - destruct (startsWithSlash b); unfold normalizeString; cbn [append];
      rewrite !split_slash_app, !fold_left_app, (split_slash_plain _ Hslash);
      cbn [fold_left split_slash];
      rewrite (@norm_step_segment false _ n Hn); now rewrite !norm_step_empty.
Qed.

Lemma posix_join_segment g x :
  is_segment x = true ->
  posix_join [g; x]
  = if String.eqb g "" then x
    else if startsWithSlash g
         then "/" ++ join_slash (rev (x :: fold_left (norm_step false) (split_slash g) []))
         else join_slash (rev (x :: fold_left (norm_step true) (split_slash g) [])).
Proof.
  intros Hx. destruct (is_segment_spec _ Hx) as (Hx0 & Hne & _ & _ & Hslash).
  unfold posix_join. simpl filter. rewrite Hne. simpl negb.
  destruct (String.eqb_spec g "") as [->|Hg]; simpl negb; cbv iota.
  - unfold join_slash. simpl String.concat. unfold posix_normalize.
    rewrite Hne, (startsWithSlash_plain _ Hslash), (endsWith_plain _ Hslash).
    simpl negb. unfold normalizeString.
    rewrite (split_slash_plain _ Hslash). cbn [fold_left].
    rewrite (@norm_step_segment true [] x Hx). cbn [rev app].
    change (join_slash [x]) with x. now rewrite Hne.
  - change (join_slash [g; x]) with (g ++ "/" ++ x). unfold posix_normalize.
    rewrite (append_not_empty _ Hg), (startsWithSlash_app _ Hg).
    replace (endsWith (g ++ "/" ++ x) "/") with false.
    2:{ symmetry. change (g ++ "/" ++ x) with (g ++ ("/" ++ x)).
        rewrite endsWith_app by discriminate.
        change ("/" ++ x) with (String "/" x).
        rewrite endsWith_cons by assumption. now apply endsWith_plain. }
    unfold normalizeString. cbn [append].
    rewrite split_slash_app, fold_left_app, (split_slash_plain _ Hslash).
    cbn [fold_left]. rewrite (@norm_step_segment _ _ x Hx).
    cbn [rev].
    assert (Hr : forall l : list string,
               String.eqb (join_slash (l ++ [x])) "" = false).
    { intros l. rewrite join_slash_snoc. destruct l as [|y l]; [exact Hne|].
      apply String.eqb_neq. intros H.
      destruct (join_slash (y :: l)); discriminate H. }
    rewrite Hr. destruct (startsWithSlash g); reflexivity.
Qed.

(** Resolving [join(g, x)] for a plain segment [x] appends [x] to the
    resolved [g]. *)
Lemma resolve_segs_join g x :
  is_segment x = true ->
  resolve_segs cwd_segs [posix_join [g; x]] = (resolve_segs cwd_segs [g] ++ [x])%list.
Proof.
  intros Hx. destruct (is_segment_spec _ Hx) as (Hx0 & Hne & _ & _ & Hslash).
  rewrite (@posix_join_segment g x Hx), !resolve_segs_single.
  destruct (String.eqb_spec g "") as [->|Hg].
  - rewrite (startsWithSlash_plain _ Hslash), (split_slash_plain _ Hslash).
    simpl. now rewrite norm_step_segment.
  - destruct (startsWithSlash g) eqn:Habs.
    + set (st := fold_left (norm_step false) (split_slash g) []).
      assert (Hst : Forall (fun seg => is_segment seg = true) (x :: st)).
      { constructor; [exact Hx|].
        apply norm_false_segments; [apply split_slash_no_slash|constructor]. }
      assert (Hrev : Forall (fun seg => is_segment seg = true) (rev (x :: st))).
      { apply Forall_rev. exact Hst. }
      simpl startsWithSlash. cbv iota.
      change (split_slash ("/" ++ ?s)) with ("" :: split_slash s).
      rewrite split_join.
      * simpl fold_left at 1. rewrite norm_step_empty.
        rewrite norm_false_plain by exact Hrev.
        rewrite app_nil_r, rev_involutive. reflexivity.
      * simpl. destruct (rev st); discriminate.
      * eapply Forall_impl; [|exact Hrev]. intros seg Hseg.
        now destruct (is_segment_spec _ Hseg) as (_ & _ & _ & _ & H).
    + set (st := fold_left (norm_step true) (split_slash g) []).
      assert (Hst : Forall (fun seg => seg = ".." \/ is_segment seg = true) (x :: st)).
      { constructor; [now right|].
        apply norm_true_segments; [apply split_slash_no_slash|constructor]. }
      assert (Hrev : Forall (fun seg => seg <> "" /\ has_slash seg = false)
                            (rev (x :: st))).
      { apply Forall_rev. eapply Forall_impl; [|exact Hst].
        intros seg [->|Hseg]; [split; [discriminate|reflexivity]|].
        destruct (is_segment_spec _ Hseg) as (H1 & _ & _ & _ & H2). auto. }
      assert (Hrel : startsWithSlash (join_slash (rev (x :: st))) = false).
      { destruct (rev (x :: st)) as [|y l] eqn:Hl.
        - simpl in Hl. destruct (rev st); discriminate.
        - inversion Hrev as [|? ? [Hy1 Hy2] _]; subst.
          now apply join_slash_relative. }
      rewrite Hrel, split_join.
      * replace (x :: st)
          with (fold_left (norm_step true) (split_slash g ++ [x]) []).
        2:{ rewrite fold_left_app. simpl. now rewrite norm_step_segment. }
        rewrite norm_false_after_true.
        -- rewrite fold_left_app. simpl. now rewrite norm_step_segment.
        -- apply Forall_app. split; [apply split_slash_no_slash|].
           constructor; [exact Hslash|constructor].
      * simpl. destruct (rev st); discriminate.
      * eapply Forall_impl; [|exact Hrev]. intros seg [_ H]. exact H.
Qed.

End WithCwd.

(** *** Paths below a directory *)

Lemma is_prefix_sibling dir a b p :
  a <> b -> is_prefix (dir ++ [a]) p = true -> is_prefix (dir ++ [b]) p = false.
Proof.
  intros Hab. revert p. induction dir as [|x dir IH]; intros p; simpl.
  - destruct p as [|y p]; [discriminate|].
    rewrite andb_true_r. intros H. apply String.eqb_eq in H. subst y.
    rewrite andb_true_r. apply String.eqb_neq. congruence.
  - destruct p as [|y p]; [discriminate|]. intros H.
    apply andb_true_iff in H. destruct H as [-> H]. simpl. now apply IH.
Qed.

Lemma is_prefix_not_above dir a b p :
  a <> b -> is_prefix (dir ++ [a]) p = true -> is_prefix p (dir ++ [b]) = false.
Proof.
  intros Hab. revert p. induction dir as [|x dir IH]; intros p; simpl.
  - destruct p as [|y p]; [discriminate|].
    rewrite andb_true_r. intros H. apply String.eqb_eq in H. subst y.
    simpl. replace (String.eqb a b) with false; [reflexivity|].
    symmetry. now apply String.eqb_neq.
  - destruct p as [|y p]; [discriminate|]. intros H.
    apply andb_true_iff in H. destruct H as [Hxy H]. simpl.
    rewrite (IH _ H). apply andb_false_r.
Qed.

Lemma is_prefix_app dir l : is_prefix dir (dir ++ l) = true.
Proof.
  induction dir as [|x dir IH]; simpl; [reflexivity|].
  now rewrite String.eqb_refl, IH.
Qed.

(** [emptyDir] changes nothing outside of the directory and of the way to
    it. *)
Lemma fs_emptyDir_frame dir tree tree' p :
  fs_emptyDir dir tree = Some tree' ->
  is_prefix dir p = false -> is_prefix p dir = false ->
  tree' p = tree p.
Proof.
  unfold fs_emptyDir, fs_mkdirs, inside. intros H Hin Hup.
  destruct (tree dir) as [[content|]|];
    try (destruct (existsb _ _); [discriminate|]);
    inversion H; subst; now rewrite ?Hin, ?Hup.
Qed.

End PosixPaths.


(** ** The staging operations *)

Lemma zip_same {A : Type} (l : list A) : zip l l = map (fun x => (Some x, Some x)) l.
Proof. induction l as [|x l IH]; simpl; [reflexivity|]. now rewrite IH. Qed.

Section Staging.

Context {path_module : PathModule}.
Variable platform : string.
Variable toCygwinPath : string -> string.
Variable getModuleKey : string -> option string -> string.
Variable this : BuildDir.

#[local] Abbreviation sync' := (sync platform toCygwinPath this).
#[local] Abbreviation syncFromSrc' := (syncFromSrc platform toCygwinPath this).
#[local] Abbreviation syncDependencyProducts' :=
  (syncDependencyProducts platform toCygwinPath getModuleKey this).
#[local] Abbreviation staging_events' := (staging_events platform toCygwinPath this).
#[local] Abbreviation rsyncArgs' := (rsyncArgs platform toCygwinPath this).
#[local] Abbreviation requests' :=
  (syncDependencyProducts_requests getModuleKey this).

Lemma staging_events_mono reqs d d' ev :
  incl d d' -> staging_events' reqs d ev -> staging_events' reqs d' ev.
Proof.
  intros Hincl [Hr Ht]. split; [|exact Ht].
  intros file args Hev. destruct (Hr file args Hev) as (Hf & src & dst & wd & H1 & H2 & H3).
  split; [exact Hf|]. exists src, dst, wd. auto.
Qed.

Lemma staging_events_other reqs done ev :
  (forall file args, ev <> Call (execa file args)) ->
  (forall e, ev <> Threw e) ->
  staging_events' reqs done ev.
Proof.
  intros H1 H2. split.
  - intros file args Hev. now destruct (H1 file args).
  - intros e Hev. now destruct (H2 e).
Qed.

Lemma guarded_Await Q done io k :
  Q done (Call io) -> guarded Q (io :: done) k -> guarded Q done (Await io k).
Proof. intros H1 H2. split; assumption. Qed.

Lemma sync_guarded reqs done src dst wd :
  In (src, dst, wd) reqs -> guarded (staging_events' reqs) done (sync' src dst wd).
Proof.
  intros Hin. unfold sync. apply guarded_Await.
  { apply staging_events_other; intros; discriminate. }
  split.
  { apply staging_events_other; intros; discriminate. }
  apply guarded_Await; [|exact I]. split.
  - intros file args Hev. inversion Hev; subst. split; [reflexivity|].
    exists src, dst, wd. repeat split; auto. now left.
  - intros e Hev. discriminate.
Qed.

Lemma syncFromSrc_guarded module :
  guarded (staging_events' (syncFromSrc_requests this module)) [] (syncFromSrc' module).
Proof.
  unfold syncFromSrc, buildPath. apply guarded_Await.
  - apply staging_events_other; intros; discriminate.
  - apply sync_guarded. now left.
Qed.

Lemma copyMapper_guarded reqs done sourceBuildPath buildPath specs :
  (forall c, In c (beforeAbsolute specs) ->
             In (copy_request sourceBuildPath buildPath c) reqs) ->
  guarded_all (staging_events' reqs) done false
    (map (copyMapper platform toCygwinPath this sourceBuildPath buildPath) specs).
Proof.
  induction specs as [|c rest IH]; intros Hreqs; simpl; [exact I|].
  unfold copyMapper at 1 2. unfold hasAbsolutePath in Hreqs.
  destruct (isAbsolute (source c)) eqn:Hs; simpl.
  - split; [intros file args Hev; discriminate|].
    intros e Hev. inversion Hev; subst. eexists _, c. split; [reflexivity|].
    unfold hasAbsolutePath. now rewrite Hs.
  - destruct (isAbsolute (target c)) eqn:Ht; simpl.
    + split; [intros file args Hev; discriminate|].
      intros e Hev. inversion Hev; subst. eexists _, c. split; [reflexivity|].
      unfold hasAbsolutePath. rewrite Ht. apply orb_true_r.
    + simpl in Hreqs. unfold hasAbsolutePath in Hreqs.
      rewrite Hs, Ht in Hreqs. simpl in Hreqs. split.
      * apply (sync_guarded reqs done
                 (join [sourceBuildPath; source c]) (join [buildPath; target c]) false).
        apply (Hreqs c). now left.
      * apply IH. intros c' Hc'. apply Hreqs. now right.
Qed.

Lemma sync_throw_async q : sync_throw true q = None.
Proof. now destruct q. Qed.

Lemma dependencyMapper_guarded module done ds :
  incl ds (dependencies module) ->
  guarded_all (staging_events' (requests' module)) done true
    (map (dependencyMapper platform toCygwinPath getModuleKey this
            (buildPathOf this (name module)))
         (map (fun d => (Some d, Some d)) ds)).
Proof.
  induction ds as [|d rest IH]; intros Hincl; simpl; [exact I|].
  rewrite sync_throw_async. split.
  - destruct (copy d) as [specs|] eqn:Hcopy; [|exact I].
    unfold buildPath. apply guarded_Await.
    { apply staging_events_other; intros; discriminate. }
    rewrite guarded_map. apply copyMapper_guarded.
    intros c Hc. unfold syncDependencyProducts_requests. apply in_flat_map.
    exists d. split; [apply Hincl; now left|].
    unfold dependency_requests. rewrite Hcopy. now apply in_map.
  - apply IH. intros x Hx. apply Hincl. now right.
Qed.

Lemma syncDependencyProducts_guarded module :
  guarded (staging_events' (requests' module)) [] (syncDependencyProducts' module).
Proof.
  unfold syncDependencyProducts, buildPath. apply guarded_Await.
  { apply staging_events_other; intros; discriminate. }
  rewrite guarded_map, zip_same. apply dependencyMapper_guarded. apply incl_refl.
Qed.

Lemma throws_after_ensureDir_mono module d d' ev :
  incl d d' ->
  throws_after_ensureDir getModuleKey this module d ev ->
  throws_after_ensureDir getModuleKey this module d' ev.
Proof.
  intros Hincl H e He. destruct (H e He) as (H1 & dep & H2 & H3).
  split; [auto|]. exists dep. auto.
Qed.

Lemma sync_never_throws module done src dst wd :
  guarded (throws_after_ensureDir getModuleKey this module) done (sync' src dst wd).
Proof.
  unfold sync. apply guarded_Await; [intros e He; discriminate|].
  split; [intros e He; discriminate|].
  apply guarded_Await; [intros e He; discriminate|exact I].
Qed.

Lemma copyMapper_throws_after module done sourceBuildPath buildPath specs :
  (forall e, throws_after_ensureDir getModuleKey this module done (Threw e)) ->
  guarded_all (throws_after_ensureDir getModuleKey this module) done false
    (map (copyMapper platform toCygwinPath this sourceBuildPath buildPath) specs).
Proof.
  intros Hdone. induction specs as [|c rest IH]; simpl; [exact I|].
  unfold copyMapper at 1 2.
  destruct (isAbsolute (source c)); simpl; [apply Hdone|].
  destruct (isAbsolute (target c)); simpl; [apply Hdone|].
  split; [apply sync_never_throws|exact IH].
Qed.

Lemma dependencyMapper_throws_after module ds :
  incl ds (dependencies module) ->
  guarded_all (throws_after_ensureDir getModuleKey this module)
    [ensureDir (buildPathOf this (name module))] true
    (map (dependencyMapper platform toCygwinPath getModuleKey this
            (buildPathOf this (name module)))
         (map (fun d => (Some d, Some d)) ds)).
Proof.
  induction ds as [|d rest IH]; intros Hincl; simpl; [exact I|].
  rewrite sync_throw_async. split.
  - destruct (copy d) as [specs|]; [|exact I].
    unfold buildPath. apply guarded_Await; [intros e He; discriminate|].
    rewrite guarded_map. apply copyMapper_throws_after.
    intros e e' _. split; [right; now left|].
    exists d. split; [apply Hincl; now left|now left].
  - apply IH. intros x Hx. apply Hincl. now right.
Qed.

Lemma syncDependencyProducts_throws_after module :
  guarded (throws_after_ensureDir getModuleKey this module) []
          (syncDependencyProducts' module).
Proof.
  unfold syncDependencyProducts, buildPath.
  apply guarded_Await; [intros e He; discriminate|].
  rewrite guarded_map, zip_same. apply dependencyMapper_throws_after. apply incl_refl.
Qed.

#[local] Abbreviation stage' := (stage platform toCygwinPath getModuleKey this).
#[local] Abbreviation requests_of' := (requests_of getModuleKey this).

Lemma stage_guarded op : guarded (staging_events' (requests_of' op)) [] (stage' op).
Proof.
  destruct op as [module|module].
  - apply syncFromSrc_guarded.
  - apply syncDependencyProducts_guarded.
Qed.

(** Every program a staging operation executes is rsync, on one of its
    requests. *)
Lemma stage_execa_In op sched file args :
  In (Call (execa file args)) (trace (run sched (stage' op))) ->
  file = "rsync" /\
  exists src dst wd, In (src, dst, wd) (requests_of' op) /\ args = rsyncArgs' src dst wd.
Proof.
  intros Hin. apply in_split in Hin. destruct Hin as (t1 & t2 & Ht).
  destruct (@guarded_run _ (staging_events_mono (reqs := requests_of' op)) _ sched
              (stage_guarded op) _ _ _ Ht I) as [Hr _].
  destruct (Hr file args eq_refl) as (Hf & src & dst & wd & H1 & H2 & _).
  split; [exact Hf|]. exists src, dst, wd. auto.
Qed.

(** Every exception a staging operation throws is a [ConfigurationError]. *)
Lemma stage_throws op sched e :
  In (Threw e) (trace (run sched (stage' op))) ->
  exists message c, e = ConfigurationError message c /\ hasAbsolutePath c = true.
Proof.
  intros Hin. apply in_split in Hin. destruct Hin as (t1 & t2 & Ht).
  destruct (@guarded_run _ (staging_events_mono (reqs := requests_of' op)) _ sched
              (stage_guarded op) _ _ _ Ht I) as [_ Hthrow].
  exact (Hthrow e eq_refl).
Qed.

Lemma rsyncArgs_options src dst wd :
  rsyncArgs' src dst wd =
  (syncOpts this wd
     ++ [fst (syncPaths platform toCygwinPath src dst);
         snd (syncPaths platform toCygwinPath src dst)])%list.
Proof. unfold rsyncArgs. now destruct (syncPaths platform toCygwinPath src dst). Qed.

Lemma syncFromSrc_linear module : linear (syncFromSrc' module).
Proof. exact I. Qed.

Lemma syncFromSrc_rsync module :
  execa "rsync"
    (rsyncArgs' (resolve [projectRoot this; path module] ++ sep)
                (buildPathOf this (name module)) true)
  = mirror_rsync platform toCygwinPath this module.
Proof. unfold mirror_rsync. now rewrite rsyncArgs_options. Qed.

Lemma syncFromSrc_full_trace module :
  In (Fulfilled (mirror_rsync platform toCygwinPath this module))
     (full_trace (syncFromSrc' module)).
Proof.
  unfold syncFromSrc, buildPath, sync. simpl full_trace.
  rewrite syncFromSrc_rsync. simpl. auto 10.
Qed.

Lemma copyMapper_budget sourceBuildPath buildPath specs :
  execa_budget_all false
    (map (copyMapper platform toCygwinPath this sourceBuildPath buildPath) specs)
  = length (beforeAbsolute specs).
Proof.
  induction specs as [|c rest IH]; simpl; [reflexivity|].
  unfold copyMapper at 1 2. unfold hasAbsolutePath.
  destruct (isAbsolute (source c)); simpl; [reflexivity|].
  destruct (isAbsolute (target c)); simpl; [reflexivity|].
  now rewrite IH.
Qed.

Lemma dependencyMapper_budget module ds :
  execa_budget_all true
    (map (dependencyMapper platform toCygwinPath getModuleKey this
            (buildPathOf this (name module)))
         (map (fun d => (Some d, Some d)) ds))
  = length (flat_map (dependency_requests getModuleKey this module) ds).
Proof.
  induction ds as [|d rest IH]; simpl; [reflexivity|].
  rewrite sync_throw_async, length_app, IH. f_equal.
  unfold dependency_requests. destruct (copy d) as [specs|]; [|reflexivity].
  unfold buildPath.
  rewrite execa_budget_Await, execa_budget_map, copyMapper_budget, length_map.
  reflexivity.
Qed.

Lemma syncDependencyProducts_budget module :
  execa_budget (syncDependencyProducts' module) = length (requests' module).
Proof.
  unfold syncDependencyProducts, buildPath.
  rewrite execa_budget_Await, execa_budget_map, zip_same, dependencyMapper_budget.
  reflexivity.
Qed.

Lemma syncDependencyProducts_doomed module :
  hasAbsoluteCopySpec module -> doomed (syncDependencyProducts' module).
Proof.
  intros (d & specs & c & Hd & Hcopy & Hc & Habs).
  unfold syncDependencyProducts, buildPath. apply doomed_Await.
  apply doomed_map. rewrite zip_same, map_map. apply Exists_exists.
  eexists. split; [apply in_map; exact Hd|].
  simpl. rewrite Hcopy. unfold buildPath. apply doomed_Await.
  apply doomed_map. apply Exists_exists.
  eexists. split; [apply in_map; exact Hc|].
  unfold copyMapper. unfold hasAbsolutePath in Habs.
  destruct (isAbsolute (source c)); [exact I|].
  destruct (isAbsolute (target c)); [exact I|discriminate].
Qed.

(** ** Claims about the staging operations *)

(** The only program [syncFromSrc] ever executes is rsync with the options
    [-rptgo], [--exclude=<buildDirPath>] and [--delete], from the module's
    source directory to its build path; when the operation completes, that
    invocation was made and fulfilled; and it does complete when the host
    fulfils its three requests. *)
Lemma syncFromSrc_runs_mirror_rsync module sched :
  let s := run sched (stage' (StageSource module)) in
  (forall file args,
     In (Call (execa file args)) (trace s) ->
     execa file args = mirror_rsync platform toCygwinPath this module) /\
  (outcome s = Resolved ->
     In (Fulfilled (mirror_rsync platform toCygwinPath this module)) (trace s)) /\
  outcome (run (fulfil_all 3) (stage' (StageSource module))) = Resolved.
Proof.
  intros s. split; [|split; [|reflexivity]].
  - intros file args Hin.
    destruct (stage_execa_In _ _ _ _ Hin) as (-> & src & dst & wd & Hreq & ->).
    destruct Hreq as [Heq|[]]. inversion Heq; subst. apply syncFromSrc_rsync.
  - subst s. simpl stage. intros Hres. unfold outcome in Hres.
    pose proof (linear_run (syncFromSrc' module) sched (syncFromSrc_linear module))
      as Hscript.
    destruct Hscript
      as [(_ & [(_ & _ & Hfull)|(e & Hr & _)])
         |[(io & k & Hp & _)|(e & Hp & _)]].
    + rewrite Hfull. apply syncFromSrc_full_trace.
    + rewrite Hr in Hres. discriminate.
    + rewrite Hp in Hres.
      destruct (rejection (run sched (syncFromSrc' module))); discriminate.
    + rewrite Hp in Hres.
      destruct (rejection (run sched (syncFromSrc' module))); discriminate.
Qed.

(** C3: [syncDependencyProducts] never syncs with delete-extraneous.  Every
    program it executes is rsync with exactly the options [-rptgo] and
    [--exclude=<buildDirPath>], followed by the source and destination of one
    of its copy specs: no [--delete] among the options.  (That files already
    at the target stay is then rsync's doing.) *)
Theorem stageDependencies_never_passes_delete module sched file args :
  In (Call (execa file args)) (trace (run sched (stage' (StageDependencies module)))) ->
  file = "rsync" /\
  exists src dst,
    In (src, dst, false) (requests' module) /\
    args = ["-rptgo"; "--exclude=" ++ buildDirPath this;
            fst (syncPaths platform toCygwinPath src dst);
            snd (syncPaths platform toCygwinPath src dst)].
Proof.
  intros Hin.
  destruct (stage_execa_In _ _ _ _ Hin) as (Hf & src & dst & wd & Hreq & ->).
  split; [exact Hf|]. exists src, dst.
  assert (Hwd : wd = false).
  { simpl in Hreq. unfold syncDependencyProducts_requests in Hreq.
    apply in_flat_map in Hreq. destruct Hreq as (d & _ & Hd).
    unfold dependency_requests in Hd. destruct (copy d); [|destruct Hd].
    apply in_map_iff in Hd. destruct Hd as (c & Hc & _).
    unfold copy_request in Hc. now inversion Hc. }
  subst wd. split; [exact Hreq|]. rewrite rsyncArgs_options. reflexivity.
Qed.

(** C6: in both staging operations, whenever rsync is invoked, [ensureDir]
    on the parsed parent directory of the destination path of that very
    [sync] call has been fulfilled before. *)
Theorem parent_directory_ensured_before_rsync op sched t1 file args t2 :
  trace (run sched (stage' op)) = (t1 ++ Call (execa file args) :: t2)%list ->
  file = "rsync" /\
  exists src dst wd,
    In (src, dst, wd) (requests_of' op) /\
    args = rsyncArgs' src dst wd /\
    In (Fulfilled (ensureDir (parse_dir dst))) t1.
Proof.
  intros Ht.
  destruct (@guarded_run _ (staging_events_mono (reqs := requests_of' op)) _ sched
              (stage_guarded op) _ _ _ Ht I) as [Hrsync _].
  destruct (Hrsync file args eq_refl) as (Hf & src & dst & wd & Hreq & Hargs & Hdone).
  split; [exact Hf|]. exists src, dst, wd. repeat split; auto.
  now apply In_fulfilled.
Qed.


(** C5 (amended): whenever an rsync invocation fails, the promise of the
    staging operation is never fulfilled: it is rejected once nothing is in
    flight any more, as is the case when the host has fulfilled what is still
    asked of it, and it is rejected with a failure of the run.  It is
    rejected with this failure of rsync when that is the only failure of the
    run, which is always so in [syncFromSrc]. *)
Theorem rsync_failure_rejects_staging op sched args :
  In (Rejected (execa "rsync" args)) (trace (run sched (stage' op))) ->
  outcome (run sched (stage' op)) <> Resolved /\
  (pending (run sched (stage' op)) = [] ->
   exists e, outcome (run sched (stage' op)) = RejectedWith e) /\
  (exists e,
     outcome (run (sched ++ fulfil_all (turns (stage' op))) (stage' op))
     = RejectedWith e) /\
  (forall e,
     outcome (run sched (stage' op)) = RejectedWith e ->
     In e (failures (trace (run sched (stage' op)))) /\
     (failures (trace (run sched (stage' op))) = [IOError (execa "rsync" args)] ->
      e = IOError (execa "rsync" args)) /\
     (forall module, op = StageSource module -> e = IOError (execa "rsync" args))).
Proof.
  intros Hin0. pose proof (In_failures_Rejected _ _ Hin0) as Hin.
  destruct (failures_surface_run (stage' op) sched) as (H1 & _ & H3).
  assert (Hne : failures (trace (run sched (stage' op))) <> []).
  { intros Hnil. rewrite Hnil in Hin. destruct Hin. }
  split; [|split; [|split]].
  - unfold outcome. destruct (H3 Hne) as [Hr|[e He]].
    + destruct (rejection (run sched (stage' op))); congruence.
    + destruct (rejection (run sched (stage' op))); [discriminate|].
      destruct (pending (run sched (stage' op))); [destruct He|discriminate].
  - intros Hp. destruct (settled_outcome (stage' op) sched Hp) as [[Hnil _]|[e [_ He]]].
    + congruence.
    + exists e. exact He.
  - destruct (settled_outcome (stage' op) _ (run_settles (stage' op) sched))
      as [[Hnil _]|[e [_ He]]].
    + rewrite run_app in Hnil.
      pose proof (trace_grows (fulfil_all (turns (stage' op))) _ _ Hin0) as Hin'.
      apply In_failures_Rejected in Hin'. rewrite Hnil in Hin'. destruct Hin'.
    + exists e. exact He.
  - intros e He. unfold outcome in He.
    destruct (rejection (run sched (stage' op))) as [e0|] eqn:Hr.
    2:{ destruct (pending (run sched (stage' op))); discriminate. }
    inversion He; subst e0. pose proof (H1 e eq_refl) as Hine.
    split; [exact Hine|]. split.
    + intros Hone. rewrite Hone in Hine. destruct Hine as [<-|[]]. reflexivity.
    + intros module ->. simpl stage in *.
      pose proof (linear_run (syncFromSrc' module) sched (syncFromSrc_linear module))
        as Hscript.
      destruct Hscript
        as [(_ & [(_ & Hnil & _)|(e' & _ & Hone)])
           |[(io & k & _ & _ & _ & Hnil & _)|(e' & _ & Hr' & _)]];
        try congruence.
      rewrite Hone in Hin, Hine.
      destruct Hin as [<-|[]]. destruct Hine as [<-|[]]. reflexivity.
Qed.

(** C10: a build dependency that carries no copy list is skipped.  The
    mapper returns at once for it, and for a zipped entry with a side
    missing, starting nothing; and every execution of
    [syncDependencyProducts] is the same, event for event and in its outcome,
    as for the module without that dependency. *)
Theorem copyless_dependency_is_skipped module before d after sched :
  dependencies module = (before ++ d :: after)%list ->
  copy d = None ->
  let without :=
    {| name := name module; path := path module;
       dependencies := (before ++ after)%list |} in
  (forall bp entry st,
     entry = (Some d, Some d) \/ fst entry = None \/ snd entry = None ->
     start (dependencyMapper platform toCygwinPath getModuleKey this bp entry) st = st) /\
  trace (run sched (stage' (StageDependencies module))) =
  trace (run sched (stage' (StageDependencies without))) /\
  outcome (run sched (stage' (StageDependencies module))) =
  outcome (run sched (stage' (StageDependencies without))).
Proof.
  intros Hdeps Hcopy without. split.
  - intros bp entry st [->|[H|H]].
    + simpl. now rewrite Hcopy.
    + destruct entry as [[x|] y]; [discriminate|reflexivity].
    + destruct entry as [[x|] [y|]]; try discriminate; reflexivity.
  - simpl stage. unfold syncDependencyProducts, buildPath. simpl name.
    apply run_same_iteration.
    intros st. rewrite !zip_same. simpl dependencies.
    rewrite Hdeps, !map_app. simpl map. rewrite Hcopy.
    apply iterate_skips_Ret.
Qed.

End Staging.

(** ** Claims about the directories *)

Lemma resolve_segs_segments cwd_segs p :
  Forall (fun seg => is_segment seg = true) (Posix.resolve_segs cwd_segs [p]).
Proof.
  rewrite resolve_segs_single. apply Forall_rev.
  apply norm_false_segments; [apply split_slash_no_slash|].
  destruct (startsWithSlash p); [constructor|].
  apply norm_false_segments; [apply split_slash_no_slash|constructor].
Qed.

Lemma posix_resolve_child cwd_segs dir n :
  is_segment n = true ->
  Posix.posix_resolve cwd_segs [dir; n] = child (Posix.posix_resolve cwd_segs [dir]) n.
Proof.
  intros Hn. unfold Posix.posix_resolve, child.
  rewrite (@resolve_segs_child cwd_segs dir n Hn), join_slash_snoc.
  pose proof (resolve_segs_segments cwd_segs dir) as Hsegs.
  destruct (Posix.resolve_segs cwd_segs [dir]) as [|y l]; [reflexivity|].
  inversion Hsegs as [|? ? Hy _]; subst.
  destruct (is_segment_spec _ Hy) as (Hy0 & _).
  pose proof (@join_slash_not_empty y l Hy0) as Hj.
  destruct (Posix.join_slash (y :: l)) as [|c j] eqn:Hjs; [congruence|].
  reflexivity.
Qed.


Lemma factory_clear_guarded cwd_segs projectRoot gardenDirPath :
  guarded (factory_clear_requests gardenDirPath) []
    (factory (path_module := Posix.posix cwd_segs) projectRoot gardenDirPath clear).
Proof.
  unfold factory, clear. simpl. unfold factory_clear_requests.
  repeat split; intros io Hio; inversion Hio; subst; auto.
Qed.

(** C4: the only directory [clear] empties is [buildDirPath]; for a
    [BuildDir] made by [factory], [buildMetadataDirPath] is a different
    directory, not below it and not on the way to it, and whatever is at or
    below [buildMetadataDirPath] is the same after [emptyDir] as before.
    That is where [buildMetadataPath] puts the metadata of a module whose
    name is a plain path segment. *)
Theorem clear_leaves_build_metadata cwd_segs projectRoot gardenDirPath sched io :
  In (Call io)
     (trace (run sched
               (factory (path_module := Posix.posix cwd_segs)
                  projectRoot gardenDirPath clear))) ->
  (io = ensureDir (Posix.posix_join [gardenDirPath; "build"]) \/
   io = ensureDir (Posix.posix_join [gardenDirPath; "build-metadata"]) \/
   io = emptyDir (Posix.posix_join [gardenDirPath; "build"])) /\
  (forall dir tree tree' p,
     io = emptyDir dir ->
     fs_emptyDir (Posix.resolve_segs cwd_segs [dir]) tree = Some tree' ->
     is_prefix
       (Posix.resolve_segs cwd_segs [Posix.posix_join [gardenDirPath; "build-metadata"]])
       p = true ->
     tree' p = tree p) /\
  (forall moduleName,
     is_segment moduleName = true ->
     is_prefix
       (Posix.resolve_segs cwd_segs [Posix.posix_join [gardenDirPath; "build-metadata"]])
       (Posix.resolve_segs cwd_segs
          [Posix.posix_join [gardenDirPath; "build-metadata"]; moduleName])
     = true).
Proof.
  intros Hin. apply in_split in Hin. destruct Hin as (t1 & t2 & Ht).
  assert (Hio : io = ensureDir (Posix.posix_join [gardenDirPath; "build"]) \/
                io = ensureDir (Posix.posix_join [gardenDirPath; "build-metadata"]) \/
                io = emptyDir (Posix.posix_join [gardenDirPath; "build"])).
  { refine (@guarded_run (factory_clear_requests gardenDirPath) _ _ sched
              (factory_clear_guarded cwd_segs projectRoot gardenDirPath)
              _ _ _ Ht I io eq_refl).
    intros d d' ev _ H. exact H. }
  split; [exact Hio|]. split.
  - intros dir tree tree' p -> Hempty Hp.
    destruct Hio as [Hio|[Hio|Hio]]; try discriminate. inversion Hio; subst dir.
    rewrite (@resolve_segs_join cwd_segs gardenDirPath "build" eq_refl) in Hempty.
    rewrite (@resolve_segs_join cwd_segs gardenDirPath "build-metadata" eq_refl) in Hp.
    apply (fs_emptyDir_frame _ _ _ Hempty).
    + refine (@is_prefix_sibling _ "build-metadata" "build" p _ Hp). discriminate.
    + refine (@is_prefix_not_above _ "build-metadata" "build" p _ Hp). discriminate.
  - intros moduleName Hname.
    rewrite (@resolve_segs_child cwd_segs _ moduleName Hname). apply is_prefix_app.
Qed.

(** ** The claims on the sample project *)

Ltac in_list := vm_compute; repeat (first [left; reflexivity | right]).

(** [syncDependencyProducts] on [web] does invoke rsync for [lib], with the
    two options only. *)
Lemma stageDependencies_never_passes_delete_witness :
  In (Call (execa "rsync" rsync_lib))
     (trace (run both_rsync_fail (sample_stage (StageDependencies web)))) /\
  exists src dst,
    In (src, dst, false)
       (syncDependencyProducts_requests (path_module := sample_path)
          sample_getModuleKey sample_buildDir web) /\
    rsync_lib =
      ["-rptgo"; "--exclude=" ++ buildDirPath sample_buildDir;
       fst (syncPaths "linux" sample_toCygwinPath src dst);
       snd (syncPaths "linux" sample_toCygwinPath src dst)].
Proof.
  assert (H : In (Call (execa "rsync" rsync_lib))
                 (trace (run both_rsync_fail (sample_stage (StageDependencies web)))))
    by in_list.
  split; [exact H|].
  exact (proj2 (stageDependencies_never_passes_delete (path_module := sample_path)
                  "linux" sample_toCygwinPath sample_getModuleKey sample_buildDir
                  web both_rsync_fail "rsync" rsync_lib H)).
Defined.

(** When [syncFromSrc] on [web] invokes rsync, [ensureDir] on
    "/proj/.garden/build", the parent of the destination, has been
    fulfilled. *)
Lemma parent_directory_ensured_before_rsync_witness :
  trace (run [fulfil 0; fulfil 0] (sample_stage (StageSource web)))
  = (before_rsync_web ++ Call (execa "rsync" rsync_web) :: [])%list /\
  exists src dst wd,
    In (src, dst, wd)
       (requests_of (path_module := sample_path) sample_getModuleKey sample_buildDir
          (StageSource web)) /\
    rsync_web = rsyncArgs "linux" sample_toCygwinPath sample_buildDir src dst wd /\
    In (Fulfilled (ensureDir (parse_dir (PathModule := sample_path) dst)))
       before_rsync_web.
Proof.
  assert (H : trace (run [fulfil 0; fulfil 0] (sample_stage (StageSource web)))
              = (before_rsync_web ++ Call (execa "rsync" rsync_web) :: [])%list)
    by reflexivity.
  split; [exact H|].
  exact (proj2 (parent_directory_ensured_before_rsync (path_module := sample_path)
                  "linux" sample_toCygwinPath sample_getModuleKey sample_buildDir
                  (StageSource web) [fulfil 0; fulfil 0] before_rsync_web
                  "rsync" rsync_web [] H)).
Defined.


(** [syncFromSrc] on [web] with a failing rsync is rejected with that
    failure. *)
Lemma rsync_failure_rejects_staging_witness :
  In (Rejected (execa "rsync" rsync_web))
     (trace (run [fulfil 0; fulfil 0; fail 0; turn 0] (sample_stage (StageSource web)))) /\
  outcome (run [fulfil 0; fulfil 0; fail 0; turn 0] (sample_stage (StageSource web)))
  = RejectedWith (IOError (execa "rsync" rsync_web)).
Proof.
  assert (H : In (Rejected (execa "rsync" rsync_web))
                 (trace (run [fulfil 0; fulfil 0; fail 0; turn 0]
                           (sample_stage (StageSource web)))))
    by in_list.
  split; [exact H|].
  destruct (rsync_failure_rejects_staging (path_module := sample_path)
              "linux" sample_toCygwinPath sample_getModuleKey sample_buildDir
              (StageSource web) [fulfil 0; fulfil 0; fail 0; turn 0] rsync_web H)
    as (_ & Hsettled & _ & Hreason).
  destruct (Hsettled eq_refl) as [e He].
  destruct (Hreason e He) as (_ & _ & Hsrc).
  rewrite <- (Hsrc web eq_refl). exact He.
Defined.

(** C5, as stated, fails when two invocations fail: both rsync invocations of
    [web]'s dependencies are rejected, and the promise of
    [syncDependencyProducts] is rejected with the failure of the first only;
    the failure of the second is not what it rejects with. *)
Lemma second_rsync_failure_is_not_the_reason :
  In (Rejected (execa "rsync" rsync_assets))
     (trace (run both_rsync_fail (sample_stage (StageDependencies web)))) /\
  outcome (run both_rsync_fail (sample_stage (StageDependencies web)))
  = RejectedWith (IOError (execa "rsync" rsync_lib)) /\
  outcome (run both_rsync_fail (sample_stage (StageDependencies web)))
  <> RejectedWith (IOError (execa "rsync" rsync_assets)).
Proof.
  split; [in_list|]. split; [reflexivity|].
  vm_compute. intros H. discriminate H.
Qed.

(** [base] carries no copy list: [web] and [web_without_base] run alike. *)
Lemma copyless_dependency_is_skipped_witness :
  dependencies web = ([lib_dep] ++ base_dep :: [assets_dep])%list /\
  copy base_dep = None /\
  trace (run both_rsync_fail (sample_stage (StageDependencies web)))
  = trace (run both_rsync_fail (sample_stage (StageDependencies web_without_base))) /\
  outcome (run both_rsync_fail (sample_stage (StageDependencies web)))
  = outcome (run both_rsync_fail (sample_stage (StageDependencies web_without_base))).
Proof.
  split; [reflexivity|]. split; [reflexivity|].
  exact (proj2 (copyless_dependency_is_skipped (path_module := sample_path)
                  "linux" sample_toCygwinPath sample_getModuleKey sample_buildDir
                  web [lib_dep] base_dep [assets_dep] both_rsync_fail
                  eq_refl eq_refl)).
Defined.

(** The copy spec of [web_etc] has an absolute target. *)
Lemma web_etc_hasAbsoluteCopySpec : hasAbsoluteCopySpec (path_module := sample_path) web_etc.
Proof.
  exists {| dep_name := "lib"; dep_plugin := None;
            copy := Some [ {| source := "conf"; target := "/etc/foo" |} ] |},
         [ {| source := "conf"; target := "/etc/foo" |} ],
         {| source := "conf"; target := "/etc/foo" |}.
  repeat split; simpl; auto.
Defined.

(** C1, as stated, fails.  The copy spec of [web_etc] has the absolute target
    "/etc/foo": when the [ConfigurationError] is thrown, [ensureDir] has been
    called, and fulfilled, on the build path of the module and on that of the
    dependency.  In [web_lib_etc] a relative copy spec precedes it: its sync
    is under way when the error is thrown, and rsync still runs for it after
    the promise was rejected. *)
Lemma absolute_copy_spec_does_not_prevent_file_operations :
  hasAbsoluteCopySpec (path_module := sample_path) web_etc /\
  trace (run check_copy_spec (sample_stage (StageDependencies web_etc)))
  = [Call (ensureDir "/proj/.garden/build/web");
     Fulfilled (ensureDir "/proj/.garden/build/web");
     Call (ensureDir "/proj/.garden/build/lib");
     Fulfilled (ensureDir "/proj/.garden/build/lib");
     Threw (ConfigurationError
              "Target path in build dependency copy spec must be a relative path"
              {| source := "conf"; target := "/etc/foo" |})] /\
  ~ no_file_operations
      (trace (run check_copy_spec (sample_stage (StageDependencies web_etc)))) /\
  outcome (run check_then_sync (sample_stage (StageDependencies web_lib_etc)))
  = RejectedWith
      (ConfigurationError
         "Target path in build dependency copy spec must be a relative path"
         {| source := "conf"; target := "/etc/foo" |}) /\
  In (Fulfilled (execa "rsync" rsync_lib))
     (trace (run check_then_sync (sample_stage (StageDependencies web_lib_etc)))).
Proof.
  split; [exact web_etc_hasAbsoluteCopySpec|]. split; [reflexivity|]. split.
  - intros H. apply (H (ensureDir "/proj/.garden/build/web")). in_list.
  - split; [reflexivity|in_list].
Qed.


(** [clear] after [factory] on "/proj/.garden": emptying the build directory
    of [sample_tree] removes the staged file of [web] and keeps its recorded
    version. *)
Lemma clear_leaves_build_metadata_witness :
  In (Call (emptyDir "/proj/.garden/build"))
     (trace (run [fulfil 0; fulfil 0]
               (factory (path_module := sample_path) "/proj" "/proj/.garden" clear))) /\
  (exists tree',
     fs_emptyDir ["proj"; ".garden"; "build"] sample_tree = Some tree' /\
     tree' ["proj"; ".garden"; "build"; "web"; "main.js"] = None /\
     tree' ["proj"; ".garden"; "build-metadata"; "web"; "version"]
     = sample_tree ["proj"; ".garden"; "build-metadata"; "web"; "version"]).
Proof.
  assert (H : In (Call (emptyDir "/proj/.garden/build"))
                 (trace (run [fulfil 0; fulfil 0]
                           (factory (path_module := sample_path)
                              "/proj" "/proj/.garden" clear))))
    by in_list.
  split; [exact H|].
  destruct (fs_emptyDir ["proj"; ".garden"; "build"] sample_tree) as [tree'|] eqn:Hempty;
    [|discriminate Hempty].
  exists tree'. split; [reflexivity|]. split.
  - inversion Hempty. reflexivity.
  - exact (proj1 (proj2 (@clear_leaves_build_metadata ["home"; "dev"] "/proj"
                           "/proj/.garden" [fulfil 0; fulfil 0]
                           (emptyDir "/proj/.garden/build") H))
             "/proj/.garden/build" sample_tree tree'
             ["proj"; ".garden"; "build-metadata"; "web"; "version"]
             eq_refl Hempty eq_refl).
Defined.

(** * Further properties *)

(** ** Executions in which the host rejects nothing *)

Lemma run_invariant_ok (I : State -> Prop) p :
  I (start p initial) ->
  (forall s c, ok c = true -> I s -> I (step s c)) ->
  forall sched, all_ok sched -> I (run sched p).
Proof.
  intros H0 Hstep sched. induction sched as [|c sched IH] using rev_ind; intros Hok.
  - exact H0.
  - unfold all_ok in Hok. apply Forall_app in Hok. destruct Hok as [Hs Hc].
    inversion Hc; subst. rewrite run_snoc. apply Hstep; auto.
Qed.

Lemma all_ok_fulfil_all sched n : all_ok sched -> all_ok (sched ++ fulfil_all n).
Proof.
  intros H. unfold all_ok. apply Forall_app. split; [exact H|].
  unfold fulfil_all. apply Forall_forall. intros c Hc.
  apply repeat_spec in Hc. now subst.
Qed.

Lemma ok_run_no_Rejected p sched io :
  all_ok sched -> ~ In (Rejected io) (trace (run sched p)).
Proof.
  intros Hok. revert io.
  apply run_invariant_ok with (I := fun s => forall io, ~ In (Rejected io) (trace s));
    [| |exact Hok].
  - intros io. destruct (start_shape p initial) as (evs & ps & Ht & _ & Hev & _).
    rewrite Ht. simpl. now apply emitted_not_Rejected.
  - intros s c Hc Hs io Hin. apply (Hs io). now apply step_ok_Rejected in Hin.
Qed.

(** When nothing is rejected, the budget of the code is used up by what was
    executed and what the code in flight will execute. *)
Lemma ok_run_budget p sched :
  all_ok sched ->
  execa_calls (trace (run sched p)) + pending_budget (run sched p) = execa_budget p.
Proof.
  apply run_invariant_ok
    with (I := fun s => execa_calls (trace s) + pending_budget s = execa_budget p).
  - rewrite start_budget. unfold pending_budget, execa_calls. simpl. lia.
  - intros s c Hc Hs. unfold step.
    destruct (nth_error (pending s) (idx c)) as [[io k|a calls|e]|] eqn:Hnth;
      [| | |exact Hs];
      rewrite (pending_budget_remove _ _ Hnth) in Hs; simpl task_budget in Hs.
    + rewrite Hc, start_budget. simpl. rewrite execa_calls_snoc.
      unfold pending_budget in *. simpl in *. lia.
    + rewrite iterate_budget. unfold pending_budget in *. simpl in *. lia.
    + unfold pending_budget in *. simpl in *. lia.
Qed.

(** ** Every request of the code is made *)

Lemma awaited_map a calls : awaited (BluebirdMap a calls) = awaited_all a calls.
Proof.
  induction calls as [|q rest IH]; simpl; [reflexivity|].
  destruct (sync_throw a q); [reflexivity|]. simpl in IH. now rewrite IH.
Qed.

Lemma start_trace_incl p s ev : In ev (trace s) -> In ev (trace (start p s)).
Proof.
  destruct (start_shape p s) as (evs & ps & Ht & _). rewrite Ht.
  intros H. apply in_or_app. now left.
Qed.

Lemma iterate_trace_incl a calls s ev :
  In ev (trace s) -> In ev (trace (iterate a calls s)).
Proof.
  destruct (iterate_shape a calls s) as (evs & ps & Ht & _). rewrite Ht.
  intros H. apply in_or_app. now left.
Qed.

Lemma underway_more io s s' :
  (forall ev, In ev (trace s) -> In ev (trace s')) ->
  (forall task, In task (pending s) -> In task (pending s')) ->
  underway io s -> underway io s'.
Proof.
  intros Ht Hp [H|(task & Hin & Hio)].
  - left. auto.
  - right. exists task. auto.
Qed.

Lemma start_keeps_underway io p s : underway io s -> underway io (start p s).
Proof.
  apply underway_more.
  - intros ev. apply start_trace_incl.
  - intros task. apply start_pending_incl.
Qed.

Lemma iterate_keeps_underway io a calls s :
  underway io s -> underway io (iterate a calls s).
Proof.
  apply underway_more.
  - intros ev. apply iterate_trace_incl.
  - intros task. apply iterate_pending_incl.
Qed.

Lemma underway_suspend io task s :
  In io (task_awaited task) -> underway io (suspend task s).
Proof.
  intros H. right. exists task. split; [|exact H].
  simpl. apply in_or_app. right. now left.
Qed.

Lemma start_underway p : forall s io, In io (awaited p) -> underway io (start p s).
Proof.
  induction p as [|e|io' k _|msg k IH|a calls _] using Proc_induction; intros s io Hin.
  - destruct Hin.
  - destruct Hin.
  - simpl in Hin. destruct Hin as [-> | Hin].
    + left. simpl. apply in_or_app. right. now left.
    + now apply underway_suspend.
  - simpl. now apply IH.
  - rewrite awaited_map in Hin. now apply underway_suspend.
Qed.

Lemma iterate_underway a calls : forall s io,
  In io (awaited_all a calls) -> underway io (iterate a calls s).
Proof.
  induction calls as [|q rest IH]; intros s io Hin; simpl in *; [destruct Hin|].
  destruct (sync_throw a q) as [e|]; [destruct Hin|].
  apply in_app_or in Hin. destruct Hin as [Hin|Hin].
  - apply iterate_keeps_underway. now apply start_underway.
  - now apply IH.
Qed.

Lemma step_underway io s c : ok c = true -> underway io s -> underway io (step s c).
Proof.
  intros Hc Hs. unfold step.
  destruct (nth_error (pending s) (idx c)) as [task|] eqn:Hnth; [|exact Hs].
  set (s' := {| trace := trace s; pending := remove_nth (idx c) (pending s);
                rejection := rejection s |}).
  assert (Hcase : In io (task_awaited task) \/ underway io s').
  { destruct Hs as [H|(task' & Hin & Hio)]; [right; now left|].
    destruct (remove_nth_other _ _ _ Hnth Hin) as [->|Hin']; [now left|].
    right. right. exists task'. auto. }
  destruct task as [io' k|a calls|e].
  - rewrite Hc. destruct Hcase as [Hio|Hw].
    + now apply start_underway.
    + apply start_keeps_underway. revert Hw. apply underway_more; simpl; auto.
      intros ev H. apply in_or_app. now left.
  - destruct Hcase as [Hio|Hw].
    + now apply iterate_underway.
    + now apply iterate_keeps_underway.
  - destruct Hcase as [[]|Hw]. revert Hw. apply underway_more; simpl; auto.
Qed.

(** When nothing is rejected, every request of the code has been made or code
    in flight is to make it. *)
Lemma awaited_run p sched io :
  all_ok sched -> In io (awaited p) -> underway io (run sched p).
Proof.
  intros Hok Hin.
  apply run_invariant_ok with (I := underway io); [|apply step_underway|exact Hok].
  now apply start_underway.
Qed.

(** ** Every request made is answered *)

Lemma answered_emit ev s :
  (forall io, ev <> Call io) -> answered s -> answered (emit ev s).
Proof.
  intros Hev Hs io Hin. simpl in Hin. apply in_app_or in Hin.
  destruct Hin as [Hin|[Hin|[]]]; [|now destruct (Hev io)].
  destruct (Hs io Hin) as [H|[H|H]].
  - left. simpl. apply in_or_app. now left.
  - right. left. simpl. apply in_or_app. now left.
  - right. right. exact H.
Qed.

Lemma answered_suspend task s : answered s -> answered (suspend task s).
Proof.
  intros Hs io Hin. destruct (Hs io Hin) as [H|[H|(k & H)]]; auto.
  right. right. exists k. simpl. apply in_or_app. now left.
Qed.

Lemma answered_await io k s :
  answered s -> answered (suspend (Awaiting io k) (emit (Call io) s)).
Proof.
  intros Hs io' Hin. simpl in Hin. apply in_app_or in Hin.
  destruct Hin as [Hin|[Hin|[]]].
  - destruct (Hs io' Hin) as [H|[H|(k' & H)]].
    + left. simpl. apply in_or_app. now left.
    + right. left. simpl. apply in_or_app. now left.
    + right. right. exists k'. simpl. apply in_or_app. now left.
  - inversion Hin; subst. right. right. exists k. simpl.
    apply in_or_app. right. now left.
Qed.

Lemma start_answered p : forall s, answered s -> answered (start p s).
Proof.
  induction p as [|e|io k _|msg k IH|a calls _] using Proc_induction; intros s Hs.
  - exact Hs.
  - unfold start, throw. apply answered_suspend, answered_emit; [discriminate|exact Hs].
  - now apply answered_await.
  - simpl. apply IH. apply answered_emit; [discriminate|exact Hs].
  - now apply answered_suspend.
Qed.

Lemma iterate_answered a calls : forall s, answered s -> answered (iterate a calls s).
Proof.
  induction calls as [|q rest IH]; intros s Hs; simpl; [exact Hs|].
  destruct (sync_throw a q) as [e|].
  - unfold throw. apply answered_suspend, answered_emit; [discriminate|exact Hs].
  - apply IH. now apply start_answered.
Qed.

Lemma step_answered s c : answered s -> answered (step s c).
Proof.
  intros Hs. unfold step.
  destruct (nth_error (pending s) (idx c)) as [task|] eqn:Hnth; [|exact Hs].
  set (s' := {| trace := trace s; pending := remove_nth (idx c) (pending s);
                rejection := rejection s |}).
  destruct task as [io k|a calls|e].
  - assert (Hs' : forall ev, ev = Fulfilled io \/ ev = Rejected io ->
                             answered (emit ev s')).
    { intros ev Hev io' Hin. simpl in Hin. apply in_app_or in Hin.
      destruct Hin as [Hin|[Hin|[]]]; [|destruct Hev; subst; discriminate].
      destruct (Hs io' Hin) as [H|[H|(k' & H)]].
      - left. simpl. apply in_or_app. now left.
      - right. left. simpl. apply in_or_app. now left.
      - destruct (remove_nth_other _ _ _ Hnth H) as [Heq|Hin'].
        + inversion Heq; subst. destruct Hev as [-> | ->].
          * left. simpl. apply in_or_app. right. now left.
          * right. left. simpl. apply in_or_app. right. now left.
        + right. right. exists k'. exact Hin'. }
    destruct (ok c).
    + apply start_answered. apply Hs'. now left.
    + apply answered_suspend. apply Hs'. now right.
  - apply iterate_answered. intros io Hin.
    destruct (Hs io Hin) as [H|[H|(k' & H)]]; auto.
    destruct (remove_nth_other _ _ _ Hnth H) as [Heq|Hin']; [discriminate|].
    right. right. exists k'. exact Hin'.
  - intros io Hin. destruct (Hs io Hin) as [H|[H|(k' & H)]]; auto.
    destruct (remove_nth_other _ _ _ Hnth H) as [Heq|Hin']; [discriminate|].
    right. right. exists k'. exact Hin'.
Qed.

Lemma answered_run p sched : answered (run sched p).
Proof.
  apply run_invariant with (I := answered).
  - apply start_answered. intros io [].
  - apply step_answered.
Qed.

(** When the host rejects nothing and nothing is in flight any more, every
    request of the code was made and fulfilled. *)
Lemma awaited_fulfilled p sched io :
  all_ok sched -> pending (run sched p) = [] -> In io (awaited p) ->
  In (Fulfilled io) (trace (run sched p)).
Proof.
  intros Hok Hp Hin.
  destruct (@awaited_run p sched io Hok Hin) as [Hcall|(task & Htask & _)].
  2:{ rewrite Hp in Htask. destruct Htask. }
  destruct (answered_run p sched io Hcall) as [H|[H|(k & H)]].
  - exact H.
  - destruct (@ok_run_no_Rejected p sched io Hok H).
  - rewrite Hp in H. destruct H.
Qed.

(** ** Linear code follows its script, event for event *)

Lemma start_script full p : forall s,
  linear p -> pending s = [] -> rejection s = None ->
  (trace s ++ full_trace p)%list = full ->
  follows_script full (start p s).
Proof.
  induction p as [|e|io k _|msg k IH|a calls _] using Proc_induction;
    intros s Hl Hp Hr Hfull; simpl in *.
  - right. left. rewrite app_nil_r in Hfull. auto.
  - right. right. right. exists e. simpl. rewrite Hp. auto.
  - left. exists io, k. simpl. rewrite Hp. repeat split; auto.
    rewrite <- app_assoc. exact Hfull.
  - apply IH; auto. simpl. rewrite <- app_assoc. exact Hfull.
  - contradiction.
Qed.

Lemma step_script full s c : follows_script full s -> follows_script full (step s c).
Proof.
  intros Hs. unfold step.
  destruct (nth_error (pending s) (idx c)) as [task|] eqn:Hnth; [|exact Hs].
  destruct Hs as [(io & k & Hp & Hl & Hr & Hfull)
                 |[(Hp & _)
                  |[(t & io & rest & Ht & Hfull & [[Hp Hr]|[Hp Hr]])
                   |(e & Ht & [[Hp Hr]|[Hp Hr]])]]];
    rewrite Hp in *;
    try (destruct (idx c); discriminate).
  - destruct (idx c) as [|n]; simpl in Hnth; [|destruct n; discriminate].
    inversion Hnth; subst task. destruct (ok c).
    + apply start_script; simpl; auto. rewrite <- app_assoc. exact Hfull.
    + right. right. left. exists (trace s), io, (full_trace k). simpl. auto.
  - destruct (idx c) as [|n]; simpl in Hnth; [|destruct n; discriminate].
    inversion Hnth; subst task. right. right. left. exists t, io, rest. simpl.
    rewrite Hr. auto.
  - destruct (idx c) as [|n]; simpl in Hnth; [|destruct n; discriminate].
    inversion Hnth; subst task. right. right. right. exists e. simpl.
    rewrite Hr. auto.
Qed.

Lemma script_run p sched : linear p -> follows_script (full_trace p) (run sched p).
Proof.
  intros Hl. apply run_invariant with (I := follows_script (full_trace p)).
  - now apply start_script.
  - apply step_script.
Qed.

Lemma full_trace_no_Rejected p io : ~ In (Rejected io) (full_trace p).
Proof.
  induction p as [|e|io' k IH|msg k IH|a calls _] using Proc_induction; simpl.
  - auto.
  - intros [H|[]]. discriminate.
  - intros [H|[H|H]]; try discriminate. auto.
  - intros [H|H]; [discriminate|auto].
  - auto.
Qed.

(** ** Programs are executed right after they are announced *)

Section Announced.

Variable announce : list string -> string -> Prop.

Lemma announced_map a calls :
  announced announce (BluebirdMap a calls) = announced_all announce a calls.
Proof.
  induction calls as [|q rest IH]; simpl; [reflexivity|].
  destruct (sync_throw a q); [reflexivity|]. simpl in IH. now rewrite IH.
Qed.

Lemma trace_announced_snoc t ev :
  (forall file args, ev <> Call (execa file args)) ->
  trace_announced announce t -> trace_announced announce (t ++ [ev]).
Proof.
  intros Hev Ht t1 file args t2 Heq.
  apply snoc_split in Heq. destruct Heq as [(_ & _ & ->)|(t2' & _ & ->)].
  - now destruct (Hev file args).
  - eapply Ht; eauto.
Qed.

Lemma trace_announced_execa t msg file args :
  announce args msg ->
  trace_announced announce t ->
  trace_announced announce ((t ++ [Logged msg]) ++ [Call (execa file args)]).
Proof.
  intros Ha Ht t1 file' args' t2 Heq.
  apply snoc_split in Heq. destruct Heq as [(_ & <- & Hev)|(t2' & _ & Heq)].
  - inversion Hev; subst. eauto.
  - apply snoc_split in Heq. destruct Heq as [(_ & _ & Hev)|(t2'' & _ & ->)].
    + discriminate.
    + eapply Ht; eauto.
Qed.

#[local] Abbreviation announced_state := (announced_state announce).

Lemma announced_state_emit ev s :
  (forall file args, ev <> Call (execa file args)) ->
  announced_state s -> announced_state (emit ev s).
Proof.
  intros Hev [Ht Hp]. split; [|exact Hp]. simpl. now apply trace_announced_snoc.
Qed.

Lemma announced_state_suspend task s :
  task_announced announce task -> announced_state s -> announced_state (suspend task s).
Proof.
  intros Htask [Ht Hp]. split; [exact Ht|].
  intros task' Hin. simpl in Hin. apply in_app_or in Hin.
  destruct Hin as [Hin|[<-|[]]]; auto.
Qed.

Lemma not_execa_call io file args : is_execa io = false -> Call io <> Call (execa file args).
Proof. intros H Heq. inversion Heq; subst. discriminate. Qed.

Lemma start_announced p : forall s,
  announced announce p -> announced_state s -> announced_state (start p s).
Proof.
  induction p as [|e|io k _|msg k IH|a calls _] using Proc_induction; intros s Ha Hs.
  - exact Hs.
  - unfold start, throw. apply announced_state_suspend; [exact I|].
    apply announced_state_emit; [discriminate|exact Hs].
  - destruct Ha as [Hio Hk]. unfold start.
    apply announced_state_suspend; [exact Hk|].
    apply announced_state_emit; [|exact Hs].
    intros file args. now apply not_execa_call.
  - destruct k as [|e|io k'|msg' k'|a calls].
    + simpl. apply announced_state_emit; [discriminate|exact Hs].
    + apply IH; [exact I|]. apply announced_state_emit; [discriminate|exact Hs].
    + destruct io as [dir|dir|file args].
      * apply IH; [exact Ha|]. apply announced_state_emit; [discriminate|exact Hs].
      * apply IH; [exact Ha|]. apply announced_state_emit; [discriminate|exact Hs].
      * simpl in Ha. destruct Ha as [Hmsg Hk']. simpl.
        apply announced_state_suspend; [exact Hk'|].
        destruct Hs as [Ht Hp]. split; [|exact Hp]. simpl.
        now apply trace_announced_execa.
    + apply IH; [exact Ha|]. apply announced_state_emit; [discriminate|exact Hs].
    + apply IH; [exact Ha|]. apply announced_state_emit; [discriminate|exact Hs].
  - unfold start. apply announced_state_suspend; [|exact Hs].
    simpl. rewrite <- announced_map. exact Ha.
Qed.

Lemma iterate_announced a calls : forall s,
  announced_all announce a calls -> announced_state s ->
  announced_state (iterate a calls s).
Proof.
  induction calls as [|q rest IH]; intros s Ha Hs; simpl in *; [exact Hs|].
  destruct (sync_throw a q) as [e|].
  - unfold throw. apply announced_state_suspend; [exact I|].
    apply announced_state_emit; [discriminate|exact Hs].
  - destruct Ha as [Hq Hrest]. apply IH; [assumption|]. now apply start_announced.
Qed.

Lemma step_announced s c : announced_state s -> announced_state (step s c).
Proof.
  intros Hs. unfold step.
  destruct (nth_error (pending s) (idx c)) as [task|] eqn:Hnth; [|exact Hs].
  set (s' := {| trace := trace s; pending := remove_nth (idx c) (pending s);
                rejection := rejection s |}).
  assert (Htask : task_announced announce task).
  { destruct Hs as [_ Hp]. apply Hp. eapply nth_error_In; eauto. }
  assert (Hs' : announced_state s').
  { destruct Hs as [Ht Hp]. split; [exact Ht|].
    intros task' Hin. simpl in Hin. apply In_remove_nth in Hin. auto. }
  destruct task as [io k|a calls|e].
  - destruct (ok c).
    + apply start_announced; [exact Htask|].
      apply announced_state_emit; [discriminate|exact Hs'].
    + apply announced_state_suspend; [exact I|].
      apply announced_state_emit; [discriminate|exact Hs'].
  - now apply iterate_announced.
  - destruct Hs' as [Ht Hp]. split; [exact Ht|exact Hp].
Qed.

Lemma announced_run p sched :
  announced announce p -> trace_announced announce (trace (run sched p)).
Proof.
  intros Ha.
  assert (H : announced_state (run sched p)).
  { apply run_invariant with (I := announced_state).
    - apply start_announced; [exact Ha|]. split.
      + intros t1 file args t2 Heq. destruct t1; discriminate.
      + intros task [].
    - apply step_announced. }
  exact (proj1 H).
Qed.

End Announced.

(** ** No request is made more often than the code provides for *)

Lemma calls_where_app f t t' :
  calls_where f (t ++ t') = calls_where f t + calls_where f t'.
Proof. unfold calls_where. now rewrite filter_app, length_app. Qed.

Lemma calls_where_snoc f t ev :
  calls_where f (t ++ [ev]) =
  calls_where f t + match ev with Call io => if f io then 1 else 0 | _ => 0 end.
Proof.
  rewrite calls_where_app. f_equal. unfold calls_where. simpl.
  destruct ev; try reflexivity. destruct (f io); reflexivity.
Qed.

Lemma pending_where_remove f s n task :
  nth_error (pending s) n = Some task ->
  pending_where f s =
  length (filter f (task_awaited task)) +
  pending_where f {| trace := trace s; pending := remove_nth n (pending s);
                     rejection := rejection s |}.
Proof.
  unfold pending_where. simpl. generalize (pending s). clear s.
  intros l. revert n. induction l as [|x l IH]; intros n Hn.
  - destruct n; discriminate.
  - destruct n; simpl in *.
    + inversion Hn; subst. reflexivity.
    + rewrite (IH _ Hn). lia.
Qed.

Lemma pending_where_suspend f task s :
  pending_where f (suspend task s) =
  pending_where f s + length (filter f (task_awaited task)).
Proof. unfold pending_where. simpl. rewrite map_app, list_sum_app. simpl. lia. Qed.

Lemma filter_cons_length {A : Type} (f : A -> bool) x l :
  length (filter f (x :: l)) = (if f x then 1 else 0) + length (filter f l).
Proof. simpl. destruct (f x); reflexivity. Qed.

Lemma start_where f p : forall s,
  calls_where f (trace (start p s)) + pending_where f (start p s) =
  calls_where f (trace s) + pending_where f s + length (filter f (awaited p)).
Proof.
  induction p as [|e|io k _|msg k IH|a calls _] using Proc_induction; intros s.
  - simpl. lia.
  - unfold start, throw. rewrite pending_where_suspend. simpl.
    rewrite calls_where_snoc. unfold pending_where. simpl. lia.
  - unfold start. rewrite pending_where_suspend. cbn [awaited task_awaited].
    rewrite filter_cons_length. simpl trace. rewrite calls_where_snoc.
    unfold pending_where. simpl. lia.
  - simpl. rewrite IH. simpl. rewrite calls_where_snoc.
    unfold pending_where. simpl. lia.
  - unfold start. rewrite pending_where_suspend, awaited_map. simpl. lia.
Qed.

Lemma iterate_where f a calls : forall s,
  calls_where f (trace (iterate a calls s)) + pending_where f (iterate a calls s) =
  calls_where f (trace s) + pending_where f s + length (filter f (awaited_all a calls)).
Proof.
  induction calls as [|q rest IH]; intros s; simpl; [lia|].
  destruct (sync_throw a q) as [e|].
  - unfold throw. rewrite pending_where_suspend. simpl.
    rewrite calls_where_snoc. unfold pending_where. simpl. lia.
  - rewrite IH, start_where, filter_app, length_app. lia.
Qed.

(** In every execution, the requests of a kind made so far and those the code
    in flight may still make are no more than the code makes of that kind
    when nothing fails. *)
Lemma where_run f p sched :
  calls_where f (trace (run sched p)) + pending_where f (run sched p)
  <= length (filter f (awaited p)).
Proof.
  apply run_invariant
    with (I := fun s => calls_where f (trace s) + pending_where f s
                        <= length (filter f (awaited p))).
  - rewrite start_where. unfold pending_where, calls_where. simpl. lia.
  - intros s c Hs. unfold step.
    destruct (nth_error (pending s) (idx c)) as [[io k|a calls|e]|] eqn:Hnth;
      [| | |exact Hs];
      rewrite (pending_where_remove f _ _ Hnth) in Hs; cbn [task_awaited] in Hs.
    + destruct (ok c).
      * rewrite start_where. simpl. rewrite calls_where_snoc.
        unfold pending_where in *. simpl in *. lia.
      * rewrite pending_where_suspend. simpl. rewrite calls_where_snoc.
        unfold pending_where in *. simpl in *. lia.
    + rewrite iterate_where. unfold pending_where in *. simpl in *. lia.
    + unfold pending_where in *. simpl in *. lia.
Qed.

(** ** Suffixes of strings *)

Lemma length_append a b :
  String.length (a ++ b) = String.length a + String.length b.
Proof. induction a as [|c a IH]; simpl; [reflexivity|]. now rewrite IH. Qed.

Lemma substring_0_all b : substring 0 (String.length b) b = b.
Proof. induction b as [|c b IH]; simpl; [reflexivity|]. now rewrite IH. Qed.

Lemma substring_append_r a b :
  substring (String.length a) (String.length b) (a ++ b) = b.
Proof. induction a as [|c a IH]; simpl; [apply substring_0_all|exact IH]. Qed.

Lemma substring_append_l a b : substring 0 (String.length a) (a ++ b) = a.
Proof.
  induction a as [|c a IH]; simpl.
  - destruct b; reflexivity.
  - now rewrite IH.
Qed.

Lemma substring_split s : forall n,
  n <= String.length s ->
  s = substring 0 n s ++ substring n (String.length s - n) s.
Proof.
  induction s as [|c s IH]; intros n Hn; simpl in *.
  - destruct n; [reflexivity|lia].
  - destruct n as [|n]; simpl.
    + now rewrite substring_0_all.
    + f_equal. apply IH. lia.
Qed.

Lemma endsWith_append a suffix : endsWith (a ++ suffix) suffix = true.
Proof.
  unfold endsWith. rewrite length_append.
  replace (Nat.leb (String.length suffix) (String.length a + String.length suffix))
    with true by (symmetry; apply Nat.leb_le; lia).
  replace (String.length a + String.length suffix - String.length suffix)
    with (String.length a) by lia.
  rewrite substring_append_r. apply String.eqb_refl.
Qed.

Lemma endsWith_inv s suffix : endsWith s suffix = true -> exists a, s = a ++ suffix.
Proof.
  unfold endsWith.
  destruct (Nat.leb (String.length suffix) (String.length s)) eqn:Hle; [|discriminate].
  apply Nat.leb_le in Hle. intros H. apply String.eqb_eq in H.
  exists (substring 0 (String.length s - String.length suffix) s).
  assert (Hsplit := @substring_split s (String.length s - String.length suffix)).
  replace (String.length s - (String.length s - String.length suffix))
    with (String.length suffix) in Hsplit by lia.
  rewrite H in Hsplit. apply Hsplit. lia.
Qed.

Lemma append_snoc_inj a : forall b c d,
  a ++ String c "" = b ++ String d "" -> a = b /\ c = d.
Proof.
  induction a as [|x a IH]; intros [|y b] c d H; simpl in H.
  - inversion H. auto.
  - inversion H. destruct b; discriminate.
  - inversion H. destruct a; discriminate.
  - inversion H; subst. destruct (IH _ _ _ H2) as [-> ->]. auto.
Qed.

Lemma string_snoc s : s <> "" -> exists s' c, s = s' ++ String c "".
Proof.
  induction s as [|c s IH]; [congruence|]. intros _.
  destruct s as [|c' s].
  - exists "", c. reflexivity.
  - destruct IH as (s' & d & Hs); [discriminate|].
    exists (String c s'), d. simpl. now rewrite <- Hs.
Qed.

Lemma slice_0_neg1_snoc a c : slice_0_neg1 (a ++ String c "") = a.
Proof.
  unfold slice_0_neg1. rewrite length_append. simpl.
  replace (String.length a + 1 - 1) with (String.length a) by lia.
  apply substring_append_l.
Qed.

Lemma has_slash_app a b : has_slash (a ++ b) = has_slash a || has_slash b.
Proof.
  induction a as [|c a IH]; simpl; [reflexivity|]. rewrite IH. apply orb_assoc.
Qed.

(** A path with a trailing separator does not end with the wildcard. *)
Lemma endsWith_wildcard_slash a : endsWith (a ++ "/") "/*" = false.
Proof.
  destruct (endsWith (a ++ "/") "/*") eqn:H; [|reflexivity].
  apply endsWith_inv in H. destruct H as [b Hb].
  change (b ++ "/*") with (b ++ "/" ++ "*") in Hb.
  rewrite <- append_assoc' in Hb.
  apply append_snoc_inj in Hb. destruct Hb as [_ Hb]. discriminate.
Qed.

Lemma stripWildcard_wildcard_slash a : stripWildcard (a ++ "/*") = a ++ "/".
Proof.
  unfold stripWildcard. rewrite endsWith_append.
  change (a ++ "/*") with (a ++ "/" ++ "*"). rewrite <- append_assoc'.
  apply slice_0_neg1_snoc.
Qed.

Lemma stripWildcard_not_wildcard p : endsWith (stripWildcard p) "/*" = false.
Proof.
  unfold stripWildcard. destruct (endsWith p "/*") eqn:H; [|exact H].
  apply endsWith_inv in H. destruct H as [a ->].
  change (a ++ "/*") with (a ++ "/" ++ "*"). rewrite <- append_assoc'.
  rewrite slice_0_neg1_snoc. apply endsWith_wildcard_slash.
Qed.

(** The directory of a name under a directory ends with the wildcard only for
    the name "*". *)
Lemma endsWith_wildcard_child dir n :
  is_segment n = true -> n <> "*" -> endsWith (child dir n) "/*" = false.
Proof.
  intros Hn Hstar. destruct (is_segment_spec _ Hn) as (Hne & _ & _ & _ & Hslash).
  destruct (endsWith (child dir n) "/*") eqn:H; [|reflexivity].
  apply endsWith_inv in H. destruct H as [b Hb]. unfold child in Hb.
  set (d := if String.eqb dir "/" then "" else dir) in Hb.
  destruct (string_snoc Hne) as (n' & c & ->).
  change (b ++ "/*") with (b ++ "/" ++ "*") in Hb.
  rewrite <- !append_assoc' in Hb.
  apply append_snoc_inj in Hb. destruct Hb as [Hb ->].
  destruct (String.eqb_spec n' "") as [->|Hn']; [now destruct Hstar|].
  destruct (string_snoc Hn') as (n'' & c'' & ->).
  rewrite <- append_assoc' in Hb.
  apply append_snoc_inj in Hb. destruct Hb as [_ ->].
  rewrite !has_slash_app in Hslash. simpl in Hslash.
  rewrite orb_true_r in Hslash. discriminate.
Qed.

(** ** Code after a request *)

Lemma emit_after t ev s : emit ev (after t s) = after t (emit ev s).
Proof. unfold emit, after. simpl. now rewrite app_assoc. Qed.

Lemma suspend_after t task s : suspend task (after t s) = after t (suspend task s).
Proof. reflexivity. Qed.

Lemma start_after t p : forall s, start p (after t s) = after t (start p s).
Proof.
  induction p as [|e|io k _|msg k IH|a calls _] using Proc_induction; intros s; simpl.
  - reflexivity.
  - unfold throw. now rewrite emit_after, suspend_after.
  - now rewrite emit_after, suspend_after.
  - now rewrite emit_after, IH.
  - now rewrite suspend_after.
Qed.

Lemma iterate_after t a calls : forall s,
  iterate a calls (after t s) = after t (iterate a calls s).
Proof.
  induction calls as [|q rest IH]; intros s; simpl; [reflexivity|].
  destruct (sync_throw a q) as [e|].
  - unfold throw. now rewrite emit_after, suspend_after.
  - now rewrite start_after, IH.
Qed.

Lemma step_after t s c : step (after t s) c = after t (step s c).
Proof.
  unfold step. simpl pending.
  destruct (nth_error (pending s) (idx c)) as [[io k|a calls|e]|]; [| | |reflexivity].
  - destruct (ok c).
    + change {| trace := trace (after t s); pending := remove_nth (idx c) (pending s);
                rejection := rejection (after t s) |}
        with (after t {| trace := trace s; pending := remove_nth (idx c) (pending s);
                         rejection := rejection s |}).
      now rewrite emit_after, start_after.
    + change {| trace := trace (after t s); pending := remove_nth (idx c) (pending s);
                rejection := rejection (after t s) |}
        with (after t {| trace := trace s; pending := remove_nth (idx c) (pending s);
                         rejection := rejection s |}).
      now rewrite emit_after, suspend_after.
  - change {| trace := trace (after t s); pending := remove_nth (idx c) (pending s);
              rejection := rejection (after t s) |}
      with (after t {| trace := trace s; pending := remove_nth (idx c) (pending s);
                       rejection := rejection s |}).
    now rewrite iterate_after.
  - reflexivity.
Qed.

Lemma after_after t t' s : after t (after t' s) = after (t ++ t') s.
Proof. unfold after. simpl. now rewrite app_assoc. Qed.

Lemma outcome_after t s : outcome (after t s) = outcome s.
Proof. reflexivity. Qed.

(** An execution of [await io; k]: the request is in flight; or it was
    fulfilled, and what follows is an execution of [k]; or it was rejected,
    and nothing follows. *)
Lemma run_Await io k sched :
  (trace (run sched (Await io k)) = [Call io] /\
   pending (run sched (Await io k)) = [Awaiting io k] /\
   rejection (run sched (Await io k)) = None)
  \/
  (exists sched',
     run sched (Await io k) = after [Call io; Fulfilled io] (run sched' k))
  \/
  (trace (run sched (Await io k)) = [Call io; Rejected io] /\
   ((pending (run sched (Await io k)) = [Rejecting (IOError io)] /\
     rejection (run sched (Await io k)) = None) \/
    (pending (run sched (Await io k)) = [] /\
     rejection (run sched (Await io k)) = Some (IOError io)))).
Proof.
  induction sched as [|c sched IH] using rev_ind.
  - left. simpl. auto.
  - rewrite run_snoc.
    destruct IH as [(Ht & Hp & Hr)|[(sched' & Hs)|(Ht & [[Hp Hr]|[Hp Hr]])]].
    + unfold step. rewrite Hp.
      destruct (idx c) as [|n]; simpl; [|destruct n; left; auto].
      destruct (ok c).
      * right. left. exists []. rewrite Ht, Hr.
        change {| trace := ([Call io] ++ [Fulfilled io])%list; pending := [];
                  rejection := None |}
          with (after [Call io; Fulfilled io] initial).
        unfold emit. simpl.
        change {| trace := [Call io; Fulfilled io]; pending := []; rejection := None |}
          with (after [Call io; Fulfilled io] initial).
        now rewrite start_after.
      * right. right. simpl. rewrite Ht, Hr. simpl. auto.
    + right. left. exists (sched' ++ [c])%list.
      rewrite Hs, step_after, run_snoc. reflexivity.
    + unfold step. rewrite Hp.
      destruct (idx c) as [|n]; simpl; [|destruct n; right; right; auto].
      right. right. simpl. rewrite Hr. auto.
    + unfold step. rewrite Hp. destruct (idx c); simpl; right; right; auto.
Qed.

Lemma run_Ret sched : run sched Ret = initial.
Proof.
  induction sched as [|c sched IH] using rev_ind; [reflexivity|].
  rewrite run_snoc, IH. unfold step. simpl. now destruct (idx c).
Qed.

(** An execution of a map: the iteration is still to come, or it took place
    and other turns followed. *)
Lemma run_BluebirdMap a calls sched :
  run sched (BluebirdMap a calls) = suspend (Iterating a calls) initial \/
  exists more, run sched (BluebirdMap a calls) = fold_left step more (iterate a calls initial).
Proof.
  induction sched as [|c sched IH] using rev_ind; [now left|].
  rewrite run_snoc. destruct IH as [IH|[more IH]]; rewrite IH.
  - unfold step. simpl. destruct (idx c) as [|n]; simpl.
    + right. exists []. reflexivity.
    + left. now destruct n.
  - right. exists (more ++ [c])%list. now rewrite fold_left_app.
Qed.

Lemma steps_trace more : forall s,
  exists evs, trace (fold_left step more s) = (trace s ++ evs)%list.
Proof.
  induction more as [|c more IH]; intros s; simpl.
  - exists []. now rewrite app_nil_r.
  - destruct (IH (step s c)) as [evs Hevs]. destruct (step_trace s c) as [evs' Hc].
    rewrite Hevs, Hc, <- app_assoc. eauto.
Qed.

Lemma iterate_all_Ret a calls s : Forall (fun q => q = Ret) calls -> iterate a calls s = s.
Proof.
  induction 1 as [|q rest Hq _ IH]; simpl; [reflexivity|].
  subst q. destruct a; exact IH.
Qed.

Lemma beforeAbsolute_relative {path_module : PathModule} specs :
  (forall c, In c specs -> hasAbsolutePath c = false) -> beforeAbsolute specs = specs.
Proof.
  induction specs as [|c rest IH]; intros H; simpl; [reflexivity|].
  rewrite (H c) by now left. f_equal. apply IH. intros c' Hc'. apply H. now right.
Qed.

(** ** More on the staging operations *)

Section MoreStaging.

Context {path_module : PathModule}.
Variable platform : string.
Variable toCygwinPath : string -> string.
Variable getModuleKey : string -> option string -> string.
Variable this : BuildDir.

#[local] Abbreviation sync' := (sync platform toCygwinPath this).
#[local] Abbreviation syncFromSrc' := (syncFromSrc platform toCygwinPath this).
#[local] Abbreviation syncDependencyProducts' :=
  (syncDependencyProducts platform toCygwinPath getModuleKey this).
#[local] Abbreviation rsyncArgs' := (rsyncArgs platform toCygwinPath this).
#[local] Abbreviation logMsg' := (logMsg platform toCygwinPath this).
#[local] Abbreviation requests' :=
  (syncDependencyProducts_requests getModuleKey this).
#[local] Abbreviation stage' := (stage platform toCygwinPath getModuleKey this).
#[local] Abbreviation copy_rsync' := (copy_rsync platform toCygwinPath getModuleKey this).
#[local] Abbreviation copyMapper' := (copyMapper platform toCygwinPath this).
#[local] Abbreviation dependencyMapper' :=
  (dependencyMapper platform toCygwinPath getModuleKey this).
#[local] Abbreviation keyPath d :=
  (buildPathOf this (getModuleKey (dep_name d) (dep_plugin d))).

(** *** What the code awaits *)

Lemma sync_throw_copyMapper sbp bp c :
  sync_throw false (copyMapper' sbp bp c) = None <-> hasAbsolutePath c = false.
Proof.
  unfold copyMapper, hasAbsolutePath.
  destruct (isAbsolute (source c)); simpl; [split; discriminate|].
  destruct (isAbsolute (target c)); simpl; [split; discriminate|].
  split; reflexivity.
Qed.

Lemma copyMapper_relative sbp bp c :
  hasAbsolutePath c = false ->
  copyMapper' sbp bp c = sync' (join [sbp; source c]) (join [bp; target c]) false.
Proof.
  unfold copyMapper, hasAbsolutePath. intros H. apply orb_false_iff in H.
  destruct H as [-> ->]. reflexivity.
Qed.

Lemma copyMapper_awaited sbp bp specs c :
  In c (beforeAbsolute specs) ->
  In (execa "rsync" (rsyncArgs' (join [sbp; source c]) (join [bp; target c]) false))
     (awaited_all false (map (copyMapper' sbp bp) specs)).
Proof.
  induction specs as [|c0 rest IH]; intros Hin; simpl in *; [destruct Hin|].
  destruct (hasAbsolutePath c0) eqn:Habs; [destruct Hin|].
  rewrite (proj2 (sync_throw_copyMapper sbp bp c0) Habs).
  apply in_or_app. destruct Hin as [->|Hin].
  - left. rewrite copyMapper_relative by assumption. simpl. auto.
  - right. now apply IH.
Qed.

Lemma awaited_Await io k : awaited (Await io k) = io :: awaited k.
Proof. reflexivity. Qed.

Lemma dependencyMapper_copy bp d specs :
  copy d = Some specs ->
  dependencyMapper' bp (Some d, Some d)
  = Await (ensureDir (keyPath d))
          (BluebirdMap false (map (copyMapper' (keyPath d) bp) specs)).
Proof. intros H. unfold dependencyMapper. now rewrite H. Qed.

Lemma dependencyMapper_awaited bp ds d specs :
  In d ds -> copy d = Some specs ->
  forall io,
    io = ensureDir (keyPath d) \/
    (exists c, In c (beforeAbsolute specs) /\
               io = execa "rsync"
                      (rsyncArgs' (join [keyPath d; source c]) (join [bp; target c])
                         false)) ->
    In io (awaited_all true
             (map (dependencyMapper' bp) (map (fun d => (Some d, Some d)) ds))).
Proof.
  induction ds as [|d0 rest IH]; intros Hin Hcopy io Hio; [destruct Hin|].
  cbn [map awaited_all]. rewrite sync_throw_async.
  apply in_or_app. destruct Hin as [->|Hin].
  - left. rewrite (@dependencyMapper_copy bp d specs Hcopy), awaited_Await, awaited_map.
    destruct Hio as [->|(c & Hc & ->)]; [now left|].
    right. now apply copyMapper_awaited.
  - right. now apply IH.
Qed.

Lemma syncDependencyProducts_awaited module d specs :
  In d (dependencies module) -> copy d = Some specs ->
  In (ensureDir (keyPath d)) (awaited (syncDependencyProducts' module)) /\
  forall c, In c (beforeAbsolute specs) ->
            In (copy_rsync' module d c) (awaited (syncDependencyProducts' module)).
Proof.
  intros Hd Hcopy. unfold syncDependencyProducts, buildPath.
  rewrite awaited_Await, awaited_map, zip_same. split.
  - right. apply (@dependencyMapper_awaited _ _ d specs Hd Hcopy). now left.
  - intros c Hc. right.
    apply (@dependencyMapper_awaited _ _ d specs Hd Hcopy). right. exists c. split; [exact Hc|].
    reflexivity.
Qed.

(** *** Relative copy specs never throw *)

Lemma never_throws_mono d d' ev : incl d d' -> never_throws d ev -> never_throws d' ev.
Proof. intros _ H. exact H. Qed.

Lemma sync_never_throws' done src dst wd : guarded never_throws done (sync' src dst wd).
Proof. unfold sync. simpl. repeat split; intros e; discriminate. Qed.

Lemma copyMapper_never_throws done sbp bp specs :
  (forall c, In c specs -> hasAbsolutePath c = false) ->
  guarded_all never_throws done false (map (copyMapper' sbp bp) specs).
Proof.
  induction specs as [|c rest IH]; intros H; simpl; [exact I|].
  rewrite (proj2 (sync_throw_copyMapper sbp bp c)) by (apply H; now left).
  split.
  - rewrite copyMapper_relative by (apply H; now left). apply sync_never_throws'.
  - apply IH. intros c' Hc'. apply H. now right.
Qed.

Lemma dependencyMapper_never_throws module done ds :
  allRelative module -> incl ds (dependencies module) ->
  guarded_all never_throws done true
    (map (dependencyMapper' (buildPathOf this (name module)))
         (map (fun d => (Some d, Some d)) ds)).
Proof.
  intros Hrel. induction ds as [|d rest IH]; intros Hincl; simpl; [exact I|].
  rewrite sync_throw_async. split.
  - destruct (copy d) as [specs|] eqn:Hcopy; [|exact I].
    unfold buildPath. apply guarded_Await; [intros e; discriminate|].
    rewrite guarded_map. apply copyMapper_never_throws.
    intros c Hc. apply (Hrel d specs c); auto. apply Hincl. now left.
  - apply IH. intros x Hx. apply Hincl. now right.
Qed.

Lemma syncDependencyProducts_never_throws module :
  allRelative module -> guarded never_throws [] (syncDependencyProducts' module).
Proof.
  intros Hrel. unfold syncDependencyProducts, buildPath.
  apply guarded_Await; [intros e; discriminate|].
  rewrite guarded_map, zip_same. apply dependencyMapper_never_throws; [exact Hrel|].
  apply incl_refl.
Qed.

(** X1: When the host rejects nothing, [syncDependencyProducts] ends with nothing
    in flight, having ensured the build path of every dependency with a copy
    list and run rsync, to the end, for every copy spec in front of the first
    absolute one of its dependency; and when all copy specs are relative, that
    is for every copy spec, and the operation is fulfilled. *)
Theorem copy_specs_are_synced_when_nothing_fails module sched :
  all_ok sched ->
  let s := run (sched ++ fulfil_all (turns (syncDependencyProducts' module)))
               (syncDependencyProducts' module) in
  pending s = [] /\
  (forall d specs,
     In d (dependencies module) -> copy d = Some specs ->
     In (Fulfilled (ensureDir (keyPath d))) (trace s) /\
     forall c, In c (beforeAbsolute specs) ->
               In (Fulfilled (copy_rsync' module d c)) (trace s)) /\
  (allRelative module ->
   outcome s = Resolved /\
   forall d specs c,
     In d (dependencies module) -> copy d = Some specs -> In c specs ->
     In (Fulfilled (copy_rsync' module d c)) (trace s)).
Proof.
  intros Hok s.
  assert (Hok' : all_ok (sched ++ fulfil_all (turns (syncDependencyProducts' module))))
    by now apply all_ok_fulfil_all.
  assert (Hp : pending s = []) by apply run_settles.
  assert (Hall : forall d specs,
             In d (dependencies module) -> copy d = Some specs ->
             In (Fulfilled (ensureDir (keyPath d))) (trace s) /\
             forall c, In c (beforeAbsolute specs) ->
                       In (Fulfilled (copy_rsync' module d c)) (trace s)).
  { intros d specs Hd Hcopy.
    destruct (@syncDependencyProducts_awaited module d specs Hd Hcopy) as [H1 H2].
    split.
    - now apply awaited_fulfilled.
    - intros c Hc. apply awaited_fulfilled; auto. }
  split; [exact Hp|]. split; [exact Hall|].
  intros Hrel. split.
  - destruct (settled_outcome (syncDependencyProducts' module) _ Hp)
      as [[_ Hres]|[e [Hin _]]]; [exact Hres|].
    apply In_failures in Hin. destruct Hin as [Hin|(io & _ & Hin)].
    + apply in_split in Hin. destruct Hin as (t1 & t2 & Ht).
      destruct (@guarded_run _ never_throws_mono _ _
                  (syncDependencyProducts_never_throws Hrel) _ _ _ Ht I e).
      reflexivity.
    + destruct (@ok_run_no_Rejected _ _ io Hok' Hin).
  - intros d specs c Hd Hcopy Hc.
    apply (proj2 (Hall d specs Hd Hcopy)).
    rewrite beforeAbsolute_relative; [exact Hc|].
    intros c' Hc'. now apply (Hrel d specs c').
Qed.

(** *** How often rsync runs *)

Lemma requests_relative module :
  allRelative module -> length (requests' module) = length (copySpecs module).
Proof.
  unfold allRelative, syncDependencyProducts_requests, copySpecs.
  induction (dependencies module) as [|d ds IH]; intros Hrel; [reflexivity|].
  simpl. rewrite !length_app, IH.
  - f_equal. unfold dependency_requests.
    destruct (copy d) as [specs|] eqn:Hcopy; [|reflexivity].
    rewrite length_map, beforeAbsolute_relative; [reflexivity|].
    intros c Hc. apply (Hrel d specs c); auto. now left.
  - intros d' specs c Hd'. apply Hrel. now right.
Qed.

(** X2: Whatever fails, [syncDependencyProducts] executes rsync no more often
    than there are copy specs in front of the first absolute one of their
    dependency; when the host rejects nothing, exactly as often; and when all
    copy specs are relative, that is once for each copy spec. *)
Theorem rsync_runs_once_per_copy_spec module sched :
  execa_calls (trace (run sched (syncDependencyProducts' module)))
  <= length (requests' module) /\
  (all_ok sched ->
   execa_calls
     (trace (run (sched ++ fulfil_all (turns (syncDependencyProducts' module)))
                 (syncDependencyProducts' module)))
   = length (requests' module)) /\
  (allRelative module -> length (requests' module) = length (copySpecs module)).
Proof.
  split; [|split].
  - pose proof (budget_run (syncDependencyProducts' module) sched) as Hb.
    rewrite syncDependencyProducts_budget in Hb. lia.
  - intros Hok.
    pose proof (@ok_run_budget (syncDependencyProducts' module) _
                  (all_ok_fulfil_all (turns (syncDependencyProducts' module)) Hok))
      as Hb.
    rewrite syncDependencyProducts_budget in Hb.
    unfold pending_budget in Hb. rewrite run_settles in Hb.
    cbn [map list_sum fold_right] in Hb. rewrite Nat.add_0_r in Hb. exact Hb.
  - apply requests_relative.
Qed.

(** *** Build paths are ensured before rsync runs between them *)

#[local] Abbreviation after_build_paths :=
  (rsync_after_build_paths platform toCygwinPath getModuleKey this).

Lemma after_build_paths_mono module d d' ev :
  incl d d' -> after_build_paths module d ev -> after_build_paths module d' ev.
Proof.
  intros Hincl H file args Hev.
  destruct (H file args Hev) as (H1 & dep & specs & c & H2 & H3 & H4 & H5 & H6).
  split; [auto|]. exists dep, specs, c. auto 10.
Qed.

Lemma after_build_paths_other module done ev :
  (forall file args, ev <> Call (execa file args)) -> after_build_paths module done ev.
Proof. intros H file args Hev. now destruct (H file args). Qed.

Lemma copyMapper_after_build_paths module done d specs rest :
  In d (dependencies module) -> copy d = Some specs -> incl rest specs ->
  In (ensureDir (buildPathOf this (name module))) done ->
  In (ensureDir (keyPath d)) done ->
  guarded_all (after_build_paths module) done false
    (map (copyMapper' (keyPath d) (buildPathOf this (name module))) rest).
Proof.
  intros Hd Hcopy. induction rest as [|c rest IH]; intros Hincl Hbp Hkey; simpl;
    [exact I|].
  destruct (hasAbsolutePath c) eqn:Habs.
  - destruct (sync_throw false (copyMapper' (keyPath d) (buildPathOf this (name module)) c))
      as [e|] eqn:Hthrow.
    + apply after_build_paths_other. discriminate.
    + apply sync_throw_copyMapper in Hthrow. congruence.
  - rewrite (proj2 (sync_throw_copyMapper _ _ c) Habs). split.
    + rewrite copyMapper_relative by assumption. unfold sync.
      apply guarded_Await; [apply after_build_paths_other; discriminate|].
      split; [apply after_build_paths_other; discriminate|].
      apply guarded_Await; [|exact I].
      intros file args Hev. inversion Hev; subst. split; [now right|].
      exists d, specs, c. repeat split; auto.
      * apply Hincl. now left.
      * now right.
    + apply IH; auto. intros x Hx. apply Hincl. now right.
Qed.

Lemma dependencyMapper_after_build_paths module done ds :
  incl ds (dependencies module) ->
  In (ensureDir (buildPathOf this (name module))) done ->
  guarded_all (after_build_paths module) done true
    (map (dependencyMapper' (buildPathOf this (name module)))
         (map (fun d => (Some d, Some d)) ds)).
Proof.
  induction ds as [|d rest IH]; intros Hincl Hbp; simpl; [exact I|].
  rewrite sync_throw_async. split.
  - destruct (copy d) as [specs|] eqn:Hcopy; [|exact I].
    unfold buildPath. apply guarded_Await.
    { apply after_build_paths_other. discriminate. }
    rewrite guarded_map.
    apply copyMapper_after_build_paths with (specs := specs); auto.
    + apply Hincl. now left.
    + apply incl_refl.
    + now right.
    + now left.
  - apply IH; auto. intros x Hx. apply Hincl. now right.
Qed.

(** X3: Whenever [syncDependencyProducts] executes a program, it is rsync for a
    copy spec of a dependency, and [ensureDir] has been fulfilled on the build
    path of the module and on the build path of that dependency. *)
Theorem build_paths_ensured_before_rsync module sched t1 file args t2 :
  trace (run sched (syncDependencyProducts' module))
  = (t1 ++ Call (execa file args) :: t2)%list ->
  In (Fulfilled (ensureDir (buildPathOf this (name module)))) t1 /\
  exists d specs c,
    In d (dependencies module) /\ copy d = Some specs /\ In c specs /\
    execa file args = copy_rsync' module d c /\
    In (Fulfilled (ensureDir (keyPath d))) t1.
Proof.
  intros Ht.
  assert (Hg : guarded (after_build_paths module) [] (syncDependencyProducts' module)).
  { unfold syncDependencyProducts, buildPath. apply guarded_Await.
    { apply after_build_paths_other. discriminate. }
    rewrite guarded_map, zip_same. apply dependencyMapper_after_build_paths.
    - apply incl_refl.
    - now left. }
  destruct (@guarded_run _ (@after_build_paths_mono module) _ sched Hg _ _ _ Ht I
              file args eq_refl)
    as (H1 & d & specs & c & H2 & H3 & H4 & H5 & H6).
  split; [now apply In_fulfilled|].
  exists d, specs, c. repeat split; auto. now apply In_fulfilled.
Qed.

(** *** When the build path of the module cannot be ensured *)

Lemma stage_begins op :
  exists k, stage' op = Await (ensureDir (buildPathOf this (name (staged op)))) k.
Proof. destruct op as [module|module]; simpl; eexists; reflexivity. Qed.

Lemma rejection_arrives s e :
  (pending s = [Rejecting e] /\ rejection s = None) \/
  (pending s = [] /\ rejection s = Some e) ->
  outcome (step s (turn 0)) = RejectedWith e.
Proof.
  intros [[Hp Hr]|[Hp Hr]]; unfold step, outcome; rewrite Hp; simpl.
  - now rewrite Hr.
  - now rewrite Hr.
Qed.

(** X4: When [ensureDir] on the build path of the module is rejected, a staging
    operation makes no other request, then or later, and its promise is
    rejected with that failure. *)
Theorem build_path_failure_stops_staging op sched rest :
  let dir := ensureDir (buildPathOf this (name (staged op))) in
  trace (run sched (stage' op)) = Call dir :: Rejected dir :: rest ->
  rest = [] /\
  (forall more, trace (run (sched ++ more) (stage' op)) = [Call dir; Rejected dir]) /\
  outcome (run sched (stage' op)) <> Resolved /\
  outcome (run (sched ++ [turn 0]) (stage' op)) = RejectedWith (IOError dir).
Proof.
  intros dir Ht. destruct (stage_begins op) as [k Hk]. fold dir in Hk.
  rewrite Hk in *.
  assert (Hmore : forall more,
             trace (run (sched ++ more) (Await dir k)) = [Call dir; Rejected dir] /\
             ((pending (run (sched ++ more) (Await dir k)) = [Rejecting (IOError dir)] /\
               rejection (run (sched ++ more) (Await dir k)) = None) \/
              (pending (run (sched ++ more) (Await dir k)) = [] /\
               rejection (run (sched ++ more) (Await dir k)) = Some (IOError dir)))).
  { intros more.
    destruct (steps_trace more (run sched (Await dir k))) as [evs Hevs].
    rewrite <- run_app, Ht in Hevs.
    destruct (run_Await dir k (sched ++ more)) as [(H & _)|[(sched' & H)|H]].
    - rewrite H in Hevs. discriminate.
    - rewrite H in Hevs. simpl in Hevs. discriminate.
    - exact H. }
  pose proof (Hmore []) as H0. rewrite app_nil_r in H0. destruct H0 as [H0 Hcase].
  split; [|split; [|split]].
  - rewrite Ht in H0. now inversion H0.
  - intros more. apply Hmore.
  - unfold outcome. destruct Hcase as [[Hp Hr]|[Hp Hr]]; rewrite Hp, Hr; discriminate.
  - rewrite run_snoc. now apply rejection_arrives.
Qed.

(** *** [syncFromSrc], step by step *)

Lemma script_failure full s io :
  follows_script full s -> (forall io', ~ In (Rejected io') full) ->
  In (Rejected io) (trace s) ->
  exists t rest,
    trace s = (t ++ [Rejected io])%list /\ (t ++ Fulfilled io :: rest)%list = full /\
    ((pending s = [Rejecting (IOError io)] /\ rejection s = None) \/
     (pending s = [] /\ rejection s = Some (IOError io))).
Proof.
  intros [(io0 & k & _ & _ & _ & Hfull)
         |[(_ & _ & Hfull)
          |[(t & io0 & rest & Ht & Hfull & Hcase)
           |(e & Hfull & _)]]] Hno Hin.
  - destruct (Hno io). rewrite <- Hfull. apply in_or_app. now left.
  - destruct (Hno io). now rewrite <- Hfull.
  - rewrite Ht in Hin. apply in_app_or in Hin. destruct Hin as [Hin|[Hin|[]]].
    + destruct (Hno io). rewrite <- Hfull. apply in_or_app. now left.
    + inversion Hin; subst io0. exists t, rest. auto.
  - destruct (Hno io). now rewrite <- Hfull.
Qed.

(** X5: [syncFromSrc] does one thing after the other: when it is fulfilled, the
    build path was ensured, then the parent of the destination, then the
    message was logged and rsync ran; and when either [ensureDir] is
    rejected, rsync is never executed and the promise is rejected with that
    failure. *)
Theorem syncFromSrc_stops_at_the_first_failure module sched :
  let s := run sched (syncFromSrc' module) in
  let src := resolve [projectRoot this; path module] ++ sep in
  let dst := buildPathOf this (name module) in
  (outcome s = Resolved ->
   trace s = [Call (ensureDir dst); Fulfilled (ensureDir dst);
              Call (ensureDir (parse_dir dst)); Fulfilled (ensureDir (parse_dir dst));
              Logged (logMsg' src dst true);
              Call (execa "rsync" (rsyncArgs' src dst true));
              Fulfilled (execa "rsync" (rsyncArgs' src dst true))]) /\
  (forall dir,
     In (Rejected (ensureDir dir)) (trace s) ->
     (forall file args, ~ In (Call (execa file args)) (trace s)) /\
     outcome (run (sched ++ [turn 0]) (syncFromSrc' module))
     = RejectedWith (IOError (ensureDir dir))).
Proof.
  intros s src dst.
  pose proof (script_run (syncFromSrc' module) sched (syncFromSrc_linear _ _ _ module))
    as Hscript.
  fold s in Hscript. split.
  - intros Hres. unfold outcome in Hres.
    destruct Hscript as [(io & k & Hp & _)
                        |[(_ & _ & Hfull)
                         |[(t & io & rest & _ & _ & [[Hp Hr]|[Hp Hr]])
                          |(e & _ & [[Hp Hr]|[Hp Hr]])]]];
      try (rewrite Hp in Hres; destruct (rejection s); discriminate);
      try (rewrite Hr in Hres; discriminate).
    exact Hfull.
  - intros dir Hin.
    destruct (@script_failure _ s (ensureDir dir) Hscript
                (fun io' => @full_trace_no_Rejected (syncFromSrc' module) io') Hin)
      as (t & rest & Ht & Hfull & Hcase).
    split.
    + intros file args Hcall. rewrite Ht in Hcall.
      apply in_app_or in Hcall. destruct Hcall as [Hcall|[Hcall|[]]]; [|discriminate].
      unfold syncFromSrc, buildPath, sync in Hfull. simpl full_trace in Hfull.
      repeat (destruct t as [|? t]; cbn [app] in Hfull;
              [try discriminate Hfull; try (destruct Hcall as []) |
               injection Hfull as -> Hfull;
               try (destruct Hcall as [Hcall|Hcall]; [discriminate Hcall|])]).
      destruct t; discriminate Hfull.
    + rewrite run_snoc. now apply rejection_arrives.
Qed.

(** *** The paths rsync is given *)

(** X6: No path handed to rsync ends with the wildcard "/*". *)
Theorem rsync_paths_never_end_with_the_wildcard op sched file args :
  In (Call (execa file args)) (trace (run sched (stage' op))) ->
  exists withDelete sourcePath destinationPath,
    args = (syncOpts this withDelete ++ [sourcePath; destinationPath])%list /\
    endsWith sourcePath "/*" = false /\
    endsWith destinationPath "/*" = false.
Proof.
  intros Hin.
  destruct (stage_execa_In _ _ _ _ _ _ _ _ Hin) as (_ & src & dst & wd & _ & ->).
  exists wd, (stripWildcard (if String.eqb platform "win32" then toCygwinPath src else src)),
    (stripWildcard (if String.eqb platform "win32" then toCygwinPath dst else dst)).
  split; [|split].
  - now rewrite rsyncArgs_options.
  - apply stripWildcard_not_wildcard.
  - apply stripWildcard_not_wildcard.
Qed.

(** *** rsync is announced *)

#[local] Abbreviation announce' := (sync_announce platform toCygwinPath this).

Lemma sync_announced reqs src dst wd :
  In (src, dst, wd) reqs -> announced (announce' reqs) (sync' src dst wd).
Proof.
  intros Hin. unfold sync. simpl. repeat split; auto.
  exists src, dst, wd. auto.
Qed.

Lemma copyMapper_announced reqs sbp bp specs :
  (forall c, In c (beforeAbsolute specs) -> In (copy_request sbp bp c) reqs) ->
  announced_all (announce' reqs) false (map (copyMapper' sbp bp) specs).
Proof.
  induction specs as [|c rest IH]; intros H; simpl in *; [exact I|].
  destruct (hasAbsolutePath c) eqn:Habs.
  - destruct (sync_throw false (copyMapper' sbp bp c)) as [e|] eqn:Hthrow; [exact I|].
    apply sync_throw_copyMapper in Hthrow. congruence.
  - rewrite (proj2 (sync_throw_copyMapper sbp bp c) Habs). split.
    + rewrite copyMapper_relative by assumption. apply sync_announced.
      apply (H c). now left.
    + apply IH. intros c' Hc'. apply H. now right.
Qed.

Lemma dependencyMapper_announced module ds :
  incl ds (dependencies module) ->
  announced_all (announce' (requests' module)) true
    (map (dependencyMapper' (buildPathOf this (name module)))
         (map (fun d => (Some d, Some d)) ds)).
Proof.
  induction ds as [|d rest IH]; intros Hincl; simpl; [exact I|].
  rewrite sync_throw_async. split.
  - destruct (copy d) as [specs|] eqn:Hcopy; [|exact I].
    unfold buildPath. split; [reflexivity|].
    rewrite announced_map. apply copyMapper_announced.
    intros c Hc. unfold syncDependencyProducts_requests. apply in_flat_map.
    exists d. split; [apply Hincl; now left|].
    unfold dependency_requests. rewrite Hcopy. now apply in_map.
  - apply IH. intros x Hx. apply Hincl. now right.
Qed.

Lemma stage_announced op :
  announced (announce' (requests_of getModuleKey this op)) (stage' op).
Proof.
  destruct op as [module|module]; simpl stage.
  - unfold syncFromSrc, buildPath. split; [reflexivity|].
    apply sync_announced. now left.
  - unfold syncDependencyProducts, buildPath. split; [reflexivity|].
    rewrite announced_map, zip_same. apply dependencyMapper_announced. apply incl_refl.
Qed.

(** X7: In both staging operations, the event right before an execution of rsync
    is the debug message of the same call of [sync]: "Syncing from ... to
    ...", with " (with delete)" exactly when [--delete] is passed. *)
Theorem rsync_is_logged_right_before op sched t1 file args t2 :
  trace (run sched (stage' op)) = (t1 ++ Call (execa file args) :: t2)%list ->
  exists t0 src dst withDelete,
    In (src, dst, withDelete) (requests_of getModuleKey this op) /\
    t1 = (t0 ++ [Logged (logMsg' src dst withDelete)])%list /\
    args = rsyncArgs' src dst withDelete.
Proof.
  intros Ht.
  destruct (@announced_run _ _ sched (stage_announced op) _ _ _ _ Ht)
    as (t0 & msg & -> & src & dst & wd & Hin & -> & ->).
  exists t0, src, dst, wd. auto.
Qed.

(** *** Nothing to copy *)

Lemma dependencyMapper_copiesNothing bp ds :
  (forall d, In d ds -> copy d = None) ->
  Forall (fun q => q = Ret)
    (map (dependencyMapper' bp) (map (fun d => (Some d, Some d)) ds)).
Proof.
  intros H. apply Forall_forall. intros q Hq.
  apply in_map_iff in Hq. destruct Hq as (entry & <- & Hentry).
  apply in_map_iff in Hentry. destruct Hentry as (d & <- & Hd).
  simpl. now rewrite (H d Hd).
Qed.

Lemma guarded_all_Ret Q done a calls :
  Forall (fun q => q = Ret) calls -> guarded_all Q done a calls.
Proof.
  induction 1 as [|q rest Hq _ IH]; simpl; [exact I|].
  subst q. destruct a; simpl; auto.
Qed.

(** X8: For a module none of whose dependencies carries a copy list, and so for
    a module without dependencies, the only request [syncDependencyProducts]
    ever makes is [ensureDir] on the build path of the module, and it is
    fulfilled as soon as that request is. *)
Theorem nothing_to_copy_only_ensures_the_build_path module sched :
  copiesNothing module ->
  (forall io,
     In (Call io) (trace (run sched (syncDependencyProducts' module))) ->
     io = ensureDir (buildPathOf this (name module))) /\
  trace (run [fulfil 0; turn 0] (syncDependencyProducts' module))
  = [Call (ensureDir (buildPathOf this (name module)));
     Fulfilled (ensureDir (buildPathOf this (name module)))] /\
  outcome (run [fulfil 0; turn 0] (syncDependencyProducts' module)) = Resolved.
Proof.
  intros Hnone.
  pose proof (dependencyMapper_copiesNothing (buildPathOf this (name module)) _ Hnone)
    as Hret.
  split.
  - intros io Hin. apply in_split in Hin. destruct Hin as (t1 & t2 & Ht).
    refine (@guarded_run (only_ensureDir (buildPathOf this (name module))) _ _ sched
              _ _ _ _ Ht I io eq_refl).
    + intros d d' ev _ H. exact H.
    + unfold syncDependencyProducts, buildPath. apply guarded_Await.
      * intros io' Hev. now inversion Hev.
      * rewrite guarded_map, zip_same. now apply guarded_all_Ret.
  - unfold run, syncDependencyProducts, buildPath. rewrite zip_same.
    set (calls := map (dependencyMapper' (buildPathOf this (name module)))
                      (map (fun d => (Some d, Some d)) (dependencies module))) in *.
    cbn [fold_left start]. unfold step; cbn.
    rewrite (iterate_all_Ret _ _ Hret). split; reflexivity.
Qed.

(** *** Which copy spec a [ConfigurationError] names *)

#[local] Abbreviation throws_first := (@throws_first_absolute path_module).

Lemma throws_first_other module done ev :
  (forall e, ev <> Threw e) -> throws_first module done ev.
Proof. intros H e He. now destruct (H e). Qed.

Lemma sync_throws_first module done src dst wd :
  guarded (throws_first module) done (sync' src dst wd).
Proof.
  unfold sync. simpl. repeat split; apply throws_first_other; discriminate.
Qed.

Lemma copyMapper_absolute sbp bp c :
  hasAbsolutePath c = true ->
  copyMapper' sbp bp c = Throw (ConfigurationError (absolutePathMessage c) c).
Proof.
  unfold copyMapper, hasAbsolutePath, absolutePathMessage.
  destruct (isAbsolute (source c)); [reflexivity|].
  destruct (isAbsolute (target c)); [reflexivity|discriminate].
Qed.

Lemma copyMapper_throws_first module done d sbp bp rest : forall before,
  In d (dependencies module) -> copy d = Some (before ++ rest)%list ->
  (forall c', In c' before -> hasAbsolutePath c' = false) ->
  guarded_all (throws_first module) done false (map (copyMapper' sbp bp) rest).
Proof.
  induction rest as [|c rest IH]; intros before Hd Hcopy Hbefore; simpl; [exact I|].
  destruct (hasAbsolutePath c) eqn:Habs.
  - rewrite (copyMapper_absolute sbp bp c Habs). simpl.
    intros e He. inversion He; subst e. exists d, before, c, rest. auto.
  - rewrite (proj2 (sync_throw_copyMapper sbp bp c) Habs). split.
    + rewrite copyMapper_relative by assumption. apply sync_throws_first.
    + apply (IH (before ++ [c])%list); auto.
      * now rewrite <- app_assoc.
      * intros c' Hc'. apply in_app_or in Hc'. destruct Hc' as [Hc'|[<-|[]]]; auto.
Qed.

Lemma dependencyMapper_throws_first module done ds :
  incl ds (dependencies module) ->
  guarded_all (throws_first module) done true
    (map (dependencyMapper' (buildPathOf this (name module)))
         (map (fun d => (Some d, Some d)) ds)).
Proof.
  induction ds as [|d rest IH]; intros Hincl; simpl; [exact I|].
  rewrite sync_throw_async. split.
  - destruct (copy d) as [specs|] eqn:Hcopy; [|exact I].
    unfold buildPath. apply guarded_Await; [apply throws_first_other; discriminate|].
    rewrite guarded_map.
    apply copyMapper_throws_first with (d := d) (before := []); auto.
    + apply Hincl. now left.
    + intros c' [].
  - apply IH. intros x Hx. apply Hincl. now right.
Qed.

(** X9: [syncFromSrc] throws nothing.  What [syncDependencyProducts] throws is
    the [ConfigurationError] for the first copy spec with an absolute path in
    the copy list of a dependency: with the message about the source when
    the source is absolute, about the target otherwise, and with that copy
    spec attached. *)
Theorem configuration_error_names_the_first_absolute_copy_spec op sched e :
  In (Threw e) (trace (run sched (stage' op))) ->
  exists module d before c after,
    op = StageDependencies module /\
    In d (dependencies module) /\
    copy d = Some (before ++ c :: after)%list /\
    (forall c', In c' before -> hasAbsolutePath c' = false) /\
    hasAbsolutePath c = true /\
    e = ConfigurationError
          (if isAbsolute (source c)
           then "Source path in build dependency copy spec must be a relative path"
           else "Target path in build dependency copy spec must be a relative path")
          c.
Proof.
  intros Hin. apply in_split in Hin. destruct Hin as (t1 & t2 & Ht).
  destruct op as [module|module]; simpl stage in Ht.
  - exfalso.
    refine (@guarded_run never_throws never_throws_mono _ sched _ _ _ _ Ht I e eq_refl).
    unfold syncFromSrc, buildPath. apply guarded_Await; [intros e'; discriminate|].
    apply sync_never_throws'.
  - assert (Hg : guarded (throws_first module) [] (syncDependencyProducts' module)).
    { unfold syncDependencyProducts, buildPath.
      apply guarded_Await; [apply throws_first_other; discriminate|].
      rewrite guarded_map, zip_same. apply dependencyMapper_throws_first.
      apply incl_refl. }
    destruct (@guarded_run (throws_first module) (fun d d' ev _ H => H) _ sched Hg
                _ _ _ Ht I e eq_refl)
      as (d & before & c & after & H1 & H2 & H3 & H4 & H5).
    exists module, d, before, c, after. auto 10.
Qed.

(** *** What is asked of the host *)

#[local] Abbreviation staging_requests' := (staging_requests getModuleKey this).

Lemma staging_requests_other op done ev :
  (forall io, ev <> Call io) -> staging_requests' op done ev.
Proof. intros H io Hev. now destruct (H io). Qed.

Lemma sync_staging_requests op done src dst wd :
  In (src, dst, wd) (requests_of getModuleKey this op) ->
  guarded (staging_requests' op) done (sync' src dst wd).
Proof.
  intros Hin. unfold sync. apply guarded_Await.
  { intros io Hev. inversion Hev; subst io. simpl. right. right.
    exists src, dst, wd. auto. }
  split; [apply staging_requests_other; discriminate|].
  apply guarded_Await; [|exact I].
  intros io Hev. inversion Hev; subst io. reflexivity.
Qed.

Lemma copyMapper_staging_requests module done sbp bp specs :
  (forall c, In c (beforeAbsolute specs) ->
             In (copy_request sbp bp c) (requests' module)) ->
  guarded_all (staging_requests' (StageDependencies module)) done false
    (map (copyMapper' sbp bp) specs).
Proof.
  induction specs as [|c rest IH]; intros H; simpl in *; [exact I|].
  destruct (hasAbsolutePath c) eqn:Habs.
  - rewrite (copyMapper_absolute sbp bp c Habs). simpl.
    apply staging_requests_other. discriminate.
  - rewrite (proj2 (sync_throw_copyMapper sbp bp c) Habs). split.
    + rewrite copyMapper_relative by assumption.
      apply sync_staging_requests. apply (H c). now left.
    + apply IH. intros c' Hc'. apply H. now right.
Qed.

Lemma dependencyMapper_staging_requests module done ds :
  incl ds (dependencies module) ->
  guarded_all (staging_requests' (StageDependencies module)) done true
    (map (dependencyMapper' (buildPathOf this (name module)))
         (map (fun d => (Some d, Some d)) ds)).
Proof.
  induction ds as [|d rest IH]; intros Hincl; simpl; [exact I|].
  rewrite sync_throw_async. split.
  - destruct (copy d) as [specs|] eqn:Hcopy; [|exact I].
    unfold buildPath. apply guarded_Await.
    { intros io Hev. inversion Hev; subst io. simpl. right. left.
      exists module, d, specs. repeat split; auto. apply Hincl. now left. }
    rewrite guarded_map. apply copyMapper_staging_requests.
    intros c Hc. unfold syncDependencyProducts_requests. apply in_flat_map.
    exists d. split; [apply Hincl; now left|].
    unfold dependency_requests. rewrite Hcopy. now apply in_map.
  - apply IH. intros x Hx. apply Hincl. now right.
Qed.

(** X10: A staging operation never empties a directory and executes no program
    but rsync; the directories it ensures are the build path of the module,
    the build paths of the dependencies that carry a copy list, and the
    parents of the destinations of its calls of [sync]. *)
Theorem staging_only_ensures_and_syncs op sched io :
  In (Call io) (trace (run sched (stage' op))) ->
  match io with
  | emptyDir _ => False
  | execa file _ => file = "rsync"
  | ensureDir dir =>
      dir = buildPathOf this (name (staged op)) \/
      (exists module d specs,
         op = StageDependencies module /\ In d (dependencies module) /\
         copy d = Some specs /\ dir = keyPath d) \/
      (exists src dst withDelete,
         In (src, dst, withDelete) (requests_of getModuleKey this op) /\
         dir = parse_dir dst)
  end.
Proof.
  intros Hin. apply in_split in Hin. destruct Hin as (t1 & t2 & Ht).
  refine (@guarded_run (staging_requests' op) (fun d d' ev _ H => H) _ sched _
            _ _ _ Ht I io eq_refl).
  destruct op as [module|module]; simpl stage.
  - unfold syncFromSrc, buildPath. apply guarded_Await.
    { intros io' Hev. inversion Hev; subst io'. simpl. now left. }
    apply sync_staging_requests. now left.
  - unfold syncDependencyProducts, buildPath. apply guarded_Await.
    { intros io' Hev. inversion Hev; subst io'. simpl. now left. }
    rewrite guarded_map, zip_same. apply dependencyMapper_staging_requests.
    apply incl_refl.
Qed.

(** *** All dependencies at once *)

Lemma iterate_dependencyMapper_trace bp ds : forall s,
  trace (iterate true (map (dependencyMapper' bp) (map (fun d => (Some d, Some d)) ds)) s)
  = (trace s
       ++ map (fun d => Call (ensureDir (keyPath d)))
            (filter (fun d => match copy d with Some _ => true | None => false end) ds))%list.
Proof.
  induction ds as [|d rest IH]; intros s; simpl.
  - now rewrite app_nil_r.
  - rewrite sync_throw_async. destruct (copy d) as [specs|] eqn:Hcopy.
    + rewrite IH. unfold buildPath. simpl. now rewrite <- app_assoc.
    + apply IH.
Qed.

(** X11: [syncDependencyProducts] starts on all dependencies at once: when the
    build path of the module has been ensured, the next events are the
    [ensureDir] requests for the build paths of all dependencies with a copy
    list, in the order of the dependency list, before any of them is
    answered. *)
Theorem dependencies_are_started_at_once module sched :
  let s := run sched (syncDependencyProducts' module) in
  let dir := ensureDir (buildPathOf this (name module)) in
  trace s = [Call dir] \/
  trace s = [Call dir; Rejected dir] \/
  trace s = [Call dir; Fulfilled dir] \/
  exists rest,
    trace s
    = ([Call dir; Fulfilled dir]
         ++ map (fun d => Call (ensureDir (keyPath d)))
              (dependencies (withoutCopyless module))
         ++ rest)%list.
Proof.
  intros s dir. subst s. unfold syncDependencyProducts, buildPath. fold dir.
  rewrite zip_same.
  set (calls := map (dependencyMapper' (buildPathOf this (name module)))
                    (map (fun d => (Some d, Some d)) (dependencies module))).
  destruct (run_Await dir (BluebirdMap true calls) sched)
    as [(Ht & _)|[(sched' & Hs)|(Ht & _)]].
  - now left.
  - rewrite Hs. simpl trace.
    destruct (run_BluebirdMap true calls sched') as [H|[more H]]; rewrite H.
    + right. right. left. reflexivity.
    + right. right. right.
      destruct (steps_trace more (iterate true calls initial)) as [rest Hrest].
      exists rest. rewrite Hrest. unfold calls.
      rewrite iterate_dependencyMapper_trace. reflexivity.
  - right. now left.
Qed.

(** *** An absolute copy spec *)

#[local] Abbreviation first_absolute_error' := (@first_absolute_error path_module).
#[local] Abbreviation sync_in_front' :=
  (sync_in_front platform toCygwinPath getModuleKey this).
#[local] Abbreviation syncs_in_front' :=
  (syncs_in_front platform toCygwinPath getModuleKey this).

Lemma beforeAbsolute_split specs c :
  In c (beforeAbsolute specs) ->
  exists before after,
    specs = (before ++ c :: after)%list /\
    forall c', In c' (before ++ [c])%list -> hasAbsolutePath c' = false.
Proof.
  induction specs as [|c0 rest IH]; simpl; [intros []|].
  destruct (hasAbsolutePath c0) eqn:Habs; [intros []|]. intros [->|Hin].
  - exists [], rest. split; [reflexivity|]. intros c' [<-|[]]. exact Habs.
  - destruct (IH Hin) as (before & after & -> & Hrel).
    exists (c0 :: before), after. split; [reflexivity|].
    intros c' [<-|Hc']; [exact Habs|now apply Hrel].
Qed.

Lemma beforeAbsolute_app before rest :
  (forall c', In c' before -> hasAbsolutePath c' = false) ->
  beforeAbsolute (before ++ rest) = (before ++ beforeAbsolute rest)%list.
Proof.
  induction before as [|c before IH]; intros Hrel; simpl; [reflexivity|].
  rewrite (Hrel c) by now left. f_equal. apply IH. intros c' Hc'. apply Hrel. now right.
Qed.

Lemma syncDependencyProducts_throws_first module :
  guarded (throws_first module) [] (syncDependencyProducts' module).
Proof.
  unfold syncDependencyProducts, buildPath.
  apply guarded_Await; [apply throws_first_other; discriminate|].
  rewrite guarded_map, zip_same. apply dependencyMapper_throws_first.
  apply incl_refl.
Qed.

(** Whatever [syncDependencyProducts] throws is the error for the first
    absolute copy spec of a dependency. *)
Lemma syncDependencyProducts_Threw module sched e :
  In (Threw e) (trace (run sched (syncDependencyProducts' module))) ->
  first_absolute_error' module e.
Proof.
  intros Hin. apply in_split in Hin. destruct Hin as (t1 & t2 & Ht).
  exact (@guarded_run (throws_first module) (fun d d' ev _ H => H) _ sched
           (syncDependencyProducts_throws_first module) _ _ _ Ht I e eq_refl).
Qed.

(** Every program [syncDependencyProducts] executes is rsync for a copy spec
    in front of the first absolute one of its dependency. *)
Lemma syncDependencyProducts_execa module sched file args :
  In (Call (execa file args)) (trace (run sched (syncDependencyProducts' module))) ->
  sync_in_front' module (execa file args).
Proof.
  intros Hin.
  destruct (@stage_execa_In _ platform toCygwinPath getModuleKey this
              (StageDependencies module) sched file args Hin)
    as (-> & src & dst & wd & Hreq & ->).
  simpl in Hreq. unfold syncDependencyProducts_requests in Hreq.
  apply in_flat_map in Hreq. destruct Hreq as (d & Hd & Hreq).
  unfold dependency_requests in Hreq.
  destruct (copy d) as [specs|] eqn:Hcopy; [|destruct Hreq].
  apply in_map_iff in Hreq. destruct Hreq as (c & Hc & Hin').
  destruct (beforeAbsolute_split _ _ Hin') as (before & after & -> & Hrel).
  exists d, before, c, after. repeat split; auto.
  unfold copy_request in Hc. injection Hc as <- <- <-. reflexivity.
Qed.

Lemma copyMapper_where f sbp bp specs :
  length (filter (fun io => is_execa io && f io)
            (awaited_all false (map (copyMapper' sbp bp) specs)))
  = length (filter f
              (map (fun c => execa "rsync"
                               (rsyncArgs' (join [sbp; source c]) (join [bp; target c])
                                  false))
                   (beforeAbsolute specs))).
Proof.
  induction specs as [|c rest IH]; [reflexivity|]. cbn [map awaited_all beforeAbsolute].
  destruct (hasAbsolutePath c) eqn:Habs.
  - rewrite (copyMapper_absolute sbp bp c Habs). reflexivity.
  - rewrite (proj2 (sync_throw_copyMapper sbp bp c) Habs).
    rewrite copyMapper_relative by assumption.
    rewrite filter_app, length_app, IH. cbn [map].
    rewrite (filter_cons_length f). unfold sync. simpl.
    destruct (f _); reflexivity.
Qed.

Lemma dependencyMapper_where f module ds :
  length (filter (fun io => is_execa io && f io)
            (awaited_all true
               (map (dependencyMapper' (buildPathOf this (name module)))
                    (map (fun d => (Some d, Some d)) ds))))
  = length (filter f
              (flat_map (fun d => match copy d with
                                  | None => []
                                  | Some specs =>
                                      map (copy_rsync' module d) (beforeAbsolute specs)
                                  end) ds)).
Proof.
  induction ds as [|d rest IH]; [reflexivity|].
  cbn [map awaited_all flat_map]. rewrite sync_throw_async.
  rewrite !filter_app, !length_app, IH. f_equal.
  destruct (copy d) as [specs|] eqn:Hcopy.
  - rewrite (@dependencyMapper_copy _ d specs Hcopy), awaited_Await, awaited_map.
    rewrite filter_cons_length. cbn [is_execa andb]. rewrite copyMapper_where.
    reflexivity.
  - unfold dependencyMapper. rewrite Hcopy. reflexivity.
Qed.

(** The programs [syncDependencyProducts] is to execute when nothing fails,
    of any kind, are as many as there are copy specs in front of the first
    absolute one whose rsync invocation is of that kind. *)
Lemma syncDependencyProducts_where f module :
  length (filter (fun io => is_execa io && f io) (awaited (syncDependencyProducts' module)))
  = length (filter f (syncs_in_front' module)).
Proof.
  unfold syncDependencyProducts, buildPath, syncs_in_front.
  rewrite awaited_Await, awaited_map, zip_same, filter_cons_length.
  cbn [is_execa andb]. apply dependencyMapper_where.
Qed.

(** C1 (amended): for a module with a copy spec whose [source] or [target]
    is absolute, [syncDependencyProducts] never fulfils.  Every exception it
    throws is the [ConfigurationError] for the first absolute copy spec of
    one of the module's dependencies; when no request has been rejected, it
    is rejected with such an error once nothing is in flight any more, and
    so it is when the host fulfils what is still asked of it.  Every program
    executed is rsync for a copy spec in front of the first absolute one of
    its dependency; no command line is executed more often than there are
    such copy specs with that command line, and rsync is executed at most
    once for each of them: never for the offending copy spec or those after
    it.  File operations are performed all the same: the operation begins
    with [ensureDir] on the module's build path, and whenever the error is
    thrown, that [ensureDir] and the one on the build path of a dependency
    have been fulfilled.  The syncs of the copy specs in front of the first
    absolute one, of every dependency, are not cancelled: when the host
    rejects nothing and fulfils what is still asked of it, the build path of
    every dependency with a copy list has been ensured and rsync has run to
    its end for each of these copy specs. *)
Theorem absolute_copy_spec_rejects_without_its_sync module sched :
  hasAbsoluteCopySpec module ->
  let s := run sched (stage' (StageDependencies module)) in
  let settled :=
    run (sched ++ fulfil_all (turns (stage' (StageDependencies module))))
        (stage' (StageDependencies module)) in
  outcome s <> Resolved /\
  (forall e, In (Threw e) (trace s) -> first_absolute_error' module e) /\
  ((forall io, ~ In (Rejected io) (trace s)) ->
   (pending s = [] ->
    exists e, outcome s = RejectedWith e /\ first_absolute_error' module e) /\
   exists e, outcome settled = RejectedWith e /\ first_absolute_error' module e) /\
  (forall file args,
     In (Call (execa file args)) (trace s) -> sync_in_front' module (execa file args)) /\
  (forall f,
     calls_where (fun io => is_execa io && f io) (trace s)
     <= length (filter f (syncs_in_front' module))) /\
  execa_calls (trace s) <= length (requests' module) /\
  (exists rest, trace s = Call (ensureDir (buildPathOf this (name module))) :: rest) /\
  (forall t1 e t2,
     trace s = (t1 ++ Threw e :: t2)%list ->
     In (Fulfilled (ensureDir (buildPathOf this (name module)))) t1 /\
     exists d,
       In d (dependencies module) /\
       In (Fulfilled (ensureDir (keyPath d))) t1) /\
  (all_ok sched ->
   (forall d specs,
      In d (dependencies module) -> copy d = Some specs ->
      In (Fulfilled (ensureDir (keyPath d))) (trace settled)) /\
   (forall d before c after,
      In d (dependencies module) -> copy d = Some (before ++ c :: after)%list ->
      (forall c', In c' (before ++ [c])%list -> hasAbsolutePath c' = false) ->
      In (Fulfilled (copy_rsync' module d c)) (trace settled))).
Proof.
  intros Habs s settled. simpl stage in s, settled.
  assert (Hnot : forall sched', outcome (run sched' (syncDependencyProducts' module))
                                <> Resolved).
  { intros sched'. apply doomed_run.
    now apply (@syncDependencyProducts_doomed _ platform toCygwinPath getModuleKey this). }
  assert (Hsettled :
            forall sched',
              pending (run sched' (syncDependencyProducts' module)) = [] ->
              (forall io, ~ In (Rejected io)
                              (trace (run sched' (syncDependencyProducts' module)))) ->
              exists e,
                outcome (run sched' (syncDependencyProducts' module)) = RejectedWith e /\
                first_absolute_error' module e).
  { intros sched' Hpend Hok.
    destruct (settled_outcome (syncDependencyProducts' module) sched' Hpend)
      as [[_ Hres]|[e [Hin He]]]; [now destruct (Hnot sched')|].
    apply In_failures in Hin. destruct Hin as [Hin|(io & _ & Hin)].
    + exists e. split; [exact He|]. exact (syncDependencyProducts_Threw _ _ _ Hin).
    + destruct (Hok io Hin). }
  split; [apply Hnot|].
  split; [intros e; apply syncDependencyProducts_Threw|].
  split; [|split; [|split; [|split; [|split; [|split]]]]].
  - intros Hok. split; [intros Hpend; now apply Hsettled|].
    apply Hsettled; [apply run_settles|].
    intros io Hin. rewrite run_app in Hin. apply fulfil_all_Rejected in Hin.
    exact (Hok io Hin).
  - intros file args. apply syncDependencyProducts_execa.
  - intros f.
    pose proof (where_run (fun io => is_execa io && f io)
                  (syncDependencyProducts' module) sched) as Hb.
    rewrite syncDependencyProducts_where in Hb. fold s in Hb. lia.
  - pose proof (budget_run (syncDependencyProducts' module) sched) as Hb.
    fold s in Hb.
    rewrite (@syncDependencyProducts_budget _ platform toCygwinPath getModuleKey this)
      in Hb.
    lia.
  - destruct (run_trace (syncDependencyProducts' module) sched) as [evs Hevs].
    fold s in Hevs. rewrite Hevs. simpl. eauto.
  - intros t1 e t2 Ht.
    destruct (@guarded_run _ (@throws_after_ensureDir_mono _ getModuleKey this module)
                _ sched
                (@syncDependencyProducts_throws_after _ platform toCygwinPath getModuleKey
                   this module) _ _ _ Ht I e eq_refl)
      as (H1 & d & H2 & H3).
    split; [now apply In_fulfilled|].
    exists d. split; [exact H2|now apply In_fulfilled].
  - intros Hok.
    assert (Hok' : all_ok (sched ++ fulfil_all (turns (syncDependencyProducts' module))))
      by now apply all_ok_fulfil_all.
    assert (Hp : pending settled = []) by apply run_settles.
    split.
    + intros d specs Hd Hcopy.
      destruct (@syncDependencyProducts_awaited module d specs Hd Hcopy) as [H1 _].
      now apply awaited_fulfilled.
    + intros d before c after Hd Hcopy Hrel.
      destruct (@syncDependencyProducts_awaited module d _ Hd Hcopy) as [_ H2].
      apply awaited_fulfilled; auto. apply H2.
      change (before ++ c :: after)%list with (before ++ [c] ++ after)%list.
      rewrite app_assoc, beforeAbsolute_app by exact Hrel.
      apply in_or_app. left. apply in_or_app. right. now left.
Qed.

End MoreStaging.



(** ** [factory] and what follows it *)

Section Factory.

Context {path_module : PathModule}.

Lemma run_Await_turn io k sched :
  trace (run sched (Await io k)) = [Call io; Rejected io] ->
  outcome (run sched (Await io k)) <> Resolved /\
  outcome (run (sched ++ [turn 0]) (Await io k)) = RejectedWith (IOError io).
Proof.
  intros Ht.
  destruct (run_Await io k sched) as [(H & _)|[(sched' & H)|(_ & Hcase)]].
  - rewrite H in Ht. discriminate.
  - rewrite H in Ht. discriminate.
  - split.
    + unfold outcome. destruct Hcase as [[Hp Hr]|[Hp Hr]]; rewrite Hp, Hr; discriminate.
    + rewrite run_snoc. unfold step, outcome.
      destruct Hcase as [[Hp Hr]|[Hp Hr]]; rewrite Hp; simpl; now rewrite Hr.
Qed.

(** X12: [factory] ensures the build directory, then the metadata directory, and
    only then constructs the instance: an execution of [factory] followed by
    code [k] stops with the first directory that cannot be ensured, its
    promise rejected with that failure, or is the two requests fulfilled in
    that order followed by an execution of [k] on the instance. *)
Theorem factory_ensures_both_directories_first projectRoot gardenDirPath k sched :
  let build := ensureDir (join [gardenDirPath; "build"]) in
  let metadata := ensureDir (join [gardenDirPath; "build-metadata"]) in
  let s := run sched (factory projectRoot gardenDirPath k) in
  let later := run (sched ++ [turn 0]) (factory projectRoot gardenDirPath k) in
  (trace s = [Call build] /\ outcome s = StillPending)
  \/
  (trace s = [Call build; Rejected build] /\
   outcome s <> Resolved /\ outcome later = RejectedWith (IOError build))
  \/
  (trace s = [Call build; Fulfilled build; Call metadata] /\ outcome s = StillPending)
  \/
  (trace s = [Call build; Fulfilled build; Call metadata; Rejected metadata] /\
   outcome s <> Resolved /\ outcome later = RejectedWith (IOError metadata))
  \/
  (exists sched',
     trace s
     = ([Call build; Fulfilled build; Call metadata; Fulfilled metadata]
          ++ trace (run sched' (k (made_by_factory projectRoot gardenDirPath))))%list /\
     outcome s = outcome (run sched' (k (made_by_factory projectRoot gardenDirPath)))).
Proof.
  intros build metadata s later. subst s later.
  change (factory projectRoot gardenDirPath k)
    with (Await build (Await metadata (k (made_by_factory projectRoot gardenDirPath)))).
  set (K := k (made_by_factory projectRoot gardenDirPath)).
  destruct (run_Await build (Await metadata K) sched)
    as [(Ht & Hp & Hr)|[(sched' & Hs)|(Ht & Hcase)]].
  - left. split; [exact Ht|]. unfold outcome. now rewrite Hr, Hp.
  - destruct (run_Await metadata K sched')
      as [(Ht' & Hp' & Hr')|[(sched'' & Hs')|(Ht' & Hcase')]].
    + right. right. left. rewrite Hs. split.
      * simpl. now rewrite Ht'.
      * rewrite outcome_after. unfold outcome. now rewrite Hr', Hp'.
    + right. right. right. right. exists sched''.
      rewrite Hs, Hs', after_after. split; reflexivity.
    + right. right. right. left.
      destruct (@run_Await_turn metadata K sched' Ht') as [H1 H2].
      rewrite run_snoc, Hs, step_after, <- run_snoc, !outcome_after.
      split; [|split; assumption]. simpl. now rewrite Ht'.
  - right. left. split; [exact Ht|]. now apply run_Await_turn.
Qed.

(** X13: [clear] makes one request, [emptyDir] on the build directory: it is
    fulfilled when that request is, and rejected with its failure when it is
    rejected. *)
Theorem clear_empties_the_build_directory_once this sched :
  let empty := emptyDir (buildDirPath this) in
  let s := run sched (clear this) in
  (trace s = [Call empty] /\ outcome s = StillPending)
  \/
  (trace s = [Call empty; Fulfilled empty] /\ outcome s = Resolved)
  \/
  (trace s = [Call empty; Rejected empty] /\
   outcome s <> Resolved /\
   outcome (run (sched ++ [turn 0]) (clear this)) = RejectedWith (IOError empty)).
Proof.
  intros empty s. subst s. unfold clear. fold empty.
  destruct (run_Await empty Ret sched) as [(Ht & Hp & Hr)|[(sched' & Hs)|(Ht & Hcase)]].
  - left. split; [exact Ht|]. unfold outcome. now rewrite Hr, Hp.
  - right. left. rewrite Hs, run_Ret. split; reflexivity.
  - right. right. split; [exact Ht|]. now apply run_Await_turn.
Qed.

End Factory.


(** ** Wildcards *)

(** X14: A path that ends with the wildcard "/*" loses its asterisk and keeps the
    separator; a path with a trailing separator stays as it is. *)
Theorem stripWildcard_leaves_a_trailing_separator dir :
  stripWildcard (dir ++ "/*") = dir ++ "/" /\
  stripWildcard (dir ++ "/") = dir ++ "/".
Proof.
  split.
  - apply stripWildcard_wildcard_slash.
  - unfold stripWildcard. now rewrite endsWith_wildcard_slash.
Qed.

(** X15: What [stripWildcard] returns never ends with the wildcard, so that
    stripping again changes nothing. *)
Theorem stripWildcard_is_idempotent path :
  endsWith (stripWildcard path) "/*" = false /\
  stripWildcard (stripWildcard path) = stripWildcard path.
Proof.
  pose proof (stripWildcard_not_wildcard path) as H.
  split; [exact H|]. unfold stripWildcard at 1. now rewrite H.
Qed.

(** ** Paths on a POSIX host *)

Lemma is_prefix_longer d l : forall p, is_prefix d p = false -> is_prefix (d ++ l) p = false.
Proof.
  induction d as [|x d IH]; intros p H; [discriminate|].
  destruct p as [|y p]; [reflexivity|]. simpl in *.
  destruct (String.eqb x y); [now apply IH|reflexivity].
Qed.

Lemma segments_no_slash segs :
  Forall (fun seg => is_segment seg = true) segs ->
  Forall (fun seg => has_slash seg = false) segs.
Proof.
  apply Forall_impl. intros seg H. now destruct (is_segment_spec _ H) as (_ & _ & _ & _ & ?).
Qed.

Lemma resolve_child_segments cwd_segs dir n :
  is_segment n = true ->
  Forall (fun seg => is_segment seg = true) (Posix.resolve_segs cwd_segs [dir; n]).
Proof.
  intros Hn. rewrite (@resolve_segs_child cwd_segs dir n Hn). apply Forall_app. split.
  - apply resolve_segs_segments.
  - now constructor.
Qed.

(** Directories of names under resolved directories are the same path only
    when they have the same segments. *)
Lemma posix_resolve_child_inj cwd_segs dir1 n1 dir2 n2 :
  is_segment n1 = true -> is_segment n2 = true ->
  Posix.posix_resolve cwd_segs [dir1; n1] = Posix.posix_resolve cwd_segs [dir2; n2] ->
  Posix.resolve_segs cwd_segs [dir1; n1] = Posix.resolve_segs cwd_segs [dir2; n2].
Proof.
  intros H1 H2 Heq. unfold Posix.posix_resolve in Heq.
  apply append_inv_head in Heq.
  assert (Hne : forall dir n, is_segment n = true ->
                              Posix.resolve_segs cwd_segs [dir; n] <> []).
  { intros dir n Hn. rewrite (@resolve_segs_child cwd_segs dir n Hn).
    intros H. destruct (Posix.resolve_segs cwd_segs [dir]); discriminate. }
  rewrite <- (split_join (Hne dir1 n1 H1)
                (segments_no_slash (@resolve_child_segments cwd_segs dir1 n1 H1))).
  rewrite <- (split_join (Hne dir2 n2 H2)
                (segments_no_slash (@resolve_child_segments cwd_segs dir2 n2 H2))).
  now rewrite Heq.
Qed.

Section PosixBuildDir.

Variable cwd_segs : list string.

#[local] Abbreviation posix := (Posix.posix cwd_segs).

(** X16: On a POSIX host other than win32, for a module whose name is a plain path
    segment other than "*", the one program [syncFromSrc] executes is rsync
    with [-rptgo], the exclude rule and [--delete], from the resolved source
    directory of the module with a trailing separator to the directory of
    its name under the resolved build directory. *)
Theorem syncFromSrc_command_line_on_posix platform toCygwinPath this module sched
    file args :
  String.eqb platform "win32" = false ->
  is_segment (name module) = true ->
  name module <> "*" ->
  In (Call (execa file args))
     (trace (run sched (syncFromSrc (path_module := posix) platform toCygwinPath this
                          module))) ->
  file = "rsync" /\
  args = ["-rptgo"; "--exclude=" ++ buildDirPath this; "--delete";
          Posix.posix_resolve cwd_segs [projectRoot this; path module] ++ "/";
          child (Posix.posix_resolve cwd_segs [buildDirPath this]) (name module)].
Proof.
  intros Hplatform Hname Hstar Hin.
  destruct (@stage_execa_In posix platform toCygwinPath (fun n _ => n) this
              (StageSource module) sched file args Hin)
    as (Hfile & src & dst & wd & Hreq & ->).
  split; [exact Hfile|].
  destruct Hreq as [Hreq|[]]. injection Hreq as <- <- <-.
  change (String "/"
            (Posix.join_slash (Posix.resolve_segs cwd_segs [projectRoot this; path module])
               ++ "/"))
    with (Posix.posix_resolve cwd_segs [projectRoot this; path module] ++ "/").
  rewrite rsyncArgs_options. unfold syncPaths, syncOpts. rewrite Hplatform.
  cbn [fst snd app].
  rewrite (@posix_resolve_child cwd_segs (buildDirPath this) (name module) Hname).
  unfold stripWildcard.
  rewrite endsWith_wildcard_slash, (@endsWith_wildcard_child _ _ Hname Hstar).
  reflexivity.
Qed.

(** X17: For the instance [factory] constructs and module names that are plain
    path segments, the build path of a module and the metadata path of a
    module are never the same directory, neither lies within the other, and
    [buildMetadataPath] gives distinct names distinct directories. *)
Theorem build_and_metadata_paths_never_meet projectRoot gardenDirPath n1 n2 :
  is_segment n1 = true ->
  is_segment n2 = true ->
  let this := made_by_factory (path_module := posix) projectRoot gardenDirPath in
  let build := Posix.resolve_segs cwd_segs [buildDirPath this; n1] in
  let metadata := Posix.resolve_segs cwd_segs [buildMetadataDirPath this; n2] in
  is_prefix build metadata = false /\
  is_prefix metadata build = false /\
  buildPathOf (path_module := posix) this n1
  <> Posix.posix_resolve cwd_segs [buildMetadataDirPath this; n2] /\
  (forall k,
     buildMetadataPath (path_module := posix) this n2 k
     = Await (ensureDir (child (Posix.posix_resolve cwd_segs [buildMetadataDirPath this]) n2))
             (k (child (Posix.posix_resolve cwd_segs [buildMetadataDirPath this]) n2))) /\
  (n1 <> n2 ->
   Posix.posix_resolve cwd_segs [buildMetadataDirPath this; n1]
   <> Posix.posix_resolve cwd_segs [buildMetadataDirPath this; n2]).
Proof.
  intros H1 H2 this build metadata.
  assert (Hb : build
               = ((Posix.resolve_segs cwd_segs [gardenDirPath] ++ ["build"]) ++ [n1])%list).
  { unfold build, this, made_by_factory. cbn [buildDirPath join posix Posix.posix].
    rewrite (@resolve_segs_child cwd_segs _ n1 H1).
    now rewrite (@resolve_segs_join cwd_segs gardenDirPath "build" eq_refl). }
  assert (Hm : forall n, is_segment n = true ->
               Posix.resolve_segs cwd_segs [buildMetadataDirPath this; n]
               = ((Posix.resolve_segs cwd_segs [gardenDirPath] ++ ["build-metadata"])
                    ++ [n])%list).
  { intros n Hn. unfold this, made_by_factory.
    cbn [buildMetadataDirPath join posix Posix.posix].
    rewrite (@resolve_segs_child cwd_segs _ n Hn).
    now rewrite (@resolve_segs_join cwd_segs gardenDirPath "build-metadata" eq_refl). }
  assert (Hbm : is_prefix build metadata = false).
  { rewrite Hb. apply is_prefix_longer. unfold metadata. rewrite (Hm n2 H2).
    refine (@is_prefix_sibling _ "build-metadata" "build" _ _ (is_prefix_app _ _)).
    discriminate. }
  split; [exact Hbm|]. split; [|split; [|split]].
  - unfold metadata. rewrite (Hm n2 H2). apply is_prefix_longer. rewrite Hb.
    refine (@is_prefix_sibling _ "build" "build-metadata" _ _ (is_prefix_app _ _)).
    discriminate.
  - intros Heq. unfold buildPathOf in Heq. cbn [resolve posix Posix.posix] in Heq.
    apply (@posix_resolve_child_inj cwd_segs _ _ _ _ H1 H2) in Heq.
    fold build metadata in Heq. rewrite Heq in Hbm.
    pose proof (is_prefix_app metadata []) as Hrefl. rewrite app_nil_r in Hrefl.
    congruence.
  - intros k. unfold buildMetadataPath. cbn [resolve posix Posix.posix].
    now rewrite (@posix_resolve_child cwd_segs _ n2 H2).
  - intros Hne Heq. apply (@posix_resolve_child_inj cwd_segs _ _ _ _ H1 H2) in Heq.
    rewrite (Hm n1 H1), (Hm n2 H2) in Heq. apply app_inv_head in Heq.
    inversion Heq. contradiction.
Qed.

End PosixBuildDir.

(** ** The further properties on the sample project *)

Lemma web_relative_allRelative : allRelative (path_module := sample_path) web_relative.
Proof.
  intros d specs c Hd Hcopy Hc. simpl in Hd.
  destruct Hd as [<-|[<-|[<-|[]]]]; injection Hcopy as <-; simpl in Hc;
    repeat (destruct Hc as [<-|Hc]; [reflexivity|]); destruct Hc.
Defined.

(** [syncDependencyProducts] on [web_relative], every request fulfilled: it is
    fulfilled, rsync ran for [lib], and the build path of [base], which has
    an empty copy list, was ensured. *)
Lemma copy_specs_are_synced_when_nothing_fails_witness :
  all_ok [] /\
  outcome (run ([] ++ fulfil_all (turns (sample_stage (StageDependencies web_relative))))
               (sample_stage (StageDependencies web_relative)))
  = Resolved /\
  In (Fulfilled (execa "rsync" rsync_lib))
     (trace (run ([] ++ fulfil_all (turns (sample_stage (StageDependencies web_relative))))
                 (sample_stage (StageDependencies web_relative)))) /\
  In (Fulfilled (ensureDir "/proj/.garden/build/base"))
     (trace (run ([] ++ fulfil_all (turns (sample_stage (StageDependencies web_relative))))
                 (sample_stage (StageDependencies web_relative)))).
Proof.
  assert (Hok : all_ok []) by constructor.
  split; [exact Hok|].
  pose proof (@copy_specs_are_synced_when_nothing_fails sample_path "linux"
                sample_toCygwinPath sample_getModuleKey sample_buildDir web_relative []
                Hok) as H.
  cbv zeta in H. destruct H as (_ & Hall & Hrel).
  destruct (Hrel web_relative_allRelative) as [Hres Hsync].
  split; [exact Hres|]. split.
  - exact (Hsync lib_dep _ {| source := "dist/*"; target := "vendor/lib" |}
             (or_introl eq_refl) eq_refl (or_introl eq_refl)).
  - exact (proj1 (Hall {| dep_name := "base"; dep_plugin := None; copy := Some [] |} []
                    (or_intror (or_introl eq_refl)) eq_refl)).
Defined.

(** When [syncDependencyProducts] on [web] executes rsync for [lib], the
    build path of [web] and that of a dependency have been ensured. *)
Lemma build_paths_ensured_before_rsync_witness :
  trace (run until_rsync_lib (sample_stage (StageDependencies web)))
  = (before_rsync_lib ++ Call (execa "rsync" rsync_lib) :: [])%list /\
  In (Fulfilled (ensureDir "/proj/.garden/build/web")) before_rsync_lib /\
  exists d specs c,
    In d (dependencies web) /\ copy d = Some specs /\ In c specs /\
    execa "rsync" rsync_lib
    = copy_rsync (path_module := sample_path) "linux" sample_toCygwinPath
        sample_getModuleKey sample_buildDir web d c /\
    In (Fulfilled
          (ensureDir (buildPathOf (path_module := sample_path) sample_buildDir
                        (sample_getModuleKey (dep_name d) (dep_plugin d)))))
       before_rsync_lib.
Proof.
  assert (H : trace (run until_rsync_lib (sample_stage (StageDependencies web)))
              = (before_rsync_lib ++ Call (execa "rsync" rsync_lib) :: [])%list)
    by reflexivity.
  split; [exact H|].
  exact (@build_paths_ensured_before_rsync sample_path "linux" sample_toCygwinPath
           sample_getModuleKey sample_buildDir web until_rsync_lib before_rsync_lib
           "rsync" rsync_lib [] H).
Defined.

(** [syncFromSrc] on [web] when the build path of [web] cannot be ensured. *)
Lemma build_path_failure_stops_staging_witness :
  trace (run [fail 0] (sample_stage (StageSource web)))
  = [Call (ensureDir "/proj/.garden/build/web");
     Rejected (ensureDir "/proj/.garden/build/web")] /\
  (forall more,
     trace (run ([fail 0] ++ more) (sample_stage (StageSource web)))
     = [Call (ensureDir "/proj/.garden/build/web");
        Rejected (ensureDir "/proj/.garden/build/web")]) /\
  outcome (run ([fail 0] ++ [turn 0]) (sample_stage (StageSource web)))
  = RejectedWith (IOError (ensureDir "/proj/.garden/build/web")).
Proof.
  assert (H : trace (run [fail 0] (sample_stage (StageSource web)))
              = [Call (ensureDir "/proj/.garden/build/web");
                 Rejected (ensureDir "/proj/.garden/build/web")])
    by reflexivity.
  split; [exact H|].
  destruct (@build_path_failure_stops_staging sample_path "linux" sample_toCygwinPath
              sample_getModuleKey sample_buildDir (StageSource web) [fail 0] [] H)
    as (_ & Hmore & _ & Hout).
  split; [exact Hmore|exact Hout].
Defined.

(** The paths of the rsync invocation for [lib], whose source is "dist/*". *)
Lemma rsync_paths_never_end_with_the_wildcard_witness :
  In (Call (execa "rsync" rsync_lib))
     (trace (run both_rsync_fail (sample_stage (StageDependencies web)))) /\
  exists withDelete sourcePath destinationPath,
    rsync_lib = (syncOpts sample_buildDir withDelete ++ [sourcePath; destinationPath])%list /\
    endsWith sourcePath "/*" = false /\
    endsWith destinationPath "/*" = false.
Proof.
  assert (H : In (Call (execa "rsync" rsync_lib))
                 (trace (run both_rsync_fail (sample_stage (StageDependencies web)))))
    by in_list.
  split; [exact H|].
  exact (@rsync_paths_never_end_with_the_wildcard sample_path "linux" sample_toCygwinPath
           sample_getModuleKey sample_buildDir (StageDependencies web) both_rsync_fail
           "rsync" rsync_lib H).
Defined.

(** The message logged before rsync runs for [lib]. *)
Lemma rsync_is_logged_right_before_witness :
  trace (run until_rsync_lib (sample_stage (StageDependencies web)))
  = (before_rsync_lib ++ Call (execa "rsync" rsync_lib) :: [])%list /\
  exists t0 src dst withDelete,
    In (src, dst, withDelete)
       (requests_of (path_module := sample_path) sample_getModuleKey sample_buildDir
          (StageDependencies web)) /\
    before_rsync_lib
    = (t0 ++ [Logged (logMsg (path_module := sample_path) "linux" sample_toCygwinPath
                        sample_buildDir src dst withDelete)])%list /\
    rsync_lib = rsyncArgs "linux" sample_toCygwinPath sample_buildDir src dst withDelete.
Proof.
  assert (H : trace (run until_rsync_lib (sample_stage (StageDependencies web)))
              = (before_rsync_lib ++ Call (execa "rsync" rsync_lib) :: [])%list)
    by reflexivity.
  split; [exact H|].
  exact (@rsync_is_logged_right_before sample_path "linux" sample_toCygwinPath
           sample_getModuleKey sample_buildDir (StageDependencies web) until_rsync_lib
           before_rsync_lib "rsync" rsync_lib [] H).
Defined.

(** [syncDependencyProducts] on a module without dependencies. *)
Lemma nothing_to_copy_only_ensures_the_build_path_witness :
  copiesNothing standalone /\
  trace (run [fulfil 0; turn 0] (sample_stage (StageDependencies standalone)))
  = [Call (ensureDir "/proj/.garden/build/api");
     Fulfilled (ensureDir "/proj/.garden/build/api")] /\
  outcome (run [fulfil 0; turn 0] (sample_stage (StageDependencies standalone)))
  = Resolved.
Proof.
  assert (H : copiesNothing standalone) by (intros d []).
  split; [exact H|].
  exact (proj2 (@nothing_to_copy_only_ensures_the_build_path sample_path "linux"
                  sample_toCygwinPath sample_getModuleKey sample_buildDir standalone []
                  H)).
Defined.

(** The error [syncDependencyProducts] throws on [web_etc]. *)
Lemma configuration_error_names_the_first_absolute_copy_spec_witness :
  In (Threw (ConfigurationError
               "Target path in build dependency copy spec must be a relative path"
               {| source := "conf"; target := "/etc/foo" |}))
     (trace (run check_copy_spec (sample_stage (StageDependencies web_etc)))) /\
  exists module d before c after,
    StageDependencies web_etc = StageDependencies module /\
    In d (dependencies module) /\
    copy d = Some (before ++ c :: after)%list /\
    (forall c', In c' before -> hasAbsolutePath (path_module := sample_path) c' = false) /\
    hasAbsolutePath (path_module := sample_path) c = true /\
    ConfigurationError
      "Target path in build dependency copy spec must be a relative path"
      {| source := "conf"; target := "/etc/foo" |}
    = ConfigurationError
        (if isAbsolute (PathModule := sample_path) (source c)
         then "Source path in build dependency copy spec must be a relative path"
         else "Target path in build dependency copy spec must be a relative path")
        c.
Proof.
  assert (H : In (Threw (ConfigurationError
                           "Target path in build dependency copy spec must be a relative path"
                           {| source := "conf"; target := "/etc/foo" |}))
                 (trace (run check_copy_spec (sample_stage (StageDependencies web_etc)))))
    by in_list.
  split; [exact H|].
  exact (@configuration_error_names_the_first_absolute_copy_spec sample_path "linux"
           sample_toCygwinPath sample_getModuleKey sample_buildDir
           (StageDependencies web_etc) check_copy_spec _ H).
Defined.

(** The directory ensured for the copy spec of [lib] is the parent of its
    destination. *)
Lemma staging_only_ensures_and_syncs_witness :
  In (Call (ensureDir "/proj/.garden/build/web/vendor"))
     (trace (run until_rsync_lib (sample_stage (StageDependencies web)))) /\
  ("/proj/.garden/build/web/vendor"
   = buildPathOf (path_module := sample_path) sample_buildDir
       (name (staged (StageDependencies web))) \/
   (exists module d specs,
      StageDependencies web = StageDependencies module /\ In d (dependencies module) /\
      copy d = Some specs /\
      "/proj/.garden/build/web/vendor"
      = buildPathOf (path_module := sample_path) sample_buildDir
          (sample_getModuleKey (dep_name d) (dep_plugin d))) \/
   (exists src dst withDelete,
      In (src, dst, withDelete)
         (requests_of (path_module := sample_path) sample_getModuleKey sample_buildDir
            (StageDependencies web)) /\
      "/proj/.garden/build/web/vendor" = parse_dir (PathModule := sample_path) dst)).
Proof.
  assert (H : In (Call (ensureDir "/proj/.garden/build/web/vendor"))
                 (trace (run until_rsync_lib (sample_stage (StageDependencies web)))))
    by in_list.
  split; [exact H|].
  exact (@staging_only_ensures_and_syncs sample_path "linux" sample_toCygwinPath
           sample_getModuleKey sample_buildDir (StageDependencies web) until_rsync_lib
           (ensureDir "/proj/.garden/build/web/vendor") H).
Defined.

(** The command line of [syncFromSrc] on [web]. *)
Lemma syncFromSrc_command_line_on_posix_witness :
  String.eqb "linux" "win32" = false /\
  is_segment "web" = true /\
  "web" <> "*" /\
  In (Call (execa "rsync" rsync_web))
     (trace (run [fulfil 0; fulfil 0] (sample_stage (StageSource web)))) /\
  rsync_web
  = ["-rptgo"; "--exclude=/proj/.garden/build"; "--delete";
     "/proj/services/web/"; "/proj/.garden/build/web"].
Proof.
  assert (H : In (Call (execa "rsync" rsync_web))
                 (trace (run [fulfil 0; fulfil 0] (sample_stage (StageSource web)))))
    by in_list.
  assert (Hstar : "web" <> "*") by discriminate.
  split; [reflexivity|]. split; [reflexivity|]. split; [exact Hstar|].
  split; [exact H|].
  exact (proj2 (@syncFromSrc_command_line_on_posix ["home"; "dev"] "linux"
                  sample_toCygwinPath sample_buildDir web [fulfil 0; fulfil 0]
                  "rsync" rsync_web eq_refl eq_refl Hstar H)).
Defined.

(** The build path of "web" and the metadata path of "lib" under
    "/proj/.garden". *)
Lemma build_and_metadata_paths_never_meet_witness :
  is_segment "web" = true /\
  is_segment "lib" = true /\
  buildPathOf (path_module := sample_path)
    (made_by_factory (path_module := sample_path) "/proj" "/proj/.garden") "web"
  = "/proj/.garden/build/web" /\
  Posix.posix_resolve ["home"; "dev"]
    [buildMetadataDirPath (made_by_factory (path_module := sample_path) "/proj" "/proj/.garden");
     "lib"]
  = "/proj/.garden/build-metadata/lib" /\
  buildPathOf (path_module := sample_path)
    (made_by_factory (path_module := sample_path) "/proj" "/proj/.garden") "web"
  <> Posix.posix_resolve ["home"; "dev"]
       [buildMetadataDirPath
          (made_by_factory (path_module := sample_path) "/proj" "/proj/.garden");
        "lib"].
Proof.
  split; [reflexivity|]. split; [reflexivity|].
  split; [reflexivity|]. split; [reflexivity|].
  exact (proj1 (proj2 (proj2
           (@build_and_metadata_paths_never_meet ["home"; "dev"] "/proj" "/proj/.garden"
              "web" "lib" eq_refl eq_refl)))).
Defined.

(** Both rsync invocations of [web] are within its two copy specs. *)
Lemma rsync_runs_once_per_copy_spec_witness :
  execa_calls (trace (run both_rsync_fail (sample_stage (StageDependencies web)))) <= 2 /\
  execa_calls
    (trace (run ([] ++ fulfil_all (turns (sample_stage (StageDependencies web_relative))))
                (sample_stage (StageDependencies web_relative))))
  = 2.
Proof.
  destruct (@rsync_runs_once_per_copy_spec sample_path "linux" sample_toCygwinPath
              sample_getModuleKey sample_buildDir web both_rsync_fail) as (Hle & _ & _).
  destruct (@rsync_runs_once_per_copy_spec sample_path "linux" sample_toCygwinPath
              sample_getModuleKey sample_buildDir web_relative []) as (_ & Heq & _).
  split; [exact Hle|]. apply Heq. constructor.
Defined.

(** [syncFromSrc] on [web] when the parent of the destination cannot be
    ensured: rsync does not run. *)
Lemma syncFromSrc_stops_at_the_first_failure_witness :
  In (Rejected (ensureDir "/proj/.garden/build"))
     (trace (run [fulfil 0; fail 0] (sample_stage (StageSource web)))) /\
  (forall file args,
     ~ In (Call (execa file args))
          (trace (run [fulfil 0; fail 0] (sample_stage (StageSource web))))) /\
  outcome (run ([fulfil 0; fail 0] ++ [turn 0]) (sample_stage (StageSource web)))
  = RejectedWith (IOError (ensureDir "/proj/.garden/build")).
Proof.
  assert (H : In (Rejected (ensureDir "/proj/.garden/build"))
                 (trace (run [fulfil 0; fail 0] (sample_stage (StageSource web)))))
    by in_list.
  split; [exact H|].
  exact (proj2 (@syncFromSrc_stops_at_the_first_failure sample_path "linux"
                  sample_toCygwinPath sample_buildDir web [fulfil 0; fail 0])
           "/proj/.garden/build" H).
Defined.

(** [factory] on "/proj/.garden" when the metadata directory cannot be
    ensured. *)
Lemma factory_ensures_both_directories_first_witness :
  trace (run [fulfil 0; fail 0] sample_factory)
  = [Call (ensureDir "/proj/.garden/build");
     Fulfilled (ensureDir "/proj/.garden/build");
     Call (ensureDir "/proj/.garden/build-metadata");
     Rejected (ensureDir "/proj/.garden/build-metadata")] /\
  outcome (run ([fulfil 0; fail 0] ++ [turn 0]) sample_factory)
  = RejectedWith (IOError (ensureDir "/proj/.garden/build-metadata")).
Proof.
  split; [reflexivity|].
  pose proof (@factory_ensures_both_directories_first sample_path "/proj" "/proj/.garden"
                (fun _ => Ret) [fulfil 0; fail 0]) as H.
  cbv zeta in H.
  destruct H as [[H _]|[[H _]|[[H _]|[(_ & _ & H)|(sched' & H & _)]]]];
    try discriminate H.
  exact H.
Defined.

(** [syncDependencyProducts] on [web] asks for the build paths of [lib] and
    [assets] together; [base] has no copy list. *)
Lemma dependencies_are_started_at_once_witness :
  exists rest,
    trace (run until_rsync_lib (sample_stage (StageDependencies web)))
    = ([Call (ensureDir "/proj/.garden/build/web");
        Fulfilled (ensureDir "/proj/.garden/build/web")]
         ++ [Call (ensureDir "/proj/.garden/build/lib");
             Call (ensureDir "/proj/.garden/build/npm--assets")]
         ++ rest)%list.
Proof.
  pose proof (@dependencies_are_started_at_once sample_path "linux" sample_toCygwinPath
                sample_getModuleKey sample_buildDir web until_rsync_lib) as H.
  cbv zeta in H. destruct H as [H|[H|[H|H]]]; try discriminate H.
  exact H.
Defined.

(** [clear] on the sample instance, the request fulfilled. *)
Lemma clear_empties_the_build_directory_once_witness :
  trace (run [fulfil 0] (clear sample_buildDir))
  = [Call (emptyDir "/proj/.garden/build"); Fulfilled (emptyDir "/proj/.garden/build")] /\
  outcome (run [fulfil 0] (clear sample_buildDir)) = Resolved.
Proof.
  pose proof (clear_empties_the_build_directory_once sample_buildDir [fulfil 0]) as H.
  cbv zeta in H. destruct H as [[H _]|[H|[H _]]]; try discriminate H.
  exact H.
Defined.

(** The second copy spec of [web_lib_etc] has an absolute target. *)
Lemma web_lib_etc_hasAbsoluteCopySpec :
  hasAbsoluteCopySpec (path_module := sample_path) web_lib_etc.
Proof.
  exists {| dep_name := "lib"; dep_plugin := None;
            copy := Some [ {| source := "dist/*"; target := "vendor/lib" |};
                           {| source := "conf"; target := "/etc/foo" |} ] |},
         [ {| source := "dist/*"; target := "vendor/lib" |};
           {| source := "conf"; target := "/etc/foo" |} ],
         {| source := "conf"; target := "/etc/foo" |}.
  repeat split; simpl; auto.
Defined.

(** [syncDependencyProducts] on [web_lib_etc], under [check_then_sync]: it
    does not fulfil; the error thrown is the one for the copy spec with the
    target "/etc/foo"; the one program executed is rsync for the copy spec
    in front of it, which runs to its end. *)
Lemma absolute_copy_spec_rejects_without_its_sync_witness :
  hasAbsoluteCopySpec (path_module := sample_path) web_lib_etc /\
  outcome (run check_then_sync (sample_stage (StageDependencies web_lib_etc)))
  <> Resolved /\
  first_absolute_error (path_module := sample_path) web_lib_etc
    (ConfigurationError
       "Target path in build dependency copy spec must be a relative path"
       {| source := "conf"; target := "/etc/foo" |}) /\
  sync_in_front (path_module := sample_path) "linux" sample_toCygwinPath
    sample_getModuleKey sample_buildDir web_lib_etc (execa "rsync" rsync_lib) /\
  execa_calls (trace (run check_then_sync (sample_stage (StageDependencies web_lib_etc))))
  <= 1 /\
  In (Fulfilled (execa "rsync" rsync_lib))
     (trace (run (check_then_sync
                    ++ fulfil_all (turns (sample_stage (StageDependencies web_lib_etc))))
                 (sample_stage (StageDependencies web_lib_etc)))).
Proof.
  split; [exact web_lib_etc_hasAbsoluteCopySpec|].
  pose proof (absolute_copy_spec_rejects_without_its_sync (path_module := sample_path)
                "linux" sample_toCygwinPath sample_getModuleKey sample_buildDir
                check_then_sync web_lib_etc_hasAbsoluteCopySpec) as H.
  cbv zeta in H.
  destruct H as (Hnot & Hthrew & _ & Hexeca & _ & Hcount & _ & _ & Hgo).
  split; [exact Hnot|]. split; [apply Hthrew; in_list|].
  split; [apply Hexeca; in_list|]. split; [exact Hcount|].
  assert (Hok : all_ok check_then_sync) by (repeat constructor).
  destruct (Hgo Hok) as [_ Hsync].
  apply (Hsync {| dep_name := "lib"; dep_plugin := None;
                  copy := Some [ {| source := "dist/*"; target := "vendor/lib" |};
                                 {| source := "conf"; target := "/etc/foo" |} ] |}
               [] {| source := "dist/*"; target := "vendor/lib" |}
               [ {| source := "conf"; target := "/etc/foo" |} ]).
  - now left.
  - reflexivity.
  - intros c' [<-|[]]. reflexivity.
Defined.

(** ** Where the exclude rule misses *)

(** C2 (the code falls short of the claim): [syncFromSrc] on [web], in every
    execution, runs no program but rsync with [--delete] and with the exclude
    rule "/proj/.garden/build", into "/proj/.garden/build/web", and is
    fulfilled when the host fulfils its requests.  The file [stale_file] of
    that directory, which the source does not have, is at
    "proj/.garden/build/stale.txt" from the destination: below the path the
    exclude rule names from the root of the transfer. *)
Theorem stale_file_lies_below_the_exclude_rule :
  trace (run (fulfil_all 3) (sample_stage (StageSource web)))
  = (before_rsync_web
       ++ [Call (execa "rsync" rsync_web); Fulfilled (execa "rsync" rsync_web)])%list /\
  outcome (run (fulfil_all 3) (sample_stage (StageSource web))) = Resolved /\
  (forall sched file args,
     In (Call (execa file args)) (trace (run sched (sample_stage (StageSource web)))) ->
     file = "rsync" /\
     args = ["-rptgo"; "--exclude=/proj/.garden/build"; "--delete";
             "/proj/services/web/"; "/proj/.garden/build/web"]) /\
  Posix.posix_relative ["home"; "dev"] "/proj/.garden/build/web" stale_file
  = "proj/.garden/build/stale.txt" /\
  is_prefix (tl (Posix.split_slash "/proj/.garden/build"))
            (Posix.split_slash "proj/.garden/build/stale.txt")
  = true.
Proof.
  split; [reflexivity|]. split; [reflexivity|]. split; [|split; reflexivity].
  intros sched file args Hin.
  pose proof (proj1 (@syncFromSrc_runs_mirror_rsync sample_path "linux"
                       sample_toCygwinPath sample_getModuleKey sample_buildDir web sched)
                file args Hin) as Heq.
  vm_compute in Heq. injection Heq as -> ->. split; reflexivity.
Qed.

(** C9 (the code falls short of the claim): [syncFromSrc] on [root_module],
    a module in the directory of the project, runs in every execution no
    program but rsync from "/proj/" with the exclude rule
    "/proj/.garden/build".  The build directory is in the source tree, at
    ".garden/build" from the root of the transfer; the path the exclude rule
    names from that root is "proj/.garden/build", not the build directory
    nor a directory above it. *)
Theorem build_directory_is_not_under_the_exclude_rule :
  trace (run (fulfil_all 3) (sample_stage (StageSource root_module)))
  = [Call (ensureDir "/proj/.garden/build/app");
     Fulfilled (ensureDir "/proj/.garden/build/app");
     Call (ensureDir "/proj/.garden/build");
     Fulfilled (ensureDir "/proj/.garden/build");
     Logged "Syncing from  to .garden/build/app (with delete)";
     Call (execa "rsync" rsync_root);
     Fulfilled (execa "rsync" rsync_root)] /\
  (forall sched file args,
     In (Call (execa file args))
        (trace (run sched (sample_stage (StageSource root_module)))) ->
     file = "rsync" /\ args = rsync_root) /\
  is_prefix (Posix.resolve_segs ["home"; "dev"] ["/proj/"])
            (Posix.resolve_segs ["home"; "dev"] [buildDirPath sample_buildDir])
  = true /\
  Posix.posix_relative ["home"; "dev"] "/proj/" (buildDirPath sample_buildDir)
  = ".garden/build" /\
  is_prefix (tl (Posix.split_slash "/proj/.garden/build"))
            (Posix.split_slash ".garden/build")
  = false.
Proof.
  split; [reflexivity|]. split; [|repeat split; reflexivity].
  intros sched file args Hin.
  destruct (@stage_execa_In sample_path "linux" sample_toCygwinPath sample_getModuleKey
              sample_buildDir (StageSource root_module) sched file args Hin)
    as (Hfile & src & dst & wd & Hreq & ->).
  split; [exact Hfile|].
  destruct Hreq as [Hreq|[]]. injection Hreq as <- <- <-. reflexivity.
Qed.
